(** * Constrained pit limit problem (CPIT): the genetic scheduler

    A shallow embedding of [genetic_algorithmCPIT.py]: the block model
    loader [MineLibCPIT], the feasibility check and the one-pass repair,
    the economic evaluator, the genetic operators with their generational
    loop, and the randomized topological baseline.

    Conventions of the embedding.
    - Block ids are integers ([Z]); Python dicts keyed by ids are [gmap Z _],
      Python sets of ids are [gset Z]; a lookup of a missing key raises
      [KeyError].
    - Every Python function that can raise returns a [result].
    - Real-valued quantities (tonnage, value, rates) live in a type [F]
      that comes with the arithmetic the program uses (class [Numero]).
      The general theorems hold for every such arithmetic; the worked
      examples are evaluated over the rationals.
    - The process-wide generator of the [random] module is an explicit
      state of a type [G] (class [Aleatorio]), threaded through every
      function that draws from it. *)

From Stdlib Require Import ZArith QArith Qpower Lia Ascii String.
From stdpp Require Import gmap strings list fin_maps relations.

Set Default Proof Using "Type".
Set Warnings "-clear-no-such-hyp".
Open Scope Z_scope.

(** ** Exceptions and the error monad *)

Inductive erro : Set :=
  | KeyError
  | ValueError
  | IndexError
  | SyntaxError
  | AttributeError
  | ZeroDivisionError
  | OverflowError.

Inductive result (A : Type) : Type :=
  | Ok (a : A)
  | Raise (e : erro).
Arguments Ok {A} a.
Arguments Raise {A} e.

#[export] Instance result_ret : MRet result := @Ok.
#[export] Instance result_bind : MBind result := λ A B f m,
  match m with Ok a => f a | Raise e => Raise e end.
#[export] Instance result_fmap : FMap result := λ A B f m,
  match m with Ok a => Ok (f a) | Raise e => Raise e end.

(** [d[k]] on a dict. *)
Definition item {V} (d : gmap Z V) (k : Z) : result V :=
  match d !! k with Some v => Ok v | None => Raise KeyError end.

(** A [for] loop whose body can raise, threading the loop state. *)
Fixpoint para {A S} (corpo : S → A → result S) (s : S) (l : list A) : result S :=
  match l with
  | [] => Ok s
  | x :: l' => s' ← corpo s x; para corpo s' l'
  end.

(** A list comprehension whose element expression can raise. *)
Fixpoint compreensao {A B} (f : A → result B) (l : list A) : result (list B) :=
  match l with
  | [] => Ok []
  | x :: l' => y ← f x; ys ← compreensao f l'; Ok (y :: ys)
  end.

(** The keys of a dict filled by inserting the elements of [l] in order:
    a key keeps the position of its first insertion. *)
Fixpoint chaves_aux (vistos : gset Z) (l : list Z) : list Z :=
  match l with
  | [] => []
  | k :: l' =>
      if bool_decide (k ∈ vistos) then chaves_aux vistos l'
      else k :: chaves_aux ({[k]} ∪ vistos) l'
  end.
Definition chaves (l : list Z) : list Z := chaves_aux ∅ l.

(** [dict(zip(ks, vs))]: a later pair overrides an earlier one. *)
Definition dict_zip {V} (ks : list Z) (vs : list V) : gmap Z V :=
  foldl (λ d kv, <[kv.1 := kv.2]> d) ∅ (zip ks vs).

(** ** The arithmetic of the evaluator *)

Class Numero (F : Type) : Type := {
  n_lit : Q → F;                  (* a numeric literal of the program text *)
  n_opp : F → F;
  n_add : F → F → F;
  n_mul : F → F → F;
  n_quo : F → F → F;              (* quotient by a non-zero divisor *)
  n_e_zero : F → bool;            (* x == 0 *)
  n_pot : F → Z → result F;       (* x ** k for an integer k >= 0 *)
  n_maior : F → F → bool;         (* x > y *)
  n_e_nan : F → bool              (* x is not a number: x != x *)
}.

Section Literais.
Context {F : Type} `{Numero F}.

Definition n_zero : F := n_lit 0%Q.
Definition n_um : F := n_lit 1%Q.
(** The mining cost per unit of tonnage, the literal [0.75]. *)
Definition n_custo : F := n_lit (3 # 4)%Q.
(** The defaults of [calcular_vpl]: [taxa_desconto=0.15] and
    [capacidade=10_000_000]. *)
Definition taxa_padrao : F := n_lit (15 # 100)%Q.
Definition capacidade_padrao : F := n_lit (inject_Z 10000000).

(** [x - y] *)
Definition n_sub (x y : F) : F := n_add x (n_opp y).

(** [x / y] raises on a zero divisor. *)
Definition n_div (x y : F) : result F :=
  if n_e_zero y then Raise ZeroDivisionError else Ok (n_quo x y).

End Literais.

(** The rationals: exact arithmetic, no overflow. *)
#[export] Instance Numero_Q : Numero Q := {|
  n_lit := λ q, q;
  n_opp := Qopp;
  n_add := Qplus;
  n_mul := Qmult;
  n_quo := Qdiv;
  n_e_zero := λ x, Qeq_bool x 0%Q;
  n_pot := λ x k, Ok (Qpower x k);
  n_maior := λ x y, negb (Qle_bool x y);
  n_e_nan := λ _, false
|}.

(** ** The block model *)

Record MineLibCPIT (F : Type) : Type := {
  ids : list Z;
  tonn_dict : gmap Z F;
  dest_dict : gmap Z Z;
  val_ore_dict : gmap Z F;
  preds_dict : gmap Z (list Z);
  succs_dict : gmap Z (list Z)
}.
Arguments ids {F} _.
Arguments tonn_dict {F} _.
Arguments dest_dict {F} _.
Arguments val_ore_dict {F} _.
Arguments preds_dict {F} _.
Arguments succs_dict {F} _.

(** *** The input table

    The [DataFrame] read from the CSV file: the names of the columns it
    has, and its rows. A row carries a field for each column of the
    schema; the field of a column the table lacks is never read. A cell
    of [precedentes] is text or an already built list. *)

Inductive celula : Type :=
  | CStr (s : string)
  | CLista (l : list Z).

Record linha (F : Type) : Type := {
  l_id : Z;
  l_x : F;
  l_y : F;
  l_z : F;
  l_tonn : F;
  l_dest : Z;
  l_val_ore : F;
  l_precedentes : celula
}.
Arguments l_id {F} _.
Arguments l_x {F} _.
Arguments l_y {F} _.
Arguments l_z {F} _.
Arguments l_tonn {F} _.
Arguments l_dest {F} _.
Arguments l_val_ore {F} _.
Arguments l_precedentes {F} _.

Record DataFrame (F : Type) : Type := {
  columns : list string;
  linhas : list (linha F)
}.
Arguments columns {F} _.
Arguments linhas {F} _.

(** [eval] on the text of a [precedentes] cell, for the form the schema
    prescribes: a bracketed list of decimal integers separated by commas,
    without blanks (["[3,7,12]"], ["[]"]). Any other text is rejected. *)

Definition digito (c : ascii) : option Z :=
  let n := Z.of_nat (nat_of_ascii c) in
  if (48 <=? n) && (n <=? 57) then Some (n - 48) else None.

Definition com_sinal (neg : bool) (n : Z) : Z := if neg then - n else n.

(** The text after the opening bracket: [itens] are the integers read,
    [neg] tells that a sign was read, [num] is the integer being read. *)
Fixpoint ler_lista (cs : list ascii) (itens : list Z) (neg : bool) (num : option Z)
    : result (list Z) :=
  match cs with
  | [] => Raise SyntaxError
  | c :: cs' =>
      if Ascii.eqb c "]" then
        match num, cs' with
        | Some n, [] => Ok (itens ++ [com_sinal neg n])
        | None, [] => if neg then Raise SyntaxError else Ok itens
        | _, _ => Raise SyntaxError
        end
      else if Ascii.eqb c "," then
        match num with
        | Some n => ler_lista cs' (itens ++ [com_sinal neg n]) false None
        | None => Raise SyntaxError
        end
      else if Ascii.eqb c "-" then
        match num with
        | None => if neg then Raise SyntaxError else ler_lista cs' itens true None
        | Some _ => Raise SyntaxError
        end
      else
        match digito c, num with
        | Some d, None => ler_lista cs' itens neg (Some d)
        | Some d, Some n =>
            if (n =? 0) && negb (d =? 0) then Raise SyntaxError
            else ler_lista cs' itens neg (Some (10 * n + d))
        | None, _ => Raise SyntaxError
        end
  end.

Definition py_eval (s : string) : result (list Z) :=
  match list_ascii_of_string s with
  | c :: cs => if Ascii.eqb c "[" then ler_lista cs [] false None
               else Raise SyntaxError
  | [] => Raise SyntaxError
  end.

Section Carga.
Context {F : Type} `{Numero F}.

(** [self.df[nome]] *)
Definition coluna {A} (df : DataFrame F) (nome : string) (campo : linha F → A)
    : result (list A) :=
  if bool_decide (nome ∈ columns df) then Ok (campo <$> linhas df)
  else Raise KeyError.

(** [self.df.get(nome, padrao)], one value per row. *)
Definition obter {A} (df : DataFrame F) (nome : string) (campo : linha F → A)
    (padrao : list A) : list A :=
  if bool_decide (nome ∈ columns df) then campo <$> linhas df else padrao.

(** [self.df[nome] = valores] *)
Definition atribuir {A} (df : DataFrame F) (nome : string)
    (por : linha F → A → linha F) (valores : list A) : DataFrame F :=
  {| columns := if bool_decide (nome ∈ columns df) then columns df
                else columns df ++ [nome];
     linhas := zip_with por (linhas df) valores |}.

Definition por_tonn (r : linha F) (v : F) : linha F :=
  {| l_id := l_id r; l_x := l_x r; l_y := l_y r; l_z := l_z r; l_tonn := v;
     l_dest := l_dest r; l_val_ore := l_val_ore r;
     l_precedentes := l_precedentes r |}.
Definition por_val_ore (r : linha F) (v : F) : linha F :=
  {| l_id := l_id r; l_x := l_x r; l_y := l_y r; l_z := l_z r;
     l_tonn := l_tonn r; l_dest := l_dest r; l_val_ore := v;
     l_precedentes := l_precedentes r |}.
Definition por_dest (r : linha F) (v : Z) : linha F :=
  {| l_id := l_id r; l_x := l_x r; l_y := l_y r; l_z := l_z r;
     l_tonn := l_tonn r; l_dest := v; l_val_ore := l_val_ore r;
     l_precedentes := l_precedentes r |}.

(** The method [_validar_colunas] in force: the class body defines it
    twice, and the second definition, which asks for the basic columns
    only, replaces the first. *)
Definition colunas_basicas : list string := ["id"; "x"; "y"; "z"; "precedentes"].

Definition _validar_colunas (df : DataFrame F) : result unit :=
  match filter (λ c, c ∉ columns df) colunas_basicas with
  | [] => Ok ()
  | _ => Raise ValueError
  end.

(** [succs = {b: [] for b in self.ids}], then [succs[p].append(b)] for
    every [b, preds] of [preds_dict.items()] and every [p] of [preds].
    [preds_dict] is filled row by row, so its keys come in the order of
    their first occurrence in [ids]. *)
Definition anexar_sucessor (b : Z) (succs : gmap Z (list Z)) (p : Z)
    : result (gmap Z (list Z)) :=
  l ← item succs p; Ok (<[p := l ++ [b]]> succs).

Definition _calcular_sucessores (ids : list Z) (preds_dict : gmap Z (list Z))
    : result (gmap Z (list Z)) :=
  para (λ succs b, preds ← item preds_dict b; para (anexar_sucessor b) succs preds)
       (foldl (λ d b, <[b := []]> d) ∅ ids) (chaves ids).

(** [{row.id: eval(row.precedentes) if isinstance(row.precedentes, str)
      else row.precedentes for _, row in self.df.iterrows()}] *)
Definition valor_precedentes (c : celula) : result (list Z) :=
  match c with CStr s => py_eval s | CLista l => Ok l end.

Definition ler_precedentes (df : DataFrame F) : result (gmap Z (list Z)) :=
  para (λ d row,
          if bool_decide ("id" ∈ columns df ∧ "precedentes" ∈ columns df) then
            preds ← valor_precedentes (l_precedentes row);
            Ok (<[l_id row := preds]> d)
          else Raise AttributeError)
       ∅ (linhas df).

(** [(self.df["z"].max() - self.df["z"]) * 10] *)
Definition rampa_de_profundidade (zs : list F) : list F :=
  match zs with
  | [] => []
  | z0 :: zs' =>
      let zmax := foldl (λ m z, if n_maior z m then z else m) z0 zs' in
      (λ z, n_mul (n_sub zmax z) (n_lit (inject_Z 10))) <$> zs
  end.

(** [_preparar_dados], statement by statement: the five dicts are built
    from the columns first, the three fallback assignments come last.
    The result is the instance and the table as the method leaves it. *)
Definition _preparar_dados (df : DataFrame F) : result (MineLibCPIT F * DataFrame F) :=
  c_ids ← coluna df "id" l_id;
  c_tonn ← coluna df "tonn" l_tonn;
  c_dest ← coluna df "dest" l_dest;
  c_val ← coluna df "val_ore" l_val_ore;
  preds ← ler_precedentes df;
  succs ← _calcular_sucessores c_ids preds;
  let n := length (linhas df) in
  let df1 := atribuir df "tonn" por_tonn
               (obter df "tonn" l_tonn (replicate n (n_lit (inject_Z 100)))) in
  let df2 := atribuir df1 "val_ore" por_val_ore
               (obter df1 "val_ore" l_val_ore
                  (rampa_de_profundidade (l_z <$> linhas df1))) in
  let df3 := atribuir df2 "dest" por_dest
               (obter df2 "dest" l_dest (replicate n 1)) in
  Ok ({| ids := c_ids;
         tonn_dict := dict_zip c_ids c_tonn;
         dest_dict := dict_zip c_ids c_dest;
         val_ore_dict := dict_zip c_ids c_val;
         preds_dict := preds;
         succs_dict := succs |}, df3).

(** [MineLibCPIT(arquivo_csv)], from the table read from the file. *)
Definition MineLibCPIT_init (df : DataFrame F) : result (MineLibCPIT F * DataFrame F) :=
  _ ← _validar_colunas df;
  _preparar_dados df.

(** The block models the program can work on. *)
Definition carregada (inst : MineLibCPIT F) : Prop :=
  ∃ df df', MineLibCPIT_init df = Ok (inst, df').

End Carga.

Section Solver.
Context {F : Type} `{Numero F}.
Variable inst : MineLibCPIT F.

(** *** Feasibility check *)

(** [any(pred not in visitados for pred in preds)] *)
Definition falta_pred (visitados : gset Z) (preds : list Z) : bool :=
  existsb (λ pred, negb (bool_decide (pred ∈ visitados))) preds.

Fixpoint verificar_laco (visitados : gset Z) (solucao : list Z) : result bool :=
  match solucao with
  | [] => Ok true
  | b :: resto =>
      preds ← item (preds_dict inst) b;
      if falta_pred visitados preds then Ok false
      else verificar_laco ({[b]} ∪ visitados) resto
  end.

Definition verificar_factibilidade (solucao : list Z) : result bool :=
  verificar_laco ∅ solucao.

(** *** Repair *)

(** The state of the repair loop: [solucao_corrigida] and [visitados]. *)
Definition reparo : Type := list Z * gset Z.

(** [if x not in visitados: solucao_corrigida.append(x); visitados.add(x)] *)
Definition emitir (st : reparo) (x : Z) : reparo :=
  if bool_decide (x ∈ st.2) then st else (st.1 ++ [x], {[x]} ∪ st.2).

Definition reparar_passo (st : reparo) (b : Z) : result reparo :=
  preds ← item (preds_dict inst) b;
  Ok (emitir (foldl emitir st preds) b).

Definition reparar_solucao (solucao : list Z) : result (list Z) :=
  fst <$> para reparar_passo ([], ∅) solucao.

(** *** Economic evaluation *)

(** The state of the evaluation loop. *)
Record avaliacao : Type := {
  ano : Z;
  ton_acumulada : F;
  valor_total : F;
  visitados : gset Z
}.

Definition avaliacao_inicial : avaliacao :=
  {| ano := 1; ton_acumulada := n_zero; valor_total := n_zero; visitados := ∅ |}.

(** [all(p in visitados for p in preds)] *)
Definition todos_visitados (vis : gset Z) (preds : list Z) : bool :=
  forallb (λ p, bool_decide (p ∈ vis)) preds.

(** The net cash of a block and the period state after it: an ore block
    ([dest == 1]) earns its value and loads the period, rolling the period
    over first when the load would exceed the capacity; any other block
    only costs. *)
Definition caixa_e_periodo (capacidade : F) (st : avaliacao) (dest : Z) (ton val : F)
    : F * Z * F :=
  if dest =? 1 then
    let cash := n_add (n_mul (n_opp n_custo) ton) val in
    if n_maior (n_add (ton_acumulada st) ton) capacidade
    then (cash, ano st + 1, n_add n_zero ton)
    else (cash, ano st, n_add (ton_acumulada st) ton)
  else (n_mul (n_opp n_custo) ton, ano st, ton_acumulada st).

Definition vpl_passo (taxa_desconto capacidade : F) (st : avaliacao) (b : Z)
    : result avaliacao :=
  preds ← item (preds_dict inst) b;
  if todos_visitados (visitados st) preds then
    dest ← item (dest_dict inst) b;
    ton ← item (tonn_dict inst) b;
    val ← item (val_ore_dict inst) b;
    let '(cash, ano', ton') := caixa_e_periodo capacidade st dest ton val in
    fator ← n_pot (n_add n_um taxa_desconto) (ano' - 1);
    parcela ← n_div cash fator;
    Ok {| ano := ano'; ton_acumulada := ton';
          valor_total := n_add (valor_total st) parcela;
          visitados := {[b]} ∪ visitados st |}
  else Ok st.

(** The state of the evaluator after scanning [solucao]. *)
Definition vpl_estado (taxa_desconto capacidade : F) (solucao : list Z)
    : result avaliacao :=
  para (vpl_passo taxa_desconto capacidade) avaliacao_inicial solucao.

Definition calcular_vpl (taxa_desconto capacidade : F) (solucao : list Z) : result F :=
  valor_total <$> vpl_estado taxa_desconto capacidade solucao.

End Solver.

(** ** The random source

    The [random] module keeps one generator for the whole process. Its
    state is the type [G]; [semear] is [random.seed], [sortear] is one raw
    draw, [random_random] is [random.random()]. The library functions the
    program calls are written on top of the raw draw the way CPython does:
    a bounded draw, the Fisher-Yates [shuffle], [sample] of two positions by
    pool selection, [choice]. *)

Class Aleatorio (G F : Type) : Type := {
  semear : Z → G;
  sortear : G → nat * G;
  random_random : G → F * G
}.

Section Random.
Context {G F : Type} `{Aleatorio G F}.

(** A draw below [n], for [n > 0]. *)
Definition randbelow (n : nat) (g : G) : nat * G :=
  let '(k, g') := sortear g in ((k mod n)%nat, g').

(** [x[i], x[j] = x[j], x[i]] *)
Definition trocar (i j : nat) (x : list Z) : list Z :=
  match x !! i, x !! j with
  | Some xi, Some xj => <[j := xi]> (<[i := xj]> x)
  | _, _ => x
  end.

(** [for i in reversed(range(1, len(x))): j = randbelow(i + 1); swap] *)
Fixpoint shuffle_laco (i : nat) (x : list Z) (g : G) : list Z * G :=
  match i with
  | O => (x, g)
  | S i' =>
      let '(j, g') := randbelow (i + 1) g in
      shuffle_laco i' (trocar i j x) g'
  end.

Definition shuffle (x : list Z) (g : G) : list Z * G :=
  shuffle_laco (length x - 1) x g.

(** [random.sample(range(n), 2)]: two distinct positions below [n]. The
    pool starts as [0 .. n-1]; the first draw [j1] is taken and its slot
    refilled with the last entry [n-1]; the second draw is below [n-1]. *)
Definition sample2 (n : nat) (g : G) : result (nat * nat * G) :=
  if (n <? 2)%nat then Raise ValueError
  else
    let '(j1, g1) := randbelow n g in
    let '(j2, g2) := randbelow (n - 1) g1 in
    Ok (j1, if (j2 =? j1)%nat then (n - 1)%nat else j2, g2).

(** [random.choice(seq)] *)
Definition choice (seq : list Z) (g : G) : result (Z * G) :=
  match seq with
  | [] => Raise IndexError
  | _ =>
      let '(k, g') := randbelow (length seq) g in
      match seq !! k with
      | Some b => Ok (b, g')
      | None => Raise IndexError
      end
  end.

End Random.

(** ** The solver *)

(** The fields of a [CPITSolverCompleto] besides the instance. [melhor_vpl]
    is [None] while it still holds the initial [-inf]. *)
Record CPITSolverCompleto (F : Type) : Type := {
  pop_size : Z;
  num_geracoes : Z;
  taxa_mutacao : F;
  melhor_solucao : option (list Z);
  melhor_vpl : option F;
  historico : list F
}.
Arguments pop_size {F} _.
Arguments num_geracoes {F} _.
Arguments taxa_mutacao {F} _.
Arguments melhor_solucao {F} _.
Arguments melhor_vpl {F} _.
Arguments historico {F} _.

Section Genetico.
Context {G F : Type} `{Numero F} `{Aleatorio G F}.
Variable inst : MineLibCPIT F.

(** The constructor seeds the process-wide generator, whatever state it
    was in. *)
Definition CPITSolverCompleto_init (pop num : Z) (taxa : F) (seed : Z) (g : G)
    : CPITSolverCompleto F * G :=
  ({| pop_size := pop; num_geracoes := num; taxa_mutacao := taxa;
      melhor_solucao := None; melhor_vpl := None; historico := [] |},
   semear seed).

(** [if not self.verificar_factibilidade(s): s = self.reparar_solucao(s)] *)
Definition reparar_se_preciso (s : list Z) : result (list Z) :=
  ok ← verificar_factibilidade inst s;
  if ok : bool then Ok s else reparar_solucao inst s.

Definition gerar_solucao_aleatoria (g : G) : result (list Z * G) :=
  let '(solucao, g') := shuffle (ids inst) g in
  solucao' ← reparar_se_preciso solucao;
  Ok (solucao', g').

(** [[self.gerar_solucao_aleatoria() for _ in range(n)]] *)
Fixpoint gerar_populacao (n : nat) (g : G) : result (list (list Z) * G) :=
  match n with
  | O => Ok ([], g)
  | S n' =>
      '(sol, g1) ← gerar_solucao_aleatoria g;
      '(pop, g2) ← gerar_populacao n' g1;
      Ok (sol :: pop, g2)
  end.

Definition gerar_populacao_inicial (slv : CPITSolverCompleto F) (g : G)
    : result (list (list Z) * G) :=
  gerar_populacao (Z.to_nat (pop_size slv)) g.

(** [pai1[a:b]] *)
Definition fatia (a b : nat) (l : list Z) : list Z := take (b - a) (drop a l).

(** [pai1[a:b] + [x for x in pai2 if x not in pai1[a:b]]] *)
Definition recombinar (a b : nat) (pai1 pai2 : list Z) : list Z :=
  fatia a b pai1 ++ filter (λ x, x ∉ fatia a b pai1) pai2.

Definition crossover (pai1 pai2 : list Z) (g : G) : result (list Z * G) :=
  let n := length pai1 in
  '(i, j, g') ← sample2 n g;
  let a := Nat.min i j in
  let b := Nat.max i j in
  filho ← reparar_se_preciso (recombinar a b pai1 pai2);
  Ok (filho, g').

Definition mutacao (slv : CPITSolverCompleto F) (solucao : list Z) (g : G)
    : result (list Z * G) :=
  let '(r, g1) := random_random g in
  if n_maior (taxa_mutacao slv) r then
    '(i, j, g2) ← sample2 (length solucao) g1;
    sol ← reparar_se_preciso (trocar i j solucao);
    Ok (sol, g2)
  else Ok (solucao, g1).

(** *** The generational loop *)

(** [max(fitness)] *)
Definition py_max (l : list F) : result F :=
  match l with
  | [] => Raise ValueError
  | x :: l' => Ok (foldl (λ m y, if n_maior y m then y else m) x l')
  end.

(** [np.argmax(fitness)]: the position of the first NaN when there is
    one, else the first position of the maximum. NumPy's scan replaces the
    best value when [not (y <= m)], which holds when [y] is NaN or
    [y > m], and stops at the first NaN it takes. The loop state is the
    position scanned, the best position and the best value; a best value
    that is NaN marks the stopped scan. *)
Definition argmax_passo (e : nat * nat * F) (y : F) : nat * nat * F :=
  let '(i, im, m) := e in
  if n_e_nan m then (S i, im, m)
  else if n_e_nan y || n_maior y m then (S i, S i, y)
  else (S i, im, m).

Definition argmax (l : list F) : result nat :=
  match l with
  | [] => Raise ValueError
  | x :: l' => Ok (foldl argmax_passo (O, O, x) l').1.2
  end.

(** [pop[i]] for a position inside the list. *)
Definition posicao {A} (l : list A) (i : nat) : result A :=
  match l !! i with Some x => Ok x | None => Raise IndexError end.

(** [[self.calcular_vpl(sol) for sol in pop]] *)
Definition avaliar (pop : list (list Z)) : result (list F) :=
  compreensao (calcular_vpl inst taxa_padrao capacidade_padrao) pop.

(** One turn of the [while] loop: two parents sampled from [pop], one child. *)
Definition gerar_filho (slv : CPITSolverCompleto F) (pop : list (list Z)) (g : G)
    : result (list Z * G) :=
  '(i, j, g1) ← sample2 (length pop) g;
  pai1 ← posicao pop i;
  pai2 ← posicao pop j;
  '(filho, g2) ← crossover pai1 pai2 g1;
  mutacao slv filho g2.

(** [while len(nova_pop) < self.pop_size]: [nova_pop] starts empty and
    every turn appends one child, so the loop takes [falta] turns, the
    number of children still missing. *)
Fixpoint nova_populacao (falta : nat) (slv : CPITSolverCompleto F)
    (pop : list (list Z)) (g : G) : result (list (list Z) * G) :=
  match falta with
  | O => Ok ([], g)
  | S falta' =>
      '(filho, g1) ← gerar_filho slv pop g;
      '(resto, g2) ← nova_populacao falta' slv pop g1;
      Ok (filho :: resto, g2)
  end.

(** The elite and the log inside [executar], from the first assignment
    of [self.melhor_vpl] on. *)
Record elite : Type := {
  e_solucao : list Z;
  e_vpl : F;
  e_historico : list F
}.

(** The body of [for g in range(self.num_geracoes)]. The children are
    bred from [pop], which the loop never reassigns. *)
Definition geracao (slv : CPITSolverCompleto F) (pop : list (list Z))
    (st : elite * G) : result (elite * G) :=
  let '(el, g) := st in
  '(nova_pop, g') ← nova_populacao (Z.to_nat (pop_size slv)) slv pop g;
  fitness ← avaliar nova_pop;
  melhor_gen ← py_max fitness;
  el1 ← (if n_maior melhor_gen (e_vpl el) then
           i ← argmax fitness;
           s ← posicao nova_pop i;
           Ok {| e_solucao := s; e_vpl := melhor_gen;
                 e_historico := e_historico el |}
         else Ok el);
  Ok ({| e_solucao := e_solucao el1; e_vpl := e_vpl el1;
         e_historico := e_historico el1 ++ [e_vpl el1] |}, g').

Fixpoint geracoes (n : nat) (slv : CPITSolverCompleto F) (pop : list (list Z))
    (st : elite * G) : result (elite * G) :=
  match n with
  | O => Ok st
  | S n' => st' ← geracao slv pop st; geracoes n' slv pop st'
  end.

(** The population [executar] starts from and the elite before the first
    generation. *)
Definition executar_inicio (slv : CPITSolverCompleto F) (g : G)
    : result (list (list Z) * elite * G) :=
  '(pop, g0) ← gerar_populacao_inicial slv g;
  fitness ← avaliar pop;
  i ← argmax fitness;
  s ← posicao pop i;
  m ← py_max fitness;
  Ok (pop, {| e_solucao := s; e_vpl := m; e_historico := historico slv |}, g0).

(** [executar] leaves the elite and the log in the solver and returns
    [(self.melhor_solucao, self.melhor_vpl)]. *)
Definition executar (slv : CPITSolverCompleto F) (g : G)
    : result (CPITSolverCompleto F * G) :=
  '(pop, el0, g0) ← executar_inicio slv g;
  '(el, g') ← geracoes (Z.to_nat (num_geracoes slv)) slv pop (el0, g0);
  Ok ({| pop_size := pop_size slv; num_geracoes := num_geracoes slv;
         taxa_mutacao := taxa_mutacao slv;
         melhor_solucao := Some (e_solucao el);
         melhor_vpl := Some (e_vpl el);
         historico := e_historico el |}, g').

(** A full run: construction, then [executar]. *)
Definition corrida (pop num : Z) (taxa : F) (seed : Z) (g : G)
    : result (CPITSolverCompleto F * G) :=
  let '(slv, g0) := CPITSolverCompleto_init pop num taxa seed g in
  executar slv g0.

(** *** The topological baseline *)

Record topo : Type := {
  ordem : list Z;
  t_visitados : gset Z;
  preds_restantes : gmap Z (gset Z)
}.

(** [{b: set(self.inst.preds_dict[b]) for b in self.inst.ids}] *)
Definition restantes_iniciais : result (gmap Z (gset Z)) :=
  para (λ d b, preds ← item (preds_dict inst) b;
               Ok (<[b := list_to_set preds]> d)) ∅ (ids inst).

(** [[b for b, preds in preds_restantes.items()
      if not preds and b not in visitados]], in the order of the keys. *)
Definition livres (st : topo) : list Z :=
  filter (λ b, preds_restantes st !! b = Some ∅ ∧ b ∉ t_visitados st)
         (chaves (ids inst)).

(** [preds_restantes[s].discard(b)] *)
Definition descartar (b : Z) (d : gmap Z (gset Z)) (s : Z)
    : result (gmap Z (gset Z)) :=
  ps ← item d s; Ok (<[s := ps ∖ {[b]}]> d).

(** [while len(ordem) < len(self.inst.ids)]: every turn that does not
    [break] appends one block, so [restam], the number of blocks still to
    place, counts the turns left. *)
Fixpoint toposort_laco (restam : nat) (st : topo) (g : G) : result (topo * G) :=
  match restam with
  | O => Ok (st, g)
  | S restam' =>
      match livres st with
      | [] => Ok (st, g)
      | _ =>
          '(b, g') ← choice (livres st) g;
          succs ← item (succs_dict inst) b;
          d ← para (descartar b) (preds_restantes st) succs;
          toposort_laco restam'
            {| ordem := ordem st ++ [b];
               t_visitados := {[b]} ∪ t_visitados st;
               preds_restantes := d |} g'
      end
  end.

(** The order found by the baseline, before it is evaluated. *)
Definition toposort_ordem (g : G) : result (list Z * G) :=
  d ← restantes_iniciais;
  '(st, g') ← toposort_laco (length (ids inst))
                 {| ordem := []; t_visitados := ∅; preds_restantes := d |} g;
  Ok (ordem st, g').

Definition baseline_toposort (g : G) : result (list Z * F * G) :=
  '(o, g') ← toposort_ordem g;
  v ← calcular_vpl inst taxa_padrao capacidade_padrao o;
  Ok (o, v, g').

End Genetico.


(** * Vocabulary of the properties *)

Section Vocabulario.
Context {F : Type}.
Variable inst : MineLibCPIT F.

(** A solution: every block id exactly once. *)
Definition permutacao_ids (s : list Z) : Prop :=
  NoDup s ∧ ∀ x, x ∈ s ↔ x ∈ ids inst.

(** [p] is a listed predecessor of [b]. *)
Definition precede (p b : Z) : Prop :=
  ∃ preds, preds_dict inst !! b = Some preds ∧ p ∈ preds.

(** The precedence graph has no cycle. *)
Definition aciclico : Prop := ∀ b, ¬ tc precede b b.

(** What the loader establishes: the dicts are keyed by the ids, every
    listed predecessor is an id, and [succs_dict] is the inverse of
    [preds_dict]. *)
Record bem_formada : Prop := {
  bf_preds : ∀ b, b ∈ ids inst ↔ is_Some (preds_dict inst !! b);
  bf_succs : ∀ b, b ∈ ids inst ↔ is_Some (succs_dict inst !! b);
  bf_tonn : ∀ b, b ∈ ids inst ↔ is_Some (tonn_dict inst !! b);
  bf_dest : ∀ b, b ∈ ids inst ↔ is_Some (dest_dict inst !! b);
  bf_val_ore : ∀ b, b ∈ ids inst ↔ is_Some (val_ore_dict inst !! b);
  bf_fechado : ∀ p b, precede p b → p ∈ ids inst;
  bf_inverso : ∀ p b succs,
    succs_dict inst !! p = Some succs → (b ∈ succs ↔ precede p b)
}.

(** The repair loop keeps [visitados] equal to the set of the blocks
    emitted, and emits no block twice. *)
Definition reparo_ok (st : reparo) : Prop :=
  NoDup st.1 ∧ st.2 = list_to_set st.1.

(** What the repair of [l] emits on top of the blocks already emitted:
    the blocks of [l] and their listed predecessors. *)
Definition emitido (l : list Z) (y : Z) : Prop :=
  y ∈ l ∨ ∃ b preds, b ∈ l ∧ preds_dict inst !! b = Some preds ∧ y ∈ preds.

End Vocabulario.

(** The state of the outer loop of [_calcular_sucessores] once the keys
    [feitos] are done. *)
Definition sucessores_ate (ids : list Z) (preds_dict : gmap Z (list Z))
    (feitos : list Z) (succs : gmap Z (list Z)) : Prop :=
  (∀ k, is_Some (succs !! k) ↔ k ∈ ids) ∧
  (∀ b preds p, b ∈ feitos → preds_dict !! b = Some preds → p ∈ preds → p ∈ ids) ∧
  (∀ k l, succs !! k = Some l →
     ∀ s, s ∈ l ↔ s ∈ feitos ∧ ∃ preds, preds_dict !! s = Some preds ∧ k ∈ preds).


(** * Worked instances, over the rationals *)

Definition todas_as_colunas : list string :=
  ["id"; "x"; "y"; "z"; "tonn"; "val_ore"; "dest"; "precedentes"].

(** A row of a table: id, tonnage, destination, value, predecessors. *)
Definition bloco (i : Z) (ton : Q) (dest : Z) (val : Q) (precs : string) : linha Q :=
  {| l_id := i; l_x := 0%Q; l_y := 0%Q; l_z := 0%Q; l_tonn := ton;
     l_dest := dest; l_val_ore := val; l_precedentes := CStr precs |}.

(** [{k0: v0, k1: v1, ...}] *)
Definition dict_de {V} (l : list (Z * V)) : gmap Z V := dict_zip l.*1 l.*2.

(** A chain of three ore blocks: 0 before 1 before 2. *)
Definition df_cadeia : DataFrame Q :=
  {| columns := todas_as_colunas;
     linhas := [bloco 0 1%Q 1 1%Q "[]"; bloco 1 1%Q 1 1%Q "[0]";
                bloco 2 1%Q 1 1%Q "[1]"] |}.

Definition inst_cadeia : MineLibCPIT Q :=
  {| ids := [0; 1; 2];
     tonn_dict := dict_de [(0, 1%Q); (1, 1%Q); (2, 1%Q)];
     dest_dict := dict_de [(0, 1); (1, 1); (2, 1)];
     val_ore_dict := dict_de [(0, 1%Q); (1, 1%Q); (2, 1%Q)];
     preds_dict := dict_de [(0, []); (1, [0]); (2, [1])];
     succs_dict := dict_de [(0, [1]); (1, [2]); (2, [])] |}.

(** A table without the optional columns [tonn], [val_ore] and [dest]. *)
Definition df_sem_opcionais : DataFrame Q :=
  {| columns := ["id"; "x"; "y"; "z"; "precedentes"];
     linhas := [bloco 0 0%Q 0 0%Q "[]"; bloco 1 0%Q 0 0%Q "[0]"] |}.

(** Two ore blocks of tonnage 10, without predecessors, of values [vA]
    and [vB]. *)
Definition df_AB (vA vB : Q) : DataFrame Q :=
  {| columns := todas_as_colunas;
     linhas := [bloco 0 10%Q 1 vA "[]"; bloco 1 10%Q 1 vB "[]"] |}.

Definition inst_AB (vA vB : Q) : MineLibCPIT Q :=
  {| ids := [0; 1];
     tonn_dict := dict_de [(0, 10%Q); (1, 10%Q)];
     dest_dict := dict_de [(0, 1); (1, 1)];
     val_ore_dict := dict_de [(0, vA); (1, vB)];
     preds_dict := dict_de [(0, []); (1, [])];
     succs_dict := dict_de [(0, []); (1, [])] |}.

(** The four blocks of the worked example: block 1 is waste (its
    destination is not 1), the others are ore. *)
Definition df_exemplo : DataFrame Q :=
  {| columns := todas_as_colunas;
     linhas := [bloco 0 10%Q 1 5%Q "[]"; bloco 1 10%Q 0 0%Q "[0]";
                bloco 2 10%Q 1 8%Q "[0]"; bloco 3 5%Q 1 2%Q "[1,2]"] |}.

Definition inst_exemplo : MineLibCPIT Q :=
  {| ids := [0; 1; 2; 3];
     tonn_dict := dict_de [(0, 10%Q); (1, 10%Q); (2, 10%Q); (3, 5%Q)];
     dest_dict := dict_de [(0, 1); (1, 0); (2, 1); (3, 1)];
     val_ore_dict := dict_de [(0, 5%Q); (1, 0%Q); (2, 8%Q); (3, 2%Q)];
     preds_dict := dict_de [(0, []); (1, [0]); (2, [0]); (3, [1; 2])];
     succs_dict := dict_de [(0, [1; 2]); (1, [3]); (2, [3]); (3, [])] |}.

(** A generator to run the worked instances with: a linear congruential
    sequence. *)
Definition proximo (g : Z) : Z := (g * 1103515245 + 12345) mod 2147483648.

#[export] Instance gerador_congruente : Aleatorio Z Q := {|
  semear := λ seed, Z.abs seed;
  sortear := λ g, (Z.to_nat ((g / 65536) mod 1024), proximo g);
  random_random := λ g, (((g / 65536) mod 1000 # 1000)%Q, proximo g)
|}.

(** The state of the baseline loop agrees with the model: the blocks
    placed are distinct ids, [visitados] is their set, the remaining
    predecessors of an id are its listed predecessors not yet placed, and
    the order so far passes the feasibility check. *)
Definition topo_ok {F} (inst : MineLibCPIT F) (st : topo) : Prop :=
  NoDup (ordem st) ∧
  t_visitados st = list_to_set (ordem st) ∧
  (∀ b, b ∈ ordem st → b ∈ ids inst) ∧
  (∀ b, b ∈ ids inst →
     ∃ preds, preds_dict inst !! b = Some preds ∧
              preds_restantes st !! b
              = Some (list_to_set preds ∖ list_to_set (ordem st))) ∧
  verificar_laco inst ∅ (ordem st) = Ok true.

(** The discount factor of every period exists and is not zero: the
    power does not overflow. *)
Definition desconto_regular {F} `{Numero F} (taxa : F) : Prop :=
  ∀ k, 0 ≤ k → ∃ fator, n_pot (n_add n_um taxa) k = Ok fator ∧
                        n_e_zero fator = false.

(** Three blocks, two of them in a cycle: 1 before 2 before 1. *)
Definition df_ciclo : DataFrame Q :=
  {| columns := todas_as_colunas;
     linhas := [bloco 0 1%Q 1 1%Q "[]"; bloco 1 1%Q 1 1%Q "[2]";
                bloco 2 1%Q 1 1%Q "[1]"] |}.

Definition inst_ciclo : MineLibCPIT Q :=
  {| ids := [0; 1; 2];
     tonn_dict := dict_de [(0, 1%Q); (1, 1%Q); (2, 1%Q)];
     dest_dict := dict_de [(0, 1); (1, 1); (2, 1)];
     val_ore_dict := dict_de [(0, 1%Q); (1, 1%Q); (2, 1%Q)];
     preds_dict := dict_de [(0, []); (1, [2]); (2, [1])];
     succs_dict := dict_de [(0, []); (1, [2]); (2, [1])] |}.

(** A fan: block 0 before blocks 1 and 2, which do not depend on each
    other. *)
Definition df_leque : DataFrame Q :=
  {| columns := todas_as_colunas;
     linhas := [bloco 0 1%Q 1 1%Q "[]"; bloco 1 1%Q 1 1%Q "[0]";
                bloco 2 1%Q 1 1%Q "[0]"] |}.

Definition inst_leque : MineLibCPIT Q :=
  {| ids := [0; 1; 2];
     tonn_dict := dict_de [(0, 1%Q); (1, 1%Q); (2, 1%Q)];
     dest_dict := dict_de [(0, 1); (1, 1); (2, 1)];
     val_ore_dict := dict_de [(0, 1%Q); (1, 1%Q); (2, 1%Q)];
     preds_dict := dict_de [(0, []); (1, [0]); (2, [0])];
     succs_dict := dict_de [(0, [1; 2]); (1, []); (2, [])] |}.

(** A table of one block. *)
Definition df_um : DataFrame Q :=
  {| columns := todas_as_colunas; linhas := [bloco 0 1%Q 1 1%Q "[]"] |}.

Definition inst_um : MineLibCPIT Q :=
  {| ids := [0];
     tonn_dict := dict_de [(0, 1%Q)];
     dest_dict := dict_de [(0, 1)];
     val_ore_dict := dict_de [(0, 1%Q)];
     preds_dict := dict_de [(0, [])];
     succs_dict := dict_de [(0, [])] |}.

(** A table whose two rows carry the same id: the loader keeps both in
    [ids] and one entry in each dictionary. *)
Definition df_repetido : DataFrame Q :=
  {| columns := todas_as_colunas;
     linhas := [bloco 0 1%Q 1 1%Q "[]"; bloco 0 1%Q 1 1%Q "[]"] |}.

Definition inst_repetido : MineLibCPIT Q :=
  {| ids := [0; 0];
     tonn_dict := dict_de [(0, 1%Q)];
     dest_dict := dict_de [(0, 1)];
     val_ore_dict := dict_de [(0, 1%Q)];
     preds_dict := dict_de [(0, [])];
     succs_dict := dict_de [(0, [])] |}.

(** The rationals with a not-a-number, [None]: it absorbs the
    operations, compares false with everything and is not zero. *)
Definition nan_op2 (f : Q → Q → Q) (x y : option Q) : option Q :=
  match x, y with Some a, Some b => Some (f a b) | _, _ => None end.

#[export] Instance Numero_Q_nan : Numero (option Q) := {|
  n_lit := λ q, Some q;
  n_opp := λ x, match x with Some a => Some (Qopp a) | None => None end;
  n_add := nan_op2 Qplus;
  n_mul := nan_op2 Qmult;
  n_quo := nan_op2 Qdiv;
  n_e_zero := λ x, match x with Some a => Qeq_bool a 0%Q | None => false end;
  n_pot := λ x k,
    Ok (match x with Some a => Some (Qpower a k) | None => None end);
  n_maior := λ x y,
    match x, y with
    | Some a, Some b => negb (Qle_bool a b)
    | _, _ => false
    end;
  n_e_nan := λ x, match x with Some _ => false | None => true end
|}.

(** A log of readings in which each reading is the one before it or is
    greater than it. *)
Definition nao_decrescente {F} `{Numero F} (l : list F) : Prop :=
  ∀ i x y, l !! i = Some x → l !! S i = Some y → y = x ∨ n_maior y x = true.

(** The elite value is the value of the elite solution. *)
Definition elite_coerente_em {F} `{Numero F} (inst : MineLibCPIT F) (el : elite)
    : Prop :=
  calcular_vpl inst taxa_padrao capacidade_padrao (e_solucao el) = Ok (e_vpl el).

(** * The precedence columns of [merge_precedences.py]

    The branch of [make_preced_list] that collapses the columns
    [prec1 .. precN] of a row into the text of a list, and the
    expression that writes the list. *)

(** [str(iv)] for an integer: its decimal digits, most significant
    first, after a minus sign when it is negative. [digitos_aux] peels
    the digits of [n] off from the right; [comb] bounds their number. *)
Definition digito_char (d : Z) : ascii := ascii_of_nat (Z.to_nat (48 + d)).

Fixpoint digitos_aux (comb : nat) (n : Z) (acc : list Z) : list Z :=
  match comb with
  | O => acc
  | S comb' =>
      if n <? 10 then n :: acc
      else digitos_aux comb' (n / 10) (n mod 10 :: acc)
  end.

Definition digitos (n : Z) : list Z :=
  digitos_aux (S (Z.to_nat (Z.log2 n))) n [].

Definition str_int (z : Z) : list ascii :=
  if z <? 0 then "-"%char :: (digito_char <$> digitos (- z))
  else digito_char <$> digitos z.

(** [",".join(partes)] *)
Fixpoint juntar (partes : list (list ascii)) : list ascii :=
  match partes with
  | [] => []
  | [p] => p
  | p :: resto => p ++ ","%char :: juntar resto
  end.

(** ["[" + ",".join(map(str, vals)) + "]"] *)
Definition formatar_lista (vals : list Z) : string :=
  string_of_list_ascii ("["%char :: juntar (str_int <$> vals) ++ ["]"%char]).

(** A cell of a [prec] column: missing, a finite number, an infinite
    one, or text. *)
Inductive valor_prec : Type :=
  | PNaN
  | PNum (q : Q)
  | PInf
  | PTexto (s : string).

Section Merge.
(** [int] on text is left open: it gives an integer or raises. *)
Variable int_de_texto : string → option Z.

(** [int(v)] inside [try ... except Exception: continue]: [None] stands
    for the exception. A number is truncated towards zero. *)
Definition py_int (v : valor_prec) : option Z :=
  match v with
  | PNaN => None
  | PNum q => Some (Z.quot (Qnum q) (Z.pos (Qden q)))
  | PInf => None
  | PTexto s => int_de_texto s
  end.

(** The body of [for c in prec_cols], on the cell [v = row.get(c, None)]. *)
Definition recolher (vals : list Z) (v : valor_prec) : list Z :=
  match v with
  | PNaN => vals
  | _ =>
      match py_int v with
      | None => vals
      | Some iv => if iv =? -1 then vals else vals ++ [iv]
      end
  end.

Definition valores_prec (celulas : list valor_prec) : list Z :=
  foldl recolher [] celulas.

(** [return "[" + ",".join(map(str, vals)) + "]" if vals else "[]"] *)
Definition ramo_prec_cols (celulas : list valor_prec) : string :=
  match valores_prec celulas with
  | [] => "[]"%string
  | vals => formatar_lista vals
  end.

End Merge.
(** * Properties *)

(** ** The error monad and the loops *)

Lemma bind_Ok {A B} (m : result A) (f : A → result B) (b : B) :
  m ≫= f = Ok b ↔ ∃ a, m = Ok a ∧ f a = Ok b.
Proof.
  destruct m as [a|e]; simpl; split.
  - intros Hf. by exists a.
  - by intros (a' & [= <-] & Hf).
  - discriminate.
  - by intros (a' & [=] & _).
Qed.

Lemma fmap_Ok {A B} (m : result A) (f : A → B) (b : B) :
  f <$> m = Ok b ↔ ∃ a, m = Ok a ∧ f a = b.
Proof.
  destruct m as [a|e]; simpl; split.
  - intros [= <-]. by exists a.
  - by intros (a' & [= <-] & <-).
  - discriminate.
  - by intros (a' & [=] & _).
Qed.

Lemma item_Ok {V} (d : gmap Z V) (k : Z) (v : V) : item d k = Ok v ↔ d !! k = Some v.
Proof. unfold item. destruct (d !! k); naive_solver. Qed.

Lemma para_app {A S} (corpo : S → A → result S) (s : S) (l k : list A) :
  para corpo s (l ++ k) = s' ← para corpo s l; para corpo s' k.
Proof.
  revert s. induction l as [|x l IH]; intros s; simpl; [done|].
  destruct (corpo s x) as [s1|e]; simpl; [apply IH|done].
Qed.

Lemma para_snoc {A S} (corpo : S → A → result S) (s : S) (l : list A) (x : A) :
  para corpo s (l ++ [x]) = s' ← para corpo s l; corpo s' x.
Proof.
  rewrite para_app. destruct (para corpo s l) as [s'|e]; simpl; [|done].
  by destruct (corpo s' x).
Qed.

(** An invariant of the loop body is an invariant of the loop. *)
Lemma para_inv {A S} (corpo : S → A → result S) (I : S → Prop) (l : list A) :
  (∀ s x s', x ∈ l → I s → corpo s x = Ok s' → I s') →
  ∀ s s', I s → para corpo s l = Ok s' → I s'.
Proof.
  induction l as [|x l IH]; intros Hc s s' Hs; simpl.
  - by intros [= <-].
  - intros (s1 & H1 & H2)%bind_Ok.
    eapply IH; [|eapply Hc; [|done..]|done]; [|by left].
    intros ????. apply Hc. by right.
Qed.

(** A body that succeeds under the invariant makes the loop succeed. *)
Lemma para_total {A S} (corpo : S → A → result S) (I : S → Prop) (l : list A) :
  (∀ s x, x ∈ l → I s → ∃ s', corpo s x = Ok s' ∧ I s') →
  ∀ s, I s → ∃ s', para corpo s l = Ok s' ∧ I s'.
Proof.
  induction l as [|x l IH]; intros Hc s Hs; simpl.
  - by exists s.
  - destruct (Hc s x) as (s1 & -> & Hs1); [by left|done|]. simpl.
    apply IH; [|done]. intros ????. apply Hc; [by right|done].
Qed.

(** ** Keys of a dict *)

Lemma elem_of_chaves_aux (vistos : gset Z) (l : list Z) (x : Z) :
  x ∈ chaves_aux vistos l ↔ x ∈ l ∧ x ∉ vistos.
Proof.
  revert vistos. induction l as [|k l IH]; intros vistos; simpl.
  - set_solver.
  - case_bool_decide.
    + rewrite IH, elem_of_cons. naive_solver.
    + rewrite !elem_of_cons, IH, not_elem_of_union, not_elem_of_singleton.
      destruct (decide (x = k)); naive_solver.
Qed.

Lemma NoDup_chaves_aux (vistos : gset Z) (l : list Z) : NoDup (chaves_aux vistos l).
Proof.
  revert vistos. induction l as [|k l IH]; intros vistos; simpl.
  - constructor.
  - case_bool_decide; [done|]. constructor; [|done].
    rewrite elem_of_chaves_aux. set_solver.
Qed.

Lemma elem_of_chaves (l : list Z) (x : Z) : x ∈ chaves l ↔ x ∈ l.
Proof. unfold chaves. rewrite elem_of_chaves_aux. set_solver. Qed.

Lemma NoDup_chaves (l : list Z) : NoDup (chaves l).
Proof. apply NoDup_chaves_aux. Qed.

Lemma length_chaves_aux (vistos : gset Z) (l : list Z) :
  (length (chaves_aux vistos l) ≤ length l)%nat.
Proof.
  revert vistos. induction l as [|k l IH]; intros vistos; simpl; [lia|].
  case_bool_decide; simpl;
    [specialize (IH vistos)|specialize (IH ({[k]} ∪ vistos))]; lia.
Qed.

(** ** Feasibility check *)

Lemma falta_pred_false (vis : gset Z) (preds : list Z) :
  falta_pred vis preds = false ↔ ∀ p, p ∈ preds → p ∈ vis.
Proof.
  unfold falta_pred. induction preds as [|q preds IH]; simpl.
  - split; [|done]. intros _ p Hp. by apply elem_of_nil in Hp.
  - rewrite orb_false_iff, IH, negb_false_iff, bool_decide_eq_true.
    setoid_rewrite elem_of_cons. naive_solver.
Qed.

Lemma todos_visitados_true (vis : gset Z) (preds : list Z) :
  todos_visitados vis preds = true ↔ ∀ p, p ∈ preds → p ∈ vis.
Proof.
  unfold todos_visitados. induction preds as [|q preds IH]; simpl.
  - split; [|done]. intros _ p Hp. by apply elem_of_nil in Hp.
  - rewrite andb_true_iff, IH, bool_decide_eq_true.
    setoid_rewrite elem_of_cons. naive_solver.
Qed.

(** ** Repair *)

Section Reparo.
Context {F : Type} (inst : MineLibCPIT F).

Lemma reparo_ok_inicial : reparo_ok ([], ∅).
Proof. split; [constructor|done]. Qed.

Lemma emitir_ok (st : reparo) (x : Z) : reparo_ok st → reparo_ok (emitir st x).
Proof.
  intros [Hnd Hvis]. unfold emitir. case_bool_decide as Hx; [done|].
  split; simpl.
  - apply NoDup_app. split_and!; [done| |apply NoDup_singleton].
    intros y Hy ->%list_elem_of_singleton. apply Hx. rewrite Hvis.
    by apply elem_of_list_to_set.
  - rewrite Hvis, list_to_set_app_L. simpl. set_solver.
Qed.

Lemma elem_of_emitir (st : reparo) (x y : Z) :
  reparo_ok st → y ∈ (emitir st x).1 ↔ y ∈ st.1 ∨ y = x.
Proof.
  intros [Hnd Hvis]. unfold emitir. case_bool_decide as Hx; simpl.
  - rewrite Hvis, elem_of_list_to_set in Hx. naive_solver.
  - rewrite elem_of_app, list_elem_of_singleton. naive_solver.
Qed.

Lemma foldl_emitir_ok (l : list Z) (st : reparo) :
  reparo_ok st → reparo_ok (foldl emitir st l).
Proof.
  revert st. induction l as [|p l IH]; intros st Hst; simpl; [done|].
  by apply IH, emitir_ok.
Qed.

Lemma elem_of_foldl_emitir (l : list Z) (st : reparo) (y : Z) :
  reparo_ok st → y ∈ (foldl emitir st l).1 ↔ y ∈ st.1 ∨ y ∈ l.
Proof.
  revert st. induction l as [|p l IH]; intros st Hst; simpl.
  - rewrite elem_of_nil. naive_solver.
  - rewrite IH by by apply emitir_ok.
    rewrite elem_of_emitir by done. rewrite elem_of_cons. naive_solver.
Qed.

(** Predecessors that are all visited inject nothing. *)
Lemma foldl_emitir_visitados (l : list Z) (st : reparo) :
  (∀ p, p ∈ l → p ∈ st.2) → foldl emitir st l = st.
Proof.
  induction l as [|p l IH]; intros Hl; simpl; [done|].
  unfold emitir at 2. rewrite bool_decide_eq_true_2 by (apply Hl; by left).
  apply IH. intros q Hq. apply Hl. by right.
Qed.

Lemma reparar_passo_eq (st : reparo) (b : Z) (preds : list Z) :
  preds_dict inst !! b = Some preds →
  reparar_passo inst st b = Ok (emitir (foldl emitir st preds) b).
Proof. intros Hb%item_Ok. unfold reparar_passo. by rewrite Hb. Qed.

Lemma reparar_passo_ok (st st' : reparo) (b : Z) :
  reparo_ok st → reparar_passo inst st b = Ok st' → reparo_ok st'.
Proof.
  intros Hst (preds & _ & [= <-])%bind_Ok. by apply emitir_ok, foldl_emitir_ok.
Qed.

Lemma para_reparar (l : list Z) (st : reparo) :
  reparo_ok st →
  (∀ b, b ∈ l → is_Some (preds_dict inst !! b)) →
  ∃ st', para (reparar_passo inst) st l = Ok st' ∧ reparo_ok st' ∧
         ∀ y, y ∈ st'.1 ↔ y ∈ st.1 ∨ emitido inst l y.
Proof.
  revert st. induction l as [|b l IH]; intros st Hst Hl; simpl.
  - exists st. split_and!; [done..|]. intros y. unfold emitido.
    setoid_rewrite elem_of_nil. naive_solver.
  - destruct (Hl b) as [preds Hb]; [by left|].
    rewrite (reparar_passo_eq _ _ _ Hb). simpl.
    set (st1 := emitir (foldl emitir st preds) b).
    assert (reparo_ok st1) as Hst1 by by apply emitir_ok, foldl_emitir_ok.
    destruct (IH st1) as (st' & -> & Hst' & Hel); [done| |].
    { intros b' Hb'. apply Hl. by right. }
    exists st'. split_and!; [done..|]. intros y. rewrite Hel. unfold st1.
    rewrite elem_of_emitir by by apply foldl_emitir_ok.
    rewrite elem_of_foldl_emitir by done. unfold emitido.
    setoid_rewrite elem_of_cons. split.
    + intros [[[Hy|Hy]| ->]|[Hy|(b' & ps & Hb' & Hps & Hy)]]; eauto 10.
    + intros [Hy|[[->|Hy]|(b' & ps & [->|Hb'] & Hps & Hy)]]; eauto 10.
      left. left. right. congruence.
Qed.

Lemma reparar_solucao_NoDup (s r : list Z) :
  reparar_solucao inst s = Ok r → NoDup r.
Proof.
  intros (st & Hst & <-)%fmap_Ok.
  eapply (para_inv _ reparo_ok) in Hst; [apply Hst| |apply reparo_ok_inicial].
  intros ?????. by apply reparar_passo_ok.
Qed.

(** A feasible sequence without repetition goes through the repair loop
    unchanged. *)
Lemma para_reparar_factivel (l acc : list Z) :
  NoDup (acc ++ l) →
  verificar_laco inst (list_to_set acc) l = Ok true →
  para (reparar_passo inst) (acc, list_to_set acc) l
  = Ok (acc ++ l, list_to_set (acc ++ l)).
Proof.
  revert acc. induction l as [|b l IH]; intros acc Hnd; simpl.
  - by rewrite app_nil_r.
  - intros (preds & Hb & Hv)%bind_Ok.
    rewrite (reparar_passo_eq _ _ preds) by by apply item_Ok. simpl.
    destruct (falta_pred (list_to_set acc) preds) eqn:Hfalta; [done|].
    rewrite foldl_emitir_visitados; last first.
    { intros p Hp. simpl. by apply (proj1 (falta_pred_false _ _) Hfalta). }
    unfold emitir. simpl. rewrite bool_decide_eq_false_2; last first.
    { rewrite elem_of_list_to_set. apply NoDup_app in Hnd as (_ & Hd & _).
      intros Hin. apply (Hd b Hin). by left. }
    replace ({[b]} ∪ list_to_set acc : gset Z) with (list_to_set (C:=gset Z) (acc ++ [b]))
      in * by (rewrite list_to_set_app_L; simpl; set_solver).
    rewrite (IH (acc ++ [b])); [by rewrite <-app_assoc|by rewrite <-app_assoc|done].
Qed.

Lemma reparar_solucao_factivel (s : list Z) :
  NoDup s → verificar_factibilidade inst s = Ok true → reparar_solucao inst s = Ok s.
Proof.
  intros Hnd Hv. unfold reparar_solucao.
  change (∅ : gset Z) with (list_to_set (C:=gset Z) []).
  rewrite (para_reparar_factivel s []); [done|done|]. exact Hv.
Qed.

End Reparo.

(** ** Loading *)

Lemma dict_insere_is_Some {V} (l : list (Z * V)) (d : gmap Z V) (k : Z) :
  is_Some (foldl (λ d kv, <[kv.1 := kv.2]> d) d l !! k)
  ↔ is_Some (d !! k) ∨ k ∈ l.*1.
Proof.
  revert d. induction l as [|[k' v] l IH]; intros d; simpl.
  - rewrite elem_of_nil. naive_solver.
  - rewrite IH, elem_of_cons. destruct (decide (k' = k)) as [->|Hne].
    + rewrite lookup_insert_eq. naive_solver.
    + rewrite lookup_insert_ne by done. naive_solver.
Qed.

Lemma dict_zip_is_Some {V} (ks : list Z) (vs : list V) (k : Z) :
  length ks = length vs → is_Some (dict_zip ks vs !! k) ↔ k ∈ ks.
Proof.
  intros Hlen. unfold dict_zip. rewrite dict_insere_is_Some, lookup_empty.
  rewrite fst_zip by lia. split; [intros [[? [=]]|]|]; auto.
Qed.

Section Carga_props.
Context {F : Type} `{Numero F}.

Lemma ler_precedentes_is_Some (df : DataFrame F) (rows : list (linha F))
    (d d' : gmap Z (list Z)) (k : Z) :
  para (λ d row,
          if bool_decide ("id" ∈ columns df ∧ "precedentes" ∈ columns df) then
            preds ← valor_precedentes (l_precedentes row);
            Ok (<[l_id row := preds]> d)
          else Raise AttributeError) d rows = Ok d' →
  is_Some (d' !! k) ↔ is_Some (d !! k) ∨ k ∈ l_id <$> rows.
Proof.
  revert d. induction rows as [|row rows IH]; intros d; simpl.
  - intros [= <-]. rewrite elem_of_nil. naive_solver.
  - intros (d1 & Hd1 & Hrest)%bind_Ok. rewrite (IH _ Hrest), elem_of_cons.
    case_bool_decide; [|done].
    apply bind_Ok in Hd1 as (preds & _ & [= <-]).
    destruct (decide (l_id row = k)) as [->|Hne].
    + rewrite lookup_insert_eq. naive_solver.
    + rewrite lookup_insert_ne by done. naive_solver.
Qed.

Lemma sucessores_vazios (l : list Z) (d : gmap Z (list Z)) (k : Z) :
  foldl (λ d b, <[b := []]> d) d l !! k
  = if bool_decide (k ∈ l) then Some [] else d !! k.
Proof.
  revert d. induction l as [|b l IH]; intros d; simpl; [done|].
  rewrite IH. destruct (decide (k = b)) as [->|Hne].
  - rewrite lookup_insert_eq, (bool_decide_eq_true_2 (b ∈ b :: l)) by by left.
    by case_bool_decide.
  - rewrite lookup_insert_ne by done. apply (f_equal (λ c : bool, if c then _ else _)).
    apply bool_decide_ext. rewrite elem_of_cons. naive_solver.
Qed.

Lemma anexar_sucessores (b : Z) (preds : list Z) (succs succs' : gmap Z (list Z)) :
  para (anexar_sucessor b) succs preds = Ok succs' →
  (∀ p, p ∈ preds → is_Some (succs !! p)) ∧
  (∀ k, is_Some (succs' !! k) ↔ is_Some (succs !! k)) ∧
  (∀ k l', succs' !! k = Some l' →
     ∃ l, succs !! k = Some l ∧ ∀ s, s ∈ l' ↔ s ∈ l ∨ (s = b ∧ k ∈ preds)).
Proof.
  revert succs. induction preds as [|p preds IH]; intros succs; simpl.
  - intros [= <-]. split_and!; [by intros p ?%elem_of_nil|done|].
    intros k l' Hk. exists l'. split; [done|]. intros s.
    rewrite elem_of_nil. naive_solver.
  - intros (s1 & (l & Hl%item_Ok & [= <-])%bind_Ok & Hrest)%bind_Ok.
    destruct (IH _ Hrest) as (Hdom & Hsome & Hel). split_and!.
    + intros q [->|Hq]%elem_of_cons; [by eexists|].
      specialize (Hdom q Hq). destruct (decide (p = q)) as [->|Hne]; [by eexists|].
      by rewrite lookup_insert_ne in Hdom.
    + intros k. rewrite Hsome. destruct (decide (p = k)) as [->|Hne].
      * rewrite lookup_insert_eq, Hl. split; by eexists.
      * by rewrite lookup_insert_ne.
    + intros k l' Hk. destruct (Hel k l' Hk) as (l1 & Hl1 & Hiff).
      destruct (decide (p = k)) as [->|Hne].
      * rewrite lookup_insert_eq in Hl1. injection Hl1 as <-.
        exists l. split; [done|]. intros s.
        rewrite Hiff, elem_of_app, list_elem_of_singleton, elem_of_cons.
        naive_solver.
      * rewrite lookup_insert_ne in Hl1 by done. exists l1. split; [done|].
        intros s. rewrite Hiff, elem_of_cons. naive_solver.
Qed.

Lemma calcular_sucessores_laco (ids : list Z) (preds_dict : gmap Z (list Z))
    (keys feitos : list Z) (succs succs' : gmap Z (list Z)) :
  sucessores_ate ids preds_dict feitos succs →
  para (λ succs b, preds ← item preds_dict b; para (anexar_sucessor b) succs preds)
       succs keys = Ok succs' →
  sucessores_ate ids preds_dict (feitos ++ keys) succs'.
Proof.
  revert feitos succs. induction keys as [|b keys IH]; intros feitos succs HJ; simpl.
  - intros [= <-]. by rewrite app_nil_r.
  - intros (s1 & (preds & Hb%item_Ok & Hin)%bind_Ok & Hrest)%bind_Ok.
    replace (feitos ++ b :: keys) with ((feitos ++ [b]) ++ keys)
      by by rewrite <-app_assoc.
    apply (IH _ s1); [|done]. clear IH Hrest.
    destruct HJ as (Hdom & Hcl & Hinv).
    destruct (anexar_sucessores _ _ _ _ Hin) as (Hp & Hsome & Hel).
    split_and!.
    + intros k. by rewrite Hsome.
    + intros b' preds' p [Hb'|Hb']%elem_of_app Hpreds' Hp'; [by eapply Hcl|].
      apply list_elem_of_singleton in Hb' as ->. apply Hdom, Hp. congruence.
    + intros k l' Hk s. destruct (Hel k l' Hk) as (l & Hl & Hiff).
      rewrite Hiff, (Hinv k l Hl), elem_of_app, list_elem_of_singleton. split.
      * intros [[? ?]|[-> ?]]; [split; [by left|done]|]. split; [by right|eauto].
      * intros [[?| ->] (preds' & ? & ?)]; [left; eauto|]. right. split; [done|].
        congruence.
Qed.

Lemma calcular_sucessores_spec (ids : list Z) (preds_dict succs : gmap Z (list Z)) :
  _calcular_sucessores ids preds_dict = Ok succs →
  sucessores_ate ids preds_dict (chaves ids) succs.
Proof.
  intros Hs. unfold _calcular_sucessores in Hs.
  apply (calcular_sucessores_laco ids preds_dict _ [] _ _) in Hs; [done|].
  split_and!.
  - intros k. rewrite sucessores_vazios, lookup_empty.
    case_bool_decide; (split; [|done]); [done|]. by intros [? [=]].
  - by intros b preds p ?%elem_of_nil.
  - intros k l. rewrite sucessores_vazios, lookup_empty.
    case_bool_decide; [|done]. intros [= <-] s. rewrite !elem_of_nil. naive_solver.
Qed.

Lemma coluna_Ok {A} (df : DataFrame F) (nome : string) (campo : linha F → A)
    (c : list A) :
  coluna df nome campo = Ok c → nome ∈ columns df ∧ c = campo <$> linhas df.
Proof. unfold coluna. case_bool_decide; naive_solver. Qed.

(** Whatever the loader returns is well formed. *)
Lemma carregada_bem_formada (inst : MineLibCPIT F) :
  carregada inst → bem_formada inst.
Proof.
  intros (df & df' & (_ & _ & Hprep)%bind_Ok). unfold _preparar_dados in Hprep.
  apply bind_Ok in Hprep as (c_ids & [_ ->]%coluna_Ok & Hprep).
  apply bind_Ok in Hprep as (c_tonn & [_ ->]%coluna_Ok & Hprep).
  apply bind_Ok in Hprep as (c_dest & [_ ->]%coluna_Ok & Hprep).
  apply bind_Ok in Hprep as (c_val & [_ ->]%coluna_Ok & Hprep).
  apply bind_Ok in Hprep as (preds & Hpreds & Hprep).
  apply bind_Ok in Hprep as (succs & Hsuccs & [= <- _]).
  apply calcular_sucessores_spec in Hsuccs as (Hdom & Hcl & Hinv).
  assert (∀ b, b ∈ l_id <$> linhas df ↔ is_Some (preds !! b)) as Hpd.
  { intros b. rewrite (ler_precedentes_is_Some _ _ _ _ b Hpreds), lookup_empty.
    split; [auto|]. by intros [[? [=]]|]. }
  split; simpl.
  - done.
  - intros b. by rewrite Hdom.
  - intros b. by rewrite dict_zip_is_Some by by rewrite !length_fmap.
  - intros b. by rewrite dict_zip_is_Some by by rewrite !length_fmap.
  - intros b. by rewrite dict_zip_is_Some by by rewrite !length_fmap.
  - intros p b (ps & Hb & Hp). eapply Hcl; [|done..].
    apply elem_of_chaves, Hpd. by eexists.
  - intros p b l Hl. rewrite (Hinv _ _ Hl). unfold precede. simpl.
    rewrite elem_of_chaves. split; [naive_solver|].
    intros (ps & Hb & Hp). split; [|eauto]. apply Hpd. by eexists.
Qed.

End Carga_props.

(** ** The worked instances are loaded ones *)

Lemma inst_cadeia_carregada : carregada inst_cadeia.
Proof. exists df_cadeia, df_cadeia. vm_compute. reflexivity. Qed.

Lemma inst_exemplo_carregada : carregada inst_exemplo.
Proof. exists df_exemplo, df_exemplo. vm_compute. reflexivity. Qed.

Lemma inst_AB_carregada (vA vB : Q) : carregada (inst_AB vA vB).
Proof. exists (df_AB vA vB), (df_AB vA vB). vm_compute. reflexivity. Qed.

(** ** Solutions *)

Lemma permutacao_ids_Permutation {F} (inst : MineLibCPIT F) (s : list Z) :
  NoDup (ids inst) → s ≡ₚ ids inst → permutacao_ids inst s.
Proof.
  intros Hnd Hp. split; [by rewrite Hp|]. intros x. by rewrite Hp.
Qed.

Lemma Permutation_permutacao_ids {F} (inst : MineLibCPIT F) (s r : list Z) :
  permutacao_ids inst s → permutacao_ids inst r → r ≡ₚ s.
Proof.
  intros [Hs Hes] [Hr Her]. apply NoDup_Permutation; [done..|].
  intros x. by rewrite Hes, Her.
Qed.

(** ** Repair: the claims *)

(** C1, as stated, fails: on the chain 0 -> 1 -> 2 the repair of
    [2; 1; 0] is [1; 2; 0], and the repair of that is [0; 1; 2]. *)
Lemma reparar_nao_idempotente :
  carregada inst_cadeia ∧ permutacao_ids inst_cadeia [2; 1; 0] ∧
  reparar_solucao inst_cadeia [2; 1; 0] = Ok [1; 2; 0] ∧
  reparar_solucao inst_cadeia [1; 2; 0] = Ok [0; 1; 2] ∧
  ¬ (∀ s r, permutacao_ids inst_cadeia s →
            reparar_solucao inst_cadeia s = Ok r →
            reparar_solucao inst_cadeia r = Ok r).
Proof.
  assert (permutacao_ids inst_cadeia [2; 1; 0]) as Hperm.
  { apply permutacao_ids_Permutation; by apply (bool_decide_unpack _). }
  split_and!; [apply inst_cadeia_carregada|done|by vm_compute..|].
  intros Hidem. specialize (Hidem [2; 1; 0] [1; 2; 0] Hperm eq_refl).
  by vm_compute in Hidem.
Qed.

(** C1, amended: the repair is idempotent on every sequence whose repair
    passes the feasibility check. *)
Theorem reparar_idempotente_se_factivel {F} (inst : MineLibCPIT F) (s r : list Z) :
  reparar_solucao inst s = Ok r →
  verificar_factibilidade inst r = Ok true →
  reparar_solucao inst r = Ok r.
Proof.
  intros Hr Hv. apply reparar_solucao_factivel; [|done].
  by eapply reparar_solucao_NoDup.
Qed.

Lemma reparar_idempotente_se_factivel_witness :
  reparar_solucao inst_cadeia [0; 1; 2] = Ok [0; 1; 2].
Proof.
  apply (reparar_idempotente_se_factivel inst_cadeia [1; 0; 2] [0; 1; 2]).
  - vm_compute. reflexivity.
  - vm_compute. reflexivity.
Defined.

(** C2: on a loaded model, the repair of a permutation of the id set
    returns, and what it returns is a permutation of the same id set. *)
Theorem reparar_preserva_ids {F} `{Numero F} (inst : MineLibCPIT F) (s : list Z) :
  carregada inst →
  permutacao_ids inst s →
  ∃ r, reparar_solucao inst s = Ok r ∧ permutacao_ids inst r ∧ r ≡ₚ s.
Proof.
  intros Hbf%carregada_bem_formada Hs.
  destruct (para_reparar inst s ([], ∅)) as (st & Hst & [Hnd _] & Hel).
  { apply reparo_ok_inicial. }
  { intros b Hb. apply Hbf, Hs, Hb. }
  assert (permutacao_ids inst st.1) as Hr.
  { split; [done|]. intros x. rewrite Hel. simpl. rewrite elem_of_nil.
    destruct Hs as [_ Hs]. split.
    - intros [[]|[Hx|(b & preds & Hb & Hpreds & Hx)]]; [by apply Hs|].
      eapply bf_fechado; [done|]. by exists preds.
    - intros Hx. right. left. by apply Hs. }
  exists st.1. split_and!; [|done|by eapply Permutation_permutacao_ids].
  unfold reparar_solucao. by rewrite Hst.
Qed.

Lemma reparar_preserva_ids_witness :
  ∃ r, reparar_solucao inst_cadeia [2; 1; 0] = Ok r ∧
       permutacao_ids inst_cadeia r ∧ r ≡ₚ [2; 1; 0].
Proof.
  apply (reparar_preserva_ids inst_cadeia [2; 1; 0]).
  - exists df_cadeia, df_cadeia. vm_compute. reflexivity.
  - apply permutacao_ids_Permutation; apply (bool_decide_unpack _);
      vm_compute; reflexivity.
Defined.

(** ** Loading: the claim *)

(** C3 fails on the code: a table that has the basic columns and lacks
    the optional ones passes the validation, and then [_preparar_dados]
    raises [KeyError] on [self.df["tonn"]], before the fallback
    assignments are reached. *)
Lemma carga_exige_opcionais {F} `{Numero F} (df df' : DataFrame F)
    (inst : MineLibCPIT F) :
  MineLibCPIT_init df = Ok (inst, df') →
  "tonn" ∈ columns df ∧ "dest" ∈ columns df ∧ "val_ore" ∈ columns df.
Proof.
  intros (_ & _ & Hprep)%bind_Ok. unfold _preparar_dados in Hprep.
  apply bind_Ok in Hprep as (c_ids & _ & Hprep).
  apply bind_Ok in Hprep as (c_tonn & [? _]%coluna_Ok & Hprep).
  apply bind_Ok in Hprep as (c_dest & [? _]%coluna_Ok & Hprep).
  by apply bind_Ok in Hprep as (c_val & [? _]%coluna_Ok & Hprep).
Qed.

Theorem carga_sem_opcionais_falha :
  _validar_colunas df_sem_opcionais = Ok () ∧
  MineLibCPIT_init df_sem_opcionais = Raise KeyError.
Proof. split; vm_compute; reflexivity. Qed.

(** ** Economic evaluation *)

Section Avaliacao.
Context {F : Type} `{Numero F}.
Variable inst : MineLibCPIT F.
Variables taxa capacidade : F.

Lemma vpl_estado_snoc (pre : list Z) (b : Z) :
  vpl_estado inst taxa capacidade (pre ++ [b])
  = st ← vpl_estado inst taxa capacidade pre; vpl_passo inst taxa capacidade st b.
Proof. apply para_snoc. Qed.

(** A block with a predecessor that is not counted leaves the state as
    it is. *)
Lemma vpl_passo_pula (st : avaliacao) (b : Z) (preds : list Z) :
  preds_dict inst !! b = Some preds →
  (∃ p, p ∈ preds ∧ p ∉ visitados st) →
  vpl_passo inst taxa capacidade st b = Ok st.
Proof.
  intros Hb%item_Ok (p & Hp & Hvis). unfold vpl_passo. rewrite Hb. simpl.
  destruct (todos_visitados (visitados st) preds) eqn:Htodos; [|done].
  destruct Hvis. by apply (proj1 (todos_visitados_true _ _) Htodos).
Qed.

(** A counted block: the cash and the period come from
    [caixa_e_periodo], the cash is discounted by the period reached. *)
Lemma vpl_passo_conta (st : avaliacao) (b : Z) (preds : list Z) (dest : Z)
    (ton val fator : F) :
  preds_dict inst !! b = Some preds →
  (∀ p, p ∈ preds → p ∈ visitados st) →
  dest_dict inst !! b = Some dest →
  tonn_dict inst !! b = Some ton →
  val_ore_dict inst !! b = Some val →
  n_pot (n_add n_um taxa) ((caixa_e_periodo capacidade st dest ton val).1.2 - 1)
    = Ok fator →
  n_e_zero fator = false →
  vpl_passo inst taxa capacidade st b
  = Ok {| ano := (caixa_e_periodo capacidade st dest ton val).1.2;
          ton_acumulada := (caixa_e_periodo capacidade st dest ton val).2;
          valor_total :=
            n_add (valor_total st)
                  (n_quo (caixa_e_periodo capacidade st dest ton val).1.1 fator);
          visitados := {[b]} ∪ visitados st |}.
Proof.
  intros Hb%item_Ok Hvis%todos_visitados_true Hd%item_Ok Ht%item_Ok Hv%item_Ok.
  intros Hpot Hz. unfold vpl_passo. rewrite Hb. simpl. rewrite Hvis, Hd. simpl.
  rewrite Ht. simpl. rewrite Hv. simpl.
  destruct (caixa_e_periodo capacidade st dest ton val) as [[cash ano'] ton'].
  simpl in *. rewrite Hpot. simpl. unfold n_div. by rewrite Hz.
Qed.

Lemma caixa_esteril (st : avaliacao) (dest : Z) (ton val : F) :
  dest ≠ 1 →
  caixa_e_periodo capacidade st dest ton val
  = (n_mul (n_opp n_custo) ton, ano st, ton_acumulada st).
Proof.
  intros Hd. unfold caixa_e_periodo.
  by rewrite (proj2 (Z.eqb_neq dest 1) Hd).
Qed.

Lemma caixa_minerio_vira (st : avaliacao) (ton val : F) :
  n_maior (n_add (ton_acumulada st) ton) capacidade = true →
  caixa_e_periodo capacidade st 1 ton val
  = (n_add (n_mul (n_opp n_custo) ton) val, ano st + 1, n_add n_zero ton).
Proof. intros Hm. unfold caixa_e_periodo. simpl. by rewrite Hm. Qed.

Lemma caixa_minerio_fica (st : avaliacao) (ton val : F) :
  n_maior (n_add (ton_acumulada st) ton) capacidade = false →
  caixa_e_periodo capacidade st 1 ton val
  = (n_add (n_mul (n_opp n_custo) ton) val, ano st,
     n_add (ton_acumulada st) ton).
Proof. intros Hm. unfold caixa_e_periodo. simpl. by rewrite Hm. Qed.

End Avaliacao.

(** C6: a block with an uncounted predecessor is skipped, with the whole
    state of the evaluator unchanged; a waste block whose predecessors
    are counted costs [0.75 * tonnage], discounted by the current period,
    and changes neither the period nor the accumulated ore tonnage. *)
Theorem vpl_pula_e_esteril {F} `{Numero F} (inst : MineLibCPIT F)
    (taxa capacidade : F) (pre : list Z) (b : Z) (st : avaliacao)
    (preds : list Z) :
  vpl_estado inst taxa capacidade pre = Ok st →
  preds_dict inst !! b = Some preds →
  ((∃ p, p ∈ preds ∧ p ∉ visitados st) →
     vpl_estado inst taxa capacidade (pre ++ [b]) = Ok st) ∧
  (∀ dest ton val fator,
     (∀ p, p ∈ preds → p ∈ visitados st) →
     dest_dict inst !! b = Some dest → dest ≠ 1 →
     tonn_dict inst !! b = Some ton →
     val_ore_dict inst !! b = Some val →
     n_pot (n_add n_um taxa) (ano st - 1) = Ok fator →
     n_e_zero fator = false →
     vpl_estado inst taxa capacidade (pre ++ [b])
     = Ok {| ano := ano st;
             ton_acumulada := ton_acumulada st;
             valor_total :=
               n_add (valor_total st) (n_quo (n_mul (n_opp n_custo) ton) fator);
             visitados := {[b]} ∪ visitados st |}).
Proof.
  intros Hpre Hb. split.
  - intros Hfalta. rewrite vpl_estado_snoc, Hpre. simpl.
    by eapply vpl_passo_pula.
  - intros dest ton val fator Hvis Hd Hne Ht Hv Hpot Hz.
    rewrite vpl_estado_snoc, Hpre. simpl.
    erewrite vpl_passo_conta; [|done..| |done];
      rewrite caixa_esteril by done; simpl; [done|exact Hpot].
Qed.

Lemma vpl_pula_e_esteril_witness :
  vpl_estado inst_exemplo (15 # 100)%Q 15%Q ([] ++ [1]) = Ok avaliacao_inicial ∧
  ∃ st, vpl_estado inst_exemplo (15 # 100)%Q 15%Q [0] = Ok st ∧
        vpl_estado inst_exemplo (15 # 100)%Q 15%Q ([0] ++ [1])
        = Ok {| ano := ano st;
                ton_acumulada := ton_acumulada st;
                valor_total :=
                  n_add (valor_total st)
                        (n_quo (n_mul (n_opp n_custo) 10%Q) 1%Q);
                visitados := {[1]} ∪ visitados st |}.
Proof.
  split.
  - apply (vpl_pula_e_esteril inst_exemplo (15 # 100)%Q 15%Q [] 1
             avaliacao_inicial [0]); [reflexivity|vm_compute; reflexivity|].
    exists 0. split; [by left|]. simpl. apply not_elem_of_empty.
  - eexists. split; [vm_compute; reflexivity|].
    refine (proj2 (vpl_pula_e_esteril inst_exemplo (15 # 100)%Q 15%Q [0] 1
             _ [0] _ _) 0 10%Q 0%Q 1%Q _ _ _ _ _ _ _);
      try (vm_compute; reflexivity).
    + intros p ->%list_elem_of_singleton. simpl. set_solver.
    + done.
Defined.

Lemma n_e_zero_Q (x : Q) : ¬ (x == 0)%Q → n_e_zero x = false.
Proof.
  intros Hx. simpl. destruct (Qeq_bool x 0) eqn:Heq; [|done].
  by apply Qeq_bool_eq in Heq.
Qed.

(** C4: an ore block whose tonnage would take the accumulated ore
    tonnage of the period over the capacity opens the next period first:
    the accumulator restarts from zero, the block is loaded and its cash
    is discounted by the new period. So blocks A and B (ids 0 and 1), ore
    of tonnage 10 each, under capacity 15: A is counted in period 1 with
    discount [(1+r)^0], B in period 2 with discount [(1+r)^1]. *)
Theorem vpl_vira_periodo :
  (∀ F (HF : Numero F) (inst : MineLibCPIT F) (taxa capacidade : F)
     (pre : list Z) (b : Z) (st : avaliacao) (preds : list Z)
     (ton val fator : F),
     vpl_estado inst taxa capacidade pre = Ok st →
     preds_dict inst !! b = Some preds →
     (∀ p, p ∈ preds → p ∈ visitados st) →
     dest_dict inst !! b = Some 1 →
     tonn_dict inst !! b = Some ton →
     val_ore_dict inst !! b = Some val →
     n_maior (n_add (ton_acumulada st) ton) capacidade = true →
     n_pot (n_add n_um taxa) (ano st + 1 - 1) = Ok fator →
     n_e_zero fator = false →
     vpl_estado inst taxa capacidade (pre ++ [b])
     = Ok {| ano := ano st + 1;
             ton_acumulada := n_add n_zero ton;
             valor_total :=
               n_add (valor_total st)
                     (n_quo (n_add (n_mul (n_opp n_custo) ton) val) fator);
             visitados := {[b]} ∪ visitados st |}) ∧
  (∀ vA vB r : Q,
     ¬ (1 + r == 0)%Q →
     vpl_estado (inst_AB vA vB) r 15%Q [0]
     = Ok {| ano := 1;
             ton_acumulada := (0 + 10)%Q;
             valor_total := (0 + (- (3 # 4) * 10 + vA) / (1 + r) ^ 0)%Q;
             visitados := {[0]} ∪ ∅ |} ∧
     vpl_estado (inst_AB vA vB) r 15%Q [0; 1]
     = Ok {| ano := 2;
             ton_acumulada := (0 + 10)%Q;
             valor_total := (0 + (- (3 # 4) * 10 + vA) / (1 + r) ^ 0
                             + (- (3 # 4) * 10 + vB) / (1 + r) ^ 1)%Q;
             visitados := {[1]} ∪ ({[0]} ∪ ∅) |}).
Proof.
  assert (∀ F (HF : Numero F) (inst : MineLibCPIT F) (taxa capacidade : F)
     (pre : list Z) (b : Z) (st : avaliacao) (preds : list Z)
     (ton val fator : F),
     vpl_estado inst taxa capacidade pre = Ok st →
     preds_dict inst !! b = Some preds →
     (∀ p, p ∈ preds → p ∈ visitados st) →
     dest_dict inst !! b = Some 1 →
     tonn_dict inst !! b = Some ton →
     val_ore_dict inst !! b = Some val →
     n_maior (n_add (ton_acumulada st) ton) capacidade = true →
     n_pot (n_add n_um taxa) (ano st + 1 - 1) = Ok fator →
     n_e_zero fator = false →
     vpl_estado inst taxa capacidade (pre ++ [b])
     = Ok {| ano := ano st + 1;
             ton_acumulada := n_add n_zero ton;
             valor_total :=
               n_add (valor_total st)
                     (n_quo (n_add (n_mul (n_opp n_custo) ton) val) fator);
             visitados := {[b]} ∪ visitados st |}) as Hvira.
  { intros F HF inst taxa capacidade pre b st preds ton val fator
      Hpre Hb Hvis Hd Ht Hv Hm Hpot Hz.
    rewrite vpl_estado_snoc, Hpre. simpl.
    erewrite vpl_passo_conta; [|done..| |done];
      rewrite caixa_minerio_vira by done; simpl; [done|exact Hpot]. }
  split; [exact Hvira|].
  intros vA vB r Hr.
  assert (vpl_estado (inst_AB vA vB) r 15%Q [0]
     = Ok {| ano := 1;
             ton_acumulada := (0 + 10)%Q;
             valor_total := (0 + (- (3 # 4) * 10 + vA) / (1 + r) ^ 0)%Q;
             visitados := {[0]} ∪ ∅ |}) as HA.
  { change [0] with ([] ++ [0]). rewrite vpl_estado_snoc. simpl.
    erewrite vpl_passo_conta with (preds := []) (dest := 1) (ton := 10%Q)
      (val := vA) (fator := 1%Q); try reflexivity.
    intros p Hp. by apply elem_of_nil in Hp. }
  split; [exact HA|].
  change [0; 1] with ([0] ++ [1]).
  rewrite (Hvira Q _ (inst_AB vA vB) r 15%Q [0] 1 _ [] 10%Q vB (1 + r)%Q HA);
    try reflexivity.
  - intros p Hp. by apply elem_of_nil in Hp.
  - by apply n_e_zero_Q.
Qed.

Lemma vpl_vira_periodo_witness :
  vpl_estado (inst_AB 5 8) (15 # 100)%Q 15%Q ([0] ++ [1])
  = Ok {| ano := 1 + 1;
          ton_acumulada := (0 + 10)%Q;
          valor_total := (0 + (- (3 # 4) * 10 + 5) / 1
                          + (- (3 # 4) * 10 + 8) / (1 + (15 # 100)))%Q;
          visitados := {[1]} ∪ ({[0]} ∪ ∅) |} ∧
  vpl_estado (inst_AB 5 8) (15 # 100)%Q 15%Q [0; 1]
  = Ok {| ano := 2;
          ton_acumulada := (0 + 10)%Q;
          valor_total := (0 + (- (3 # 4) * 10 + 5) / (1 + (15 # 100)) ^ 0
                          + (- (3 # 4) * 10 + 8) / (1 + (15 # 100)) ^ 1)%Q;
          visitados := {[1]} ∪ ({[0]} ∪ ∅) |}.
Proof.
  split.
  - refine (proj1 vpl_vira_periodo Q _ (inst_AB 5 8) (15 # 100)%Q 15%Q [0] 1
             {| ano := 1; ton_acumulada := (0 + 10)%Q;
                valor_total := (0 + (- (3 # 4) * 10 + 5) / 1)%Q;
                visitados := {[0]} ∪ ∅ |} [] 10%Q 8%Q (1 + (15 # 100))%Q
             _ _ _ _ _ _ _ _ _);
      try (vm_compute; reflexivity).
    intros p Hp. by apply elem_of_nil in Hp.
  - apply (proj2 vpl_vira_periodo 5%Q 8%Q (15 # 100)%Q). vm_compute. discriminate.
Defined.

(** C5, as stated, fails: the cash of block 2 is -0.75 * 10 + 8 = 0.5,
    not 0.25, and the total is -255/23, about -11.087: it is farther than
    0.2 from -11.304. *)
Lemma exemplo_nao_vale_11_304 :
  (∃ st, vpl_estado inst_exemplo (15 # 100)%Q 15%Q [0; 1; 2] = Ok st ∧
         ¬ (valor_total st == - 10 + (25 # 100) / (115 # 100))%Q) ∧
  (∃ v, calcular_vpl inst_exemplo (15 # 100)%Q 15%Q [0; 1; 2; 3] = Ok v ∧
        (v == - (255 # 23))%Q ∧
        ¬ (- (11304 # 1000) - (2 # 10) < v ∧ v < - (11304 # 1000) + (2 # 10))%Q).
Proof.
  split.
  - eexists. split; [vm_compute; reflexivity|]. by vm_compute.
  - eexists. split_and!; [vm_compute; reflexivity..|].
    intros [_ Hv]. by vm_compute in Hv.
Qed.

(** C5, amended: the worked example with the cash of block 2 at 0.5.
    Blocks 0 and 1 are counted in period 1 and bring the value to -10;
    block 2 opens period 2 (10 + 10 > 15), its cash 0.5 is discounted by
    1.15; block 3 stays in period 2 (10 + 5 = 15), its cash -1.75 is
    discounted by 1.15; the total is -255/23, about -11.087. *)
Theorem exemplo_de_quatro_blocos :
  carregada inst_exemplo ∧
  (∃ st, vpl_estado inst_exemplo (15 # 100)%Q 15%Q [0] = Ok st ∧
         ano st = 1 ∧ (valor_total st == - (25 # 10))%Q) ∧
  (∃ st, vpl_estado inst_exemplo (15 # 100)%Q 15%Q [0; 1] = Ok st ∧
         ano st = 1 ∧ (ton_acumulada st == 10)%Q ∧
         (valor_total st == - 10)%Q) ∧
  (∃ st, vpl_estado inst_exemplo (15 # 100)%Q 15%Q [0; 1; 2] = Ok st ∧
         ano st = 2 ∧ (ton_acumulada st == 10)%Q ∧
         (valor_total st == - 10 + (5 # 10) / (115 # 100))%Q) ∧
  (∃ st, vpl_estado inst_exemplo (15 # 100)%Q 15%Q [0; 1; 2; 3] = Ok st ∧
         ano st = 2 ∧ (ton_acumulada st == 15)%Q ∧
         (valor_total st
          == - 10 + ((5 # 10) - (175 # 100)) / (115 # 100))%Q) ∧
  (∃ v, calcular_vpl inst_exemplo (15 # 100)%Q 15%Q [0; 1; 2; 3] = Ok v ∧
        (v == - (255 # 23))%Q ∧
        (- (110875 # 10000) < v)%Q ∧ (v < - (110865 # 10000))%Q).
Proof.
  split; [apply inst_exemplo_carregada|].
  split_and!; eexists; (split; [vm_compute; reflexivity|]);
    split_and!; vm_compute; reflexivity.
Qed.
(** ** The random source *)

Section Random_props.
Context {G F : Type} `{Aleatorio G F}.

Lemma randbelow_lt (n : nat) (g : G) : (0 < n)%nat → ((randbelow n g).1 < n)%nat.
Proof.
  intros Hn. unfold randbelow. destruct (sortear g) as [k g']. simpl.
  apply Nat.mod_upper_bound. lia.
Qed.

Lemma trocar_Permutation (i j : nat) (x : list Z) : trocar i j x ≡ₚ x.
Proof.
  unfold trocar. destruct (x !! i) as [xi|] eqn:Hi; [|done].
  destruct (x !! j) as [xj|] eqn:Hj; [|done].
  by apply Permutation_insert_swap.
Qed.

Lemma shuffle_laco_Permutation (i : nat) (x : list Z) (g : G) :
  (shuffle_laco i x g).1 ≡ₚ x.
Proof.
  revert x g. induction i as [|i IH]; intros x g; simpl; [done|].
  destruct (randbelow _ g) as [j g'].
  etrans; [apply IH|apply trocar_Permutation].
Qed.

Lemma shuffle_Permutation (x : list Z) (g : G) : (shuffle x g).1 ≡ₚ x.
Proof. apply shuffle_laco_Permutation. Qed.

(** [sample] of two positions: distinct and in range, or [ValueError]
    when there are fewer than two. *)
Lemma sample2_Ok (n : nat) (g : G) :
  (2 ≤ n)%nat →
  ∃ i j g', sample2 n g = Ok (i, j, g') ∧ (i < n)%nat ∧ (j < n)%nat ∧ i ≠ j.
Proof.
  intros Hn. unfold sample2.
  destruct (Nat.ltb_spec n 2) as [|_]; [lia|].
  pose proof (randbelow_lt n g) as H1.
  destruct (randbelow n g) as [j1 g1]. simpl in H1.
  pose proof (randbelow_lt (n - 1) g1) as H2.
  destruct (randbelow (n - 1) g1) as [j2 g2]. simpl in H2.
  eexists _, _, _. split; [done|].
  destruct (Nat.eqb_spec j2 j1); lia.
Qed.

Lemma sample2_Raise (n : nat) (g : G) :
  (n < 2)%nat → sample2 n g = Raise ValueError.
Proof.
  intros Hn. unfold sample2. by destruct (Nat.ltb_spec n 2) as [_|]; [|lia].
Qed.

Lemma choice_Ok (seq : list Z) (g : G) :
  seq ≠ [] → ∃ b g', choice seq g = Ok (b, g') ∧ b ∈ seq.
Proof.
  intros Hseq. unfold choice. destruct seq as [|b0 seq]; [done|].
  pose proof (randbelow_lt (length (b0 :: seq)) g) as Hlt.
  destruct (randbelow (length (b0 :: seq)) g) as [k g'].
  destruct (lookup_lt_is_Some_2 (b0 :: seq) k) as [b Hb]; [simpl in *; lia|].
  rewrite Hb. exists b, g'. split; [done|]. by eapply list_elem_of_lookup_2.
Qed.

End Random_props.

(** ** The genetic operators *)

Section Genetico_props.
Context {G F : Type} `{Numero F} `{Aleatorio G F}.
Variable inst : MineLibCPIT F.
Hypothesis Hbf : bem_formada inst.

Lemma verificar_laco_total (s : list Z) (vis : gset Z) :
  (∀ b, b ∈ s → b ∈ ids inst) → ∃ ok, verificar_laco inst vis s = Ok ok.
Proof using Hbf.
  revert vis. induction s as [|b s IH]; intros vis Hs; simpl; [by eexists|].
  destruct (proj1 (bf_preds inst Hbf b)) as [preds Hb]; [apply Hs; by left|].
  apply item_Ok in Hb. rewrite Hb. simpl.
  destruct (falta_pred vis preds); [by eexists|].
  apply IH. intros b' Hb'. apply Hs. by right.
Qed.

Lemma reparar_permutacao (s : list Z) :
  permutacao_ids inst s →
  ∃ r, reparar_solucao inst s = Ok r ∧ permutacao_ids inst r.
Proof using Hbf.
  intros Hs.
  destruct (para_reparar inst s ([], ∅)) as (st & Hst & [Hnd _] & Hel).
  { apply reparo_ok_inicial. }
  { intros b Hb. apply Hbf, Hs, Hb. }
  exists st.1. split; [unfold reparar_solucao; by rewrite Hst|].
  split; [done|]. intros x. rewrite Hel. simpl. rewrite elem_of_nil.
  destruct Hs as [_ Hs]. split.
  - intros [[]|[Hx|(b & preds & Hb & Hpreds & Hx)]]; [by apply Hs|].
    eapply bf_fechado; [done|]. by exists preds.
  - intros Hx. right. left. by apply Hs.
Qed.

Lemma reparar_se_preciso_permutacao (s : list Z) :
  permutacao_ids inst s →
  ∃ r, reparar_se_preciso inst s = Ok r ∧ permutacao_ids inst r.
Proof using Hbf.
  intros Hs. unfold reparar_se_preciso, verificar_factibilidade.
  destruct (verificar_laco_total s ∅) as [ok ->]; [intros b; apply Hs|].
  simpl. destruct ok; [by exists s|]. by apply reparar_permutacao.
Qed.

Lemma permutacao_ids_perm (s s' : list Z) :
  s' ≡ₚ s → permutacao_ids inst s → permutacao_ids inst s'.
Proof.
  intros Hp [Hnd Hel]. split; [by rewrite Hp|]. intros x. by rewrite Hp.
Qed.

Lemma fatia_sublist (a b : nat) (l : list Z) : fatia a b l `sublist_of` l.
Proof.
  unfold fatia. etrans; [apply sublist_take|apply sublist_drop].
Qed.

(** The segment of the first parent followed by the rest of the second
    parent is a solution, before any repair. *)
Lemma recombinar_permutacao (a b : nat) (pai1 pai2 : list Z) :
  permutacao_ids inst pai1 → permutacao_ids inst pai2 →
  permutacao_ids inst (recombinar a b pai1 pai2).
Proof.
  intros [Hnd1 Hel1] [Hnd2 Hel2]. unfold recombinar.
  pose proof (fatia_sublist a b pai1) as Hsub. split.
  - apply NoDup_app. split_and!.
    + by apply (sublist_NoDup _ pai1).
    + intros x Hx [Hnx _]%list_elem_of_filter. by apply Hnx.
    + by apply NoDup_filter.
  - intros x. rewrite elem_of_app, list_elem_of_filter, Hel2. split.
    + intros [Hx|[_ Hx]]; [|done]. apply Hel1. by eapply elem_of_sublist.
    + intros Hx. destruct (decide (x ∈ fatia a b pai1)); auto.
Qed.

Lemma permutacao_ids_length (s : list Z) :
  NoDup (ids inst) → permutacao_ids inst s → length s = length (ids inst).
Proof.
  intros Hnd [Hs Hel]. apply Permutation_length, NoDup_Permutation; done.
Qed.

Lemma crossover_permutacao (pai1 pai2 : list Z) (g : G) :
  (2 ≤ length pai1)%nat →
  permutacao_ids inst pai1 → permutacao_ids inst pai2 →
  ∃ filho g', crossover inst pai1 pai2 g = Ok (filho, g') ∧
              permutacao_ids inst filho.
Proof using Hbf.
  intros Hn H1 H2. unfold crossover.
  destruct (sample2_Ok (length pai1) g Hn) as (i & j & g' & -> & _). simpl.
  destruct (reparar_se_preciso_permutacao
              (recombinar (i `min` j) (i `max` j) pai1 pai2)) as (r & -> & Hr).
  { by apply recombinar_permutacao. }
  simpl. by exists r, g'.
Qed.

Lemma mutacao_permutacao (slv : CPITSolverCompleto F) (s : list Z) (g : G) :
  (2 ≤ length s)%nat →
  permutacao_ids inst s →
  ∃ s' g', mutacao inst slv s g = Ok (s', g') ∧ permutacao_ids inst s'.
Proof using Hbf.
  intros Hn Hs. unfold mutacao. destruct (random_random g) as [r g1].
  destruct (n_maior (taxa_mutacao slv) r); [|by exists s, g1].
  destruct (sample2_Ok (length s) g1 Hn) as (i & j & g2 & -> & _). simpl.
  destruct (reparar_se_preciso_permutacao (trocar i j s)) as (s' & -> & Hs').
  { eapply permutacao_ids_perm; [apply trocar_Permutation|done]. }
  simpl. by exists s', g2.
Qed.

Lemma gerar_solucao_aleatoria_permutacao (g : G) :
  NoDup (ids inst) →
  ∃ s g', gerar_solucao_aleatoria inst g = Ok (s, g') ∧ permutacao_ids inst s.
Proof using Hbf.
  intros Hnd. unfold gerar_solucao_aleatoria.
  pose proof (shuffle_Permutation (ids inst) g) as Hp.
  destruct (shuffle (ids inst) g) as [s g']. simpl in Hp.
  destruct (reparar_se_preciso_permutacao s) as (s' & -> & Hs').
  { by apply permutacao_ids_Permutation. }
  simpl. by exists s', g'.
Qed.

Lemma gerar_populacao_permutacao (n : nat) (g : G) :
  NoDup (ids inst) →
  ∃ pop g', gerar_populacao inst n g = Ok (pop, g') ∧
            Forall (permutacao_ids inst) pop ∧ length pop = n.
Proof using Hbf.
  intros Hnd. revert g. induction n as [|n IH]; intros g; simpl.
  - by exists [], g.
  - destruct (gerar_solucao_aleatoria_permutacao g Hnd) as (s & g1 & -> & Hs).
    simpl. destruct (IH g1) as (pop & g2 & -> & Hpop & Hlen). simpl.
    exists (s :: pop), g2. split_and!; [done|by constructor|by simpl; f_equal].
Qed.

Lemma posicao_Ok {A} (l : list A) (i : nat) (x : A) :
  posicao l i = Ok x ↔ l !! i = Some x.
Proof. unfold posicao. destruct (l !! i); naive_solver. Qed.

Lemma gerar_filho_permutacao (slv : CPITSolverCompleto F)
    (pop : list (list Z)) (g : G) :
  NoDup (ids inst) → (2 ≤ length (ids inst))%nat →
  (2 ≤ length pop)%nat → Forall (permutacao_ids inst) pop →
  ∃ filho g', gerar_filho inst slv pop g = Ok (filho, g') ∧
              permutacao_ids inst filho.
Proof using Hbf.
  intros Hnd Hids Hpop Hall. unfold gerar_filho.
  destruct (sample2_Ok (length pop) g Hpop) as (i & j & g1 & -> & Hi & Hj & _).
  simpl.
  destruct (lookup_lt_is_Some_2 pop i Hi) as [pai1 H1].
  destruct (lookup_lt_is_Some_2 pop j Hj) as [pai2 H2].
  rewrite (proj2 (posicao_Ok pop i pai1) H1). simpl.
  rewrite (proj2 (posicao_Ok pop j pai2) H2). simpl.
  assert (permutacao_ids inst pai1) as Hp1
    by (eapply Forall_forall; [done|by eapply list_elem_of_lookup_2]).
  assert (permutacao_ids inst pai2) as Hp2
    by (eapply Forall_forall; [done|by eapply list_elem_of_lookup_2]).
  destruct (crossover_permutacao pai1 pai2 g1) as (filho & g2 & -> & Hf);
    [by rewrite permutacao_ids_length|done..|].
  simpl. apply mutacao_permutacao; [by rewrite permutacao_ids_length|done].
Qed.

Lemma nova_populacao_permutacao (falta : nat) (slv : CPITSolverCompleto F)
    (pop : list (list Z)) (g : G) :
  NoDup (ids inst) → (2 ≤ length (ids inst))%nat →
  (2 ≤ length pop)%nat → Forall (permutacao_ids inst) pop →
  ∃ nova g', nova_populacao inst falta slv pop g = Ok (nova, g') ∧
             Forall (permutacao_ids inst) nova ∧ length nova = falta.
Proof using Hbf.
  intros Hnd Hids Hpop Hall. revert g.
  induction falta as [|falta IH]; intros g; simpl.
  - by exists [], g.
  - destruct (gerar_filho_permutacao slv pop g) as (filho & g1 & -> & Hf);
      [done..|].
    simpl. destruct (IH g1) as (nova & g2 & -> & Hnova & Hlen). simpl.
    exists (filho :: nova), g2. split_and!; [done|by constructor|by simpl; f_equal].
Qed.

End Genetico_props.

(** ** The generational loop *)

Section Executar_props.
Context {G F : Type} `{Numero F} `{Aleatorio G F}.
Variable inst : MineLibCPIT F.
Hypothesis Hbf : bem_formada inst.
Hypothesis Hnd : NoDup (ids inst).
Hypothesis Hids : (2 ≤ length (ids inst))%nat.

Lemma posicao_elem_of {A} (l : list A) (i : nat) (x : A) :
  posicao l i = Ok x → x ∈ l.
Proof. intros Hx%posicao_Ok. by eapply list_elem_of_lookup_2. Qed.

Lemma nova_populacao_Ok (falta : nat) (slv : CPITSolverCompleto F)
    (pop nova : list (list Z)) (g g' : G) :
  Forall (permutacao_ids inst) pop →
  nova_populacao inst falta slv pop g = Ok (nova, g') →
  Forall (permutacao_ids inst) nova.
Proof using Hbf Hnd Hids.
  intros Hpop Hnova. destruct (decide (2 ≤ length pop)%nat) as [Hlen|Hlen].
  - destruct (nova_populacao_permutacao inst Hbf falta slv pop g)
      as (nova' & g'' & Heq & Hall & _); [done..|]. congruence.
  - destruct falta as [|falta]; simpl in Hnova; [by injection Hnova as <- _|].
    unfold gerar_filho in Hnova. by rewrite sample2_Raise in Hnova by lia.
Qed.

Lemma executar_inicio_Ok (slv : CPITSolverCompleto F) (g g0 : G)
    (pop : list (list Z)) (el : elite) :
  executar_inicio inst slv g = Ok (pop, el, g0) →
  Forall (permutacao_ids inst) pop ∧ permutacao_ids inst (e_solucao el).
Proof using Hbf Hnd.
  unfold executar_inicio, gerar_populacao_inicial.
  destruct (gerar_populacao_permutacao inst Hbf (Z.to_nat (pop_size slv)) g)
    as (pop' & g1 & -> & Hall & _); [done|]. simpl.
  intros (fitness & _ & (i & _ & (s & Hs & (m & _ & [= <- <- _])%bind_Ok)
    %bind_Ok)%bind_Ok)%bind_Ok.
  split; [done|]. simpl. eapply Forall_forall; [done|]. by eapply posicao_elem_of.
Qed.

Lemma geracao_Ok (slv : CPITSolverCompleto F) (pop : list (list Z))
    (el el' : elite) (g g' : G) :
  Forall (permutacao_ids inst) pop →
  permutacao_ids inst (e_solucao el) →
  geracao inst slv pop (el, g) = Ok (el', g') →
  permutacao_ids inst (e_solucao el').
Proof using Hbf Hnd Hids.
  intros Hpop Hel. unfold geracao.
  intros ([nova g1] & Hnova & (fitness & _ & (m & _ & (el1 & Hel1 & [= <- _])
    %bind_Ok)%bind_Ok)%bind_Ok)%bind_Ok.
  simpl. apply nova_populacao_Ok in Hnova; [|done].
  destruct (n_maior m (e_vpl el)); [|by injection Hel1 as <-].
  apply bind_Ok in Hel1 as (i & _ & (s & Hs & [= <-])%bind_Ok). simpl.
  eapply Forall_forall; [done|]. by eapply posicao_elem_of.
Qed.

Lemma geracoes_Ok (n : nat) (slv : CPITSolverCompleto F) (pop : list (list Z))
    (el el' : elite) (g g' : G) :
  Forall (permutacao_ids inst) pop →
  permutacao_ids inst (e_solucao el) →
  geracoes inst n slv pop (el, g) = Ok (el', g') →
  permutacao_ids inst (e_solucao el').
Proof using Hbf Hnd Hids.
  intros Hpop. revert el g. induction n as [|n IH]; intros el g Hel; simpl.
  - by intros [= <- _].
  - intros ([el1 g1] & H1 & Hrest)%bind_Ok.
    eapply IH; [|done]. by eapply geracao_Ok.
Qed.

Lemma executar_Ok (slv slv' : CPITSolverCompleto F) (g g' : G) :
  executar inst slv g = Ok (slv', g') →
  ∃ s, melhor_solucao slv' = Some s ∧ permutacao_ids inst s.
Proof using Hbf Hnd Hids.
  unfold executar.
  intros ([[pop el0] g0] & [Hpop Hel0]%executar_inicio_Ok
          & ([el g1] & Hger & [= <- _])%bind_Ok)%bind_Ok.
  simpl. eexists. split; [done|]. by eapply geracoes_Ok.
Qed.

End Executar_props.

(** C9, as stated, fails on loaded models. With one block, [0] is a
    permutation of the id set, yet crossover and mutation draw two
    positions out of one and raise [ValueError]. With an id on two rows,
    random generation returns [0; 0], the members of the initial
    population and the elite of a run are [0; 0], and [0; 0] repeats an
    id. *)
Lemma operadores_fora_das_condicoes :
  (carregada inst_um ∧ permutacao_ids inst_um [0] ∧
   crossover (G:=Z) inst_um [0] [0] 42 = Raise ValueError ∧
   mutacao (G:=Z) inst_um
     {| pop_size := 2; num_geracoes := 1; taxa_mutacao := 1%Q;
        melhor_solucao := None; melhor_vpl := None; historico := [] |}
     [0] 42 = Raise ValueError) ∧
  (carregada inst_repetido ∧
   (∃ g' : Z, gerar_solucao_aleatoria inst_repetido 42 = Ok ([0; 0], g')) ∧
   (∃ slv' (g' : Z),
      corrida inst_repetido 2 1 0%Q 42 0 = Ok (slv', g') ∧
      melhor_solucao slv' = Some [0; 0]) ∧
   ¬ permutacao_ids inst_repetido [0; 0]).
Proof.
  split; split_and!.
  - exists df_um, df_um. vm_compute. reflexivity.
  - split; [apply NoDup_singleton|]. intros x. reflexivity.
  - vm_compute. reflexivity.
  - vm_compute. reflexivity.
  - exists df_repetido, df_repetido. vm_compute. reflexivity.
  - eexists. vm_compute. reflexivity.
  - eexists _, _. split; vm_compute; reflexivity.
  - intros [Hnd _]. apply NoDup_cons in Hnd as [Hnd _]. apply Hnd. left.
Qed.

(** C9, amended: on a loaded model with distinct ids, at least two of
    them, every operator that produces a solution returns, and returns a
    permutation of the id set: the recombination of two parents already
    is one before the repair, so are crossover, mutation and random
    generation, hence the initial population, every population bred from
    a population of at least two, and the elite that [executar]
    returns. *)
Theorem operadores_preservam_permutacao {G F} `{Numero F} `{Aleatorio G F}
    (inst : MineLibCPIT F) :
  carregada inst →
  NoDup (ids inst) →
  (2 ≤ length (ids inst))%nat →
  (∀ pai1 pai2 (g : G),
     permutacao_ids inst pai1 → permutacao_ids inst pai2 →
     (∀ a b, permutacao_ids inst (recombinar a b pai1 pai2)) ∧
     ∃ filho g', crossover inst pai1 pai2 g = Ok (filho, g') ∧
                 permutacao_ids inst filho) ∧
  (∀ slv s (g : G),
     permutacao_ids inst s →
     ∃ s' g', mutacao inst slv s g = Ok (s', g') ∧ permutacao_ids inst s') ∧
  (∀ g : G,
     ∃ s g', gerar_solucao_aleatoria inst g = Ok (s, g') ∧
             permutacao_ids inst s) ∧
  (∀ slv (g : G),
     ∃ pop g', gerar_populacao_inicial inst slv g = Ok (pop, g') ∧
               Forall (permutacao_ids inst) pop) ∧
  (∀ falta slv pop (g : G),
     Forall (permutacao_ids inst) pop → (2 ≤ length pop)%nat →
     ∃ nova g', nova_populacao inst falta slv pop g = Ok (nova, g') ∧
                Forall (permutacao_ids inst) nova) ∧
  (∀ slv slv' (g g' : G),
     executar inst slv g = Ok (slv', g') →
     ∃ s, melhor_solucao slv' = Some s ∧ permutacao_ids inst s).
Proof.
  intros Hbf%carregada_bem_formada Hnd Hids. split_and!.
  - intros pai1 pai2 g H1 H2. split; [intros; by apply recombinar_permutacao|].
    apply crossover_permutacao; [done| |done..].
    by rewrite (permutacao_ids_length inst).
  - intros slv s g Hs. apply mutacao_permutacao; [done| |done].
    by rewrite (permutacao_ids_length inst).
  - intros g. by apply gerar_solucao_aleatoria_permutacao.
  - intros slv g. unfold gerar_populacao_inicial.
    destruct (gerar_populacao_permutacao inst Hbf (Z.to_nat (pop_size slv)) g)
      as (pop & g' & ? & ? & _); eauto.
  - intros falta slv pop g Hpop Hlen.
    destruct (nova_populacao_permutacao inst Hbf falta slv pop g)
      as (nova & g' & ? & ? & _); eauto.
  - intros slv slv' g g'. by apply executar_Ok.
Qed.

Lemma operadores_preservam_permutacao_witness :
  (∃ filho g', crossover inst_cadeia [0; 1; 2] [2; 0; 1] 42 = Ok (filho, g') ∧
               permutacao_ids inst_cadeia filho) ∧
  (∃ slv' (g' : Z) s,
     corrida inst_cadeia 4 3 (1 # 2)%Q 42 0 = Ok (slv', g') ∧
     melhor_solucao slv' = Some s ∧ permutacao_ids inst_cadeia s).
Proof.
  assert (carregada inst_cadeia) as Hc
    by (exists df_cadeia, df_cadeia; vm_compute; reflexivity).
  assert (NoDup (ids inst_cadeia)) as Hnd
    by (apply (bool_decide_unpack _); vm_compute; reflexivity).
  assert (2 ≤ length (ids inst_cadeia))%nat as Hlen by (simpl; lia).
  assert (∀ s, s ≡ₚ ids inst_cadeia → permutacao_ids inst_cadeia s) as Hperm
    by (intros s Hs; by apply permutacao_ids_Permutation).
  destruct (operadores_preservam_permutacao (G:=Z) inst_cadeia Hc Hnd Hlen)
    as (Hcross & _ & _ & _ & _ & Hexec).
  split.
  - apply Hcross; apply Hperm; apply (bool_decide_unpack _); vm_compute;
      reflexivity.
  - assert (∃ slv' (g' : Z),
              corrida inst_cadeia 4 3 (1 # 2)%Q 42 0 = Ok (slv', g'))
      as (slv' & g' & Hrun) by (eexists _, _; vm_compute; reflexivity).
    destruct (Hexec _ _ _ _ Hrun) as (s & Hs & Hps).
    exists slv', g', s. split; [exact Hrun|]. split; [exact Hs|exact Hps].
Defined.


(** ** The topological baseline *)

Lemma verificar_laco_snoc {F} (inst : MineLibCPIT F) (l : list Z) (vis : gset Z)
    (b : Z) (preds : list Z) :
  verificar_laco inst vis l = Ok true →
  preds_dict inst !! b = Some preds →
  (∀ p, p ∈ preds → p ∈ vis ∨ p ∈ l) →
  verificar_laco inst vis (l ++ [b]) = Ok true.
Proof.
  intros Hl Hb%item_Ok. revert vis Hl.
  induction l as [|x l IH]; intros vis Hl Hp; simpl.
  - rewrite Hb. simpl. rewrite (proj2 (falta_pred_false vis preds)); [done|].
    intros p Hin. destruct (Hp p Hin) as [|[]%elem_of_nil]; done.
  - simpl in Hl. apply bind_Ok in Hl as (px & -> & Hl). simpl.
    destruct (falta_pred vis px); [done|]. apply IH; [done|].
    intros p Hin. destruct (Hp p Hin) as [|[->|]%elem_of_cons];
      [left|left|right]; set_solver.
Qed.

Lemma descartar_eq (b : Z) (d : gmap Z (gset Z)) (s : Z) (ps : gset Z) :
  d !! s = Some ps → descartar b d s = Ok (<[s := ps ∖ {[b]}]> d).
Proof. intros Hs%item_Ok. unfold descartar. by rewrite Hs. Qed.

Lemma para_descartar (b : Z) (succs : list Z) (d : gmap Z (gset Z)) :
  (∀ s, s ∈ succs → is_Some (d !! s)) →
  ∃ d', para (descartar b) d succs = Ok d' ∧
        ∀ k, d' !! k = if bool_decide (k ∈ succs)
                       then (λ ps, ps ∖ {[b]}) <$> d !! k else d !! k.
Proof.
  revert d. induction succs as [|s succs IH]; intros d Hd; simpl.
  - by exists d.
  - destruct (Hd s) as [ps Hs]; [by left|].
    rewrite (descartar_eq b d s ps Hs). simpl.
    destruct (IH (<[s := ps ∖ {[b]}]> d)) as (d' & -> & Hd').
    { intros s' Hs'. destruct (decide (s = s')) as [->|Hne].
      - rewrite lookup_insert_eq. by eexists.
      - rewrite lookup_insert_ne by done. apply Hd. by right. }
    exists d'. split; [done|]. intros k. rewrite Hd'.
    destruct (decide (s = k)) as [->|Hne].
    + rewrite lookup_insert_eq, Hs, (bool_decide_eq_true_2 (k ∈ k :: succs))
        by by left.
      simpl. case_bool_decide; simpl; f_equal. set_solver.
    + rewrite lookup_insert_ne by done.
      apply (f_equal (λ c : bool, if c then _ else _)).
      apply bool_decide_ext. rewrite elem_of_cons. naive_solver.
Qed.

Section Baseline_props.
Context {G F : Type} `{Numero F} `{Aleatorio G F}.
Variable inst : MineLibCPIT F.
Hypothesis Hbf : bem_formada inst.

Lemma restantes_iniciais_laco (l : list Z) (d : gmap Z (gset Z)) :
  (∀ b, b ∈ l → b ∈ ids inst) →
  ∃ d', para (λ d b, preds ← item (preds_dict inst) b;
                     Ok (<[b := list_to_set preds]> d)) d l = Ok d' ∧
        ∀ b, d' !! b = if bool_decide (b ∈ l)
                       then list_to_set <$> preds_dict inst !! b else d !! b.
Proof using Hbf.
  revert d. induction l as [|x l IH]; intros d Hl; simpl.
  - by exists d.
  - destruct (proj1 (bf_preds inst Hbf x)) as [preds Hx]; [apply Hl; by left|].
    rewrite (proj2 (item_Ok _ _ _) Hx). simpl.
    destruct (IH (<[x := list_to_set preds]> d)) as (d' & -> & Hd').
    { intros b Hb. apply Hl. by right. }
    exists d'. split; [done|]. intros b. rewrite Hd'.
    destruct (decide (x = b)) as [->|Hne].
    + rewrite lookup_insert_eq, Hx, (bool_decide_eq_true_2 (b ∈ b :: l))
        by by left.
      by case_bool_decide.
    + rewrite lookup_insert_ne by done.
      apply (f_equal (λ c : bool, if c then _ else _)).
      apply bool_decide_ext. rewrite elem_of_cons. naive_solver.
Qed.

Lemma topo_ok_inicial :
  ∃ d, restantes_iniciais inst = Ok d ∧
       topo_ok inst {| ordem := []; t_visitados := ∅; preds_restantes := d |}.
Proof using Hbf.
  destruct (restantes_iniciais_laco (ids inst) ∅) as (d & Hd & Hlook); [done|].
  exists d. split; [done|]. split_and!; simpl; [constructor|done| | |done].
  - by intros b ?%elem_of_nil.
  - intros b Hb. destruct (proj1 (bf_preds inst Hbf b) Hb) as [preds Hp].
    exists preds. split; [done|]. rewrite Hlook, bool_decide_eq_true_2, Hp by done.
    simpl. f_equal. set_solver.
Qed.

(** Placing a free block keeps the state in agreement with the model. *)
Lemma topo_passo (st : topo) (b : Z) :
  topo_ok inst st → b ∈ livres inst st →
  ∃ succs d,
    succs_dict inst !! b = Some succs ∧
    para (descartar b) (preds_restantes st) succs = Ok d ∧
    topo_ok inst {| ordem := ordem st ++ [b];
                    t_visitados := {[b]} ∪ t_visitados st;
                    preds_restantes := d |}.
Proof using Hbf.
  intros (Hnd & Hvis & Hids & Hrest & Hfact) [[Hvazio Hnv] Hb]%list_elem_of_filter.
  rewrite elem_of_chaves in Hb.
  destruct (proj1 (bf_succs inst Hbf b) Hb) as [succs Hsuccs].
  destruct (para_descartar b succs (preds_restantes st)) as (d & Hd & Hlook).
  { intros s Hs. apply (bf_inverso inst Hbf b s succs Hsuccs) in Hs
      as (ps & Hps & _).
    destruct (Hrest s) as (ps' & _ & ->); [|by eexists].
    apply Hbf. by eexists. }
  exists succs, d. split_and!; [done..|].
  assert (b ∉ ordem st) as Hnb by (by rewrite Hvis, elem_of_list_to_set in Hnv).
  destruct (Hrest b Hb) as (preds & Hpreds & Hrb).
  split_and!; simpl.
  - apply NoDup_app. split_and!; [done| |apply NoDup_singleton].
    by intros x Hx ->%list_elem_of_singleton.
  - rewrite Hvis, list_to_set_snoc_L. set_solver.
  - intros x [Hx| ->%list_elem_of_singleton]%elem_of_app; auto.
  - intros b' Hb'. destruct (Hrest b' Hb') as (ps & Hps & Hrb').
    exists ps. split; [done|]. rewrite Hlook, Hrb', list_to_set_snoc_L.
    case_bool_decide as Hin; simpl; f_equal; [set_solver|].
    assert (b ∉ ps); [|set_solver].
    intros Hbps. apply Hin, (bf_inverso inst Hbf b b' succs Hsuccs).
    by exists ps.
  - eapply verificar_laco_snoc; [done..|].
    intros p Hp. right. rewrite Hrb in Hvazio. injection Hvazio as Hvazio.
    destruct (decide (p ∈ ordem st)) as [|Hnp]; [done|].
    assert (p ∈ (list_to_set preds ∖ list_to_set (ordem st) : gset Z)) as Hpin
      by set_solver.
    rewrite Hvazio in Hpin. by apply not_elem_of_empty in Hpin.
Qed.

(** The loop returns; it stops on a state without free blocks or after
    [restam] placements. *)
Lemma toposort_laco_spec (restam : nat) (st : topo) (g : G) :
  topo_ok inst st →
  ∃ st' g', toposort_laco inst restam st g = Ok (st', g') ∧
            topo_ok inst st' ∧
            (livres inst st' = [] ∨
             length (ordem st') = (length (ordem st) + restam)%nat).
Proof using Hbf.
  revert st g. induction restam as [|restam IH]; intros st g Hst; simpl.
  - exists st, g. split_and!; [done..|]. right. lia.
  - destruct (livres inst st) as [|b0 resto] eqn:Hlivres.
    { exists st, g. split_and!; [done..|]. by left. }
    destruct (choice_Ok (b0 :: resto) g) as (b & g1 & -> & Hb); [done|]. simpl.
    rewrite <-Hlivres in Hb.
    destruct (topo_passo st b Hst Hb) as (succs & d & Hsuccs & Hd & Hst1).
    rewrite (proj2 (item_Ok _ _ _) Hsuccs). simpl. rewrite Hd. simpl.
    destruct (IH _ g1 Hst1) as (st' & g' & -> & Hst' & Hfim).
    exists st', g'. split_and!; [done..|].
    destruct Hfim as [|Hlen]; [by left|right].
    rewrite Hlen. simpl. rewrite length_app. simpl. lia.
Qed.

Lemma toposort_ordem_spec (g : G) :
  ∃ st g', toposort_ordem inst g = Ok (ordem st, g') ∧ topo_ok inst st ∧
           (livres inst st = [] ∨ length (ordem st) = length (ids inst)).
Proof using Hbf.
  destruct topo_ok_inicial as (d & Hd & Hst0).
  destruct (toposort_laco_spec (length (ids inst)) _ g Hst0)
    as (st & g' & Hlaco & Hst & Hfim).
  exists st, g'. split_and!; [|done..].
  unfold toposort_ordem. rewrite Hd. simpl. by rewrite Hlaco.
Qed.

(** *** Without cycles every block is placed *)

Lemma tc_flip_precede (x y : Z) :
  tc (flip (precede inst)) x y → tc (precede inst) y x.
Proof.
  induction 1 as [x y Hxy|x y z Hxy _ IH]; [by apply tc_once|].
  eapply tc_r; [exact IH|exact Hxy].
Qed.

Lemma precede_Acc (u : Z) : aciclico inst → Acc (precede inst) u.
Proof using Hbf.
  intros Hac. apply (tc_finite_sn (R:=flip (precede inst)) u).
  - intros x Hx%tc_flip_precede. by apply (Hac x).
  - exists (ids inst). intros x Hx.
    induction Hx as [x y Hxy|x y z Hxy _ IH]; [|done].
    by apply (bf_fechado inst Hbf y x).
Qed.

(** A block that is not placed leads, down its predecessors, to one that
    is not placed while all its predecessors are. *)
Lemma bloco_livre_existe (o : list Z) (u : Z) :
  Acc (precede inst) u → u ∈ ids inst → u ∉ o →
  ∃ u' preds, u' ∈ ids inst ∧ (u' ∉ o) ∧ preds_dict inst !! u' = Some preds ∧
              ∀ p, p ∈ preds → p ∈ o.
Proof using Hbf.
  induction 1 as [u _ IH]. intros Hu Hno.
  destruct (proj1 (bf_preds inst Hbf u) Hu) as [preds Hpreds].
  destruct (decide (Forall (λ p, p ∈ o) preds)) as [Hall|Hex].
  - exists u, preds. split_and!; [done..|]. by apply Forall_forall.
  - apply not_Forall_Exists in Hex; [|apply _].
    apply Exists_exists in Hex as (p & Hp & Hpo).
    assert (precede inst p u) as Hpu by by exists preds.
    apply (IH p Hpu); [by apply (bf_fechado inst Hbf p u)|done].
Qed.

Lemma sem_livres_tudo_colocado (st : topo) :
  aciclico inst → topo_ok inst st → livres inst st = [] →
  ∀ u, u ∈ ids inst → u ∈ ordem st.
Proof using Hbf.
  intros Hac (Hnd & Hvis & Hids & Hrest & Hfact) Hlivres u Hu.
  destruct (decide (u ∈ ordem st)) as [|Hno]; [done|exfalso].
  destruct (bloco_livre_existe (ordem st) u) as (u' & preds & Hu' & Hno' & Hp & Hall);
    [by apply precede_Acc|done..|].
  eapply (filter_nil_not_elem_of _ _ u' Hlivres); [|by apply elem_of_chaves].
  split.
  - destruct (Hrest u' Hu') as (ps & Hps & ->). f_equal.
    assert (ps = preds) as -> by congruence.
    apply set_eq. intros x. rewrite elem_of_difference, !elem_of_list_to_set.
    split; [intros [Hx Hnx]; destruct Hnx; by apply Hall|].
    by intros ?%not_elem_of_empty.
  - by rewrite Hvis, elem_of_list_to_set.
Qed.

Lemma ordem_completa (st : topo) :
  topo_ok inst st → length (ordem st) = length (ids inst) →
  ∀ u, u ∈ ids inst → u ∈ ordem st.
Proof.
  intros (Hnd & _ & Hids & _) Hlen u Hu.
  assert (ordem st ≡ₚ chaves (ids inst)) as Hperm.
  { apply submseteq_length_Permutation.
    - apply NoDup_submseteq; [done|]. intros x Hx. by apply elem_of_chaves, Hids.
    - rewrite Hlen. apply length_chaves_aux. }
  rewrite Hperm. by apply elem_of_chaves.
Qed.

(** The evaluator returns on every sequence of ids, as long as the
    discount factors exist. *)
Lemma vpl_estado_total (taxa capacidade : F) (s : list Z) :
  desconto_regular taxa → (∀ b, b ∈ s → b ∈ ids inst) →
  ∃ st, vpl_estado inst taxa capacidade s = Ok st.
Proof using Hbf.
  intros Hreg Hs. unfold vpl_estado.
  destruct (para_total (vpl_passo inst taxa capacidade) (λ st, 1 ≤ ano st) s)
    with (s := @avaliacao_inicial F _) as (st & Hst & _); [|simpl; lia|by eexists].
  intros st b Hb Hano. specialize (Hs b Hb). unfold vpl_passo.
  destruct (proj1 (bf_preds inst Hbf b) Hs) as [preds ->%item_Ok]. simpl.
  destruct (todos_visitados (visitados st) preds); [|by exists st].
  destruct (proj1 (bf_dest inst Hbf b) Hs) as [dest ->%item_Ok]. simpl.
  destruct (proj1 (bf_tonn inst Hbf b) Hs) as [ton ->%item_Ok]. simpl.
  destruct (proj1 (bf_val_ore inst Hbf b) Hs) as [val ->%item_Ok]. simpl.
  assert (1 ≤ (caixa_e_periodo capacidade st dest ton val).1.2) as Hano'.
  { unfold caixa_e_periodo. repeat case_match; simpl; lia. }
  destruct (caixa_e_periodo capacidade st dest ton val) as [[cash ano'] ton'].
  simpl in Hano'. destruct (Hreg (ano' - 1)) as (fator & -> & Hz); [lia|].
  simpl. unfold n_div. rewrite Hz. simpl. eexists. split; [done|]. simpl. lia.
Qed.

End Baseline_props.

(** What the feasibility check establishes: each listed predecessor of a
    block stands at an earlier position. *)
Lemma verificar_laco_posicoes {F} (inst : MineLibCPIT F) (l : list Z)
    (vis : gset Z) :
  verificar_laco inst vis l = Ok true →
  ∀ i b preds p,
    l !! i = Some b → preds_dict inst !! b = Some preds → p ∈ preds →
    p ∈ vis ∨ ∃ j, (j < i)%nat ∧ l !! j = Some p.
Proof.
  revert vis. induction l as [|x l IH]; intros vis Hl i b preds p Hi Hb Hp;
    [done|].
  simpl in Hl. apply bind_Ok in Hl as (px & Hx%item_Ok & Hl).
  destruct (falta_pred vis px) eqn:Hfalta; [done|].
  destruct i as [|i]; simpl in Hi.
  - injection Hi as ->. left. assert (px = preds) as -> by congruence.
    by apply (proj1 (falta_pred_false _ _) Hfalta).
  - destruct (IH _ Hl i b preds p Hi Hb Hp) as [Hin|(j & Hj & Hlj)].
    + apply elem_of_union in Hin as [->%elem_of_singleton|Hin]; [|by left].
      right. exists O. split; [lia|done].
    + right. exists (S j). split; [lia|done].
Qed.

Lemma verificar_factibilidade_posicoes {F} (inst : MineLibCPIT F) (o : list Z) :
  verificar_factibilidade inst o = Ok true →
  ∀ i b preds p,
    o !! i = Some b → preds_dict inst !! b = Some preds → p ∈ preds →
    ∃ j, (j < i)%nat ∧ o !! j = Some p.
Proof.
  intros Ho i b preds p Hi Hb Hp.
  destruct (verificar_laco_posicoes inst o ∅ Ho i b preds p Hi Hb Hp)
    as [[]%not_elem_of_empty|]; done.
Qed.

Lemma baseline_toposort_Ok {G F} `{Numero F} `{Aleatorio G F}
    (inst : MineLibCPIT F) (g g' : G) (o : list Z) (v : F) :
  baseline_toposort inst g = Ok (o, v, g') → toposort_ordem inst g = Ok (o, g').
Proof.
  unfold baseline_toposort.
  by intros ([o' g''] & -> & (v' & _ & [= -> _ ->])%bind_Ok)%bind_Ok.
Qed.

(** C10: on every loaded model, cyclic or not, the baseline finds an
    order, and the order it returns passes the feasibility check: it
    places distinct ids, each after all its listed predecessors. *)
Theorem baseline_factivel {G F} `{Numero F} `{Aleatorio G F}
    (inst : MineLibCPIT F) (g : G) :
  carregada inst →
  (∃ o g', toposort_ordem inst g = Ok (o, g') ∧
           verificar_factibilidade inst o = Ok true) ∧
  (∀ o v g',
     baseline_toposort inst g = Ok (o, v, g') →
     verificar_factibilidade inst o = Ok true ∧
     NoDup o ∧ (∀ b, b ∈ o → b ∈ ids inst) ∧
     ∀ i b preds p,
       o !! i = Some b → preds_dict inst !! b = Some preds → p ∈ preds →
       ∃ j, (j < i)%nat ∧ o !! j = Some p).
Proof.
  intros Hbf%carregada_bem_formada.
  destruct (toposort_ordem_spec inst Hbf g)
    as (st & g1 & Hord & (Hnd & _ & Hids & _ & Hfact) & _).
  split; [by exists (ordem st), g1|].
  intros o v g' Hbase%baseline_toposort_Ok.
  assert (o = ordem st) as -> by congruence.
  split_and!; [done..|]. by apply verificar_factibilidade_posicoes.
Qed.

Lemma baseline_factivel_witness :
  (∃ o (g' : Z), toposort_ordem inst_ciclo 7 = Ok (o, g') ∧
                 verificar_factibilidade inst_ciclo o = Ok true) ∧
  (∃ v (g' : Z), baseline_toposort inst_ciclo 7 = Ok ([0], v, g')) ∧
  verificar_factibilidade inst_ciclo [0] = Ok true.
Proof.
  assert (carregada inst_ciclo) as Hc
    by (exists df_ciclo, df_ciclo; vm_compute; reflexivity).
  assert (∃ v (g' : Z), baseline_toposort inst_ciclo 7 = Ok ([0], v, g'))
    as (v & g' & Hrun) by (eexists _, _; vm_compute; reflexivity).
  destruct (baseline_factivel (G:=Z) inst_ciclo 7 Hc) as [Hex Hall].
  split; [exact Hex|]. split; [by exists v, g'|].
  exact (proj1 (Hall [0] v g' Hrun)).
Defined.

(** *** Acyclic models *)

(** A ranking that grows along the precedence relation rules cycles out. *)
Lemma aciclico_por_ordem {F} (inst : MineLibCPIT F) (rank : Z → Z) :
  (∀ p b, precede inst p b → rank p < rank b) → aciclico inst.
Proof.
  intros Hrank b Hb.
  assert (∀ x y, tc (precede inst) x y → rank x < rank y) as Htc.
  { induction 1 as [x y Hxy|x y z Hxy _ IH]; [by apply Hrank|].
    specialize (Hrank x y Hxy). lia. }
  specialize (Htc b b Hb). lia.
Qed.

Lemma inst_exemplo_aciclico : aciclico inst_exemplo.
Proof.
  apply (aciclico_por_ordem inst_exemplo id). intros p b (preds & Hb & Hp).
  assert (b ∈ ids inst_exemplo) as Hin.
  { apply (carregada_bem_formada _ inst_exemplo_carregada). by eexists. }
  unfold id. simpl in Hin.
  repeat (apply elem_of_cons in Hin as [->|Hin]);
    [..|by apply elem_of_nil in Hin];
    vm_compute in Hb; injection Hb as <-;
    repeat (apply elem_of_cons in Hp as [->|Hp]); try lia;
    by apply elem_of_nil in Hp.
Qed.

Lemma desconto_regular_Q (taxa : Q) : (0 <= taxa)%Q → desconto_regular taxa.
Proof.
  intros Htaxa k Hk. eexists. split; [reflexivity|]. apply n_e_zero_Q.
  intros Hz. assert (0 < (1 + taxa) ^ k)%Q as Hpos.
  { apply Qpower_0_lt. apply Qlt_le_trans with (1 + 0)%Q; [done|].
    apply Qplus_le_r, Htaxa. }
  unfold n_add, n_um, n_lit in Hz. simpl in Hz. rewrite Hz in Hpos.
  by apply Qlt_irrefl in Hpos.
Qed.

(** C8: on a loaded model (every listed predecessor is an id) without
    cycles, the baseline finds an order with every block id exactly once
    that passes the feasibility check, and returns it with its value
    whenever the discount factors exist. *)
Theorem baseline_completo {G F} `{Numero F} `{Aleatorio G F}
    (inst : MineLibCPIT F) (g : G) :
  carregada inst →
  aciclico inst →
  ∃ o g', toposort_ordem inst g = Ok (o, g') ∧
          permutacao_ids inst o ∧
          verificar_factibilidade inst o = Ok true ∧
          (desconto_regular (@taxa_padrao F _) →
           ∃ v, baseline_toposort inst g = Ok (o, v, g')).
Proof.
  intros Hbf%carregada_bem_formada Hac.
  destruct (toposort_ordem_spec inst Hbf g) as (st & g1 & Hord & Hst & Hfim).
  pose proof Hst as (Hnd & _ & Hids & _ & Hfact).
  exists (ordem st), g1. split_and!; [done| |done|].
  - split; [done|]. intros x. split; [apply Hids|].
    destruct Hfim as [Hlivres|Hlen].
    + by apply sem_livres_tudo_colocado.
    + by apply ordem_completa.
  - intros Hreg. unfold baseline_toposort. rewrite Hord. simpl.
    destruct (vpl_estado_total inst Hbf taxa_padrao capacidade_padrao (ordem st))
      as (ev & Hev); [done..|].
    unfold calcular_vpl. rewrite Hev. simpl. by eexists.
Qed.

Lemma baseline_completo_witness :
  ∃ o (g' : Z), toposort_ordem inst_exemplo 7 = Ok (o, g') ∧
                permutacao_ids inst_exemplo o ∧
                verificar_factibilidade inst_exemplo o = Ok true ∧
                ∃ v, baseline_toposort inst_exemplo 7 = Ok (o, v, g').
Proof.
  assert (carregada inst_exemplo) as Hc
    by (exists df_exemplo, df_exemplo; vm_compute; reflexivity).
  destruct (baseline_completo (G:=Z) inst_exemplo 7 Hc inst_exemplo_aciclico)
    as (o & g' & Hord & Hperm & Hfact & Hval).
  exists o, g'. split; [exact Hord|]. split; [exact Hperm|].
  split; [exact Hfact|]. apply Hval, desconto_regular_Q. vm_compute. discriminate.
Defined.
(** * Further properties of the scheduler *)

(** ** The feasibility check *)

Lemma verificar_laco_chaves {F} (inst : MineLibCPIT F) (l : list Z) (vis : gset Z) :
  verificar_laco inst vis l = Ok true →
  ∀ b, b ∈ l → is_Some (preds_dict inst !! b).
Proof.
  revert vis. induction l as [|x l IH]; intros vis Hl b Hb;
    [by apply elem_of_nil in Hb|].
  simpl in Hl. apply bind_Ok in Hl as (px & Hx%item_Ok & Hl).
  destruct (falta_pred vis px); [done|].
  apply elem_of_cons in Hb as [->|Hb]; [by eexists|by eapply IH].
Qed.

Lemma verificar_laco_de_posicoes {F} (inst : MineLibCPIT F) (l : list Z)
    (vis : gset Z) :
  (∀ i b, l !! i = Some b →
     ∃ preds, preds_dict inst !! b = Some preds ∧
              ∀ p, p ∈ preds → p ∈ vis ∨ ∃ j, (j < i)%nat ∧ l !! j = Some p) →
  verificar_laco inst vis l = Ok true.
Proof.
  revert vis. induction l as [|x l IH]; intros vis Hl; simpl; [done|].
  destruct (Hl O x eq_refl) as (px & Hx & Hpx).
  rewrite (proj2 (item_Ok _ _ _) Hx). simpl.
  rewrite (proj2 (falta_pred_false vis px)).
  - apply IH. intros i b Hi. destruct (Hl (S i) b Hi) as (preds & Hb & Hp).
    exists preds. split; [done|]. intros p Hin.
    destruct (Hp p Hin) as [Hv|([|j] & Hj & Hlj)].
    + left. set_solver.
    + left. injection Hlj as ->. set_solver.
    + right. exists j. split; [lia|done].
  - intros p Hin. destruct (Hpx p Hin) as [|(j & Hj & _)]; [done|lia].
Qed.

(** X1: the check answers [True] exactly on the sequences whose blocks
    are all known to the model and come after each of their listed
    predecessors. *)
Theorem verificar_factibilidade_caracteriza {F} (inst : MineLibCPIT F) (o : list Z) :
  verificar_factibilidade inst o = Ok true ↔
  ∀ i b, o !! i = Some b →
    ∃ preds, preds_dict inst !! b = Some preds ∧
             ∀ p, p ∈ preds → ∃ j, (j < i)%nat ∧ o !! j = Some p.
Proof.
  split.
  - intros Ho i b Hi.
    destruct (verificar_laco_chaves inst o ∅ Ho b) as [preds Hb];
      [by eapply list_elem_of_lookup_2|].
    exists preds. split; [done|]. intros p Hp.
    by eapply verificar_factibilidade_posicoes.
  - intros Ho. apply verificar_laco_de_posicoes. intros i b Hi.
    destruct (Ho i b Hi) as (preds & Hb & Hp). exists preds. split; [done|].
    intros p Hin. right. by apply Hp.
Qed.

Lemma verificar_factibilidade_caracteriza_witness :
  ∃ preds, preds_dict inst_cadeia !! 2 = Some preds ∧
           ∀ p, p ∈ preds → ∃ j, (j < 2)%nat ∧ [0; 1; 2] !! j = Some p.
Proof.
  refine (proj1 (verificar_factibilidade_caracteriza inst_cadeia [0; 1; 2])
            _ 2%nat 2 eq_refl).
  vm_compute. reflexivity.
Defined.

(** ** Repair on arbitrary input *)

Lemma verificar_laco_Raise {F} (inst : MineLibCPIT F) (l : list Z) (vis : gset Z)
    (e : erro) :
  verificar_laco inst vis l = Raise e →
  e = KeyError ∧ ∃ b, b ∈ l ∧ preds_dict inst !! b = None.
Proof.
  revert vis. induction l as [|x l IH]; intros vis; simpl; [done|].
  unfold item. destruct (preds_dict inst !! x) as [px|] eqn:Hx; simpl.
  - destruct (falta_pred vis px); [done|]. intros (-> & b & Hb & Hnone)%IH.
    split; [done|]. exists b. split; [by right|done].
  - intros [= <-]. split; [done|]. exists x. split; [by left|done].
Qed.

Lemma para_reparar_Raise {F} (inst : MineLibCPIT F) (l : list Z) (st : reparo) :
  (∃ b, b ∈ l ∧ preds_dict inst !! b = None) →
  para (reparar_passo inst) st l = Raise KeyError.
Proof.
  revert st. induction l as [|x l IH]; intros st (b & Hb & Hnone);
    [by apply elem_of_nil in Hb|].
  simpl. destruct (preds_dict inst !! x) as [px|] eqn:Hx.
  - rewrite (reparar_passo_eq inst st x px Hx). simpl. apply IH.
    exists b. split; [|done]. apply elem_of_cons in Hb as [->|Hb]; [congruence|done].
  - unfold reparar_passo, item. by rewrite Hx.
Qed.

Lemma reparar_solucao_casos {F} (inst : MineLibCPIT F) (s : list Z) :
  (∃ b, b ∈ s ∧ preds_dict inst !! b = None) ∧
    reparar_solucao inst s = Raise KeyError
  ∨ (∀ b, b ∈ s → is_Some (preds_dict inst !! b)) ∧
    ∃ r, reparar_solucao inst s = Ok r ∧ NoDup r ∧ ∀ y, y ∈ r ↔ emitido inst s y.
Proof.
  destruct (decide (Exists (λ b, preds_dict inst !! b = None) s)) as [Hex|Hall].
  - apply Exists_exists in Hex. left. split; [done|].
    unfold reparar_solucao. by rewrite para_reparar_Raise.
  - right. assert (∀ b, b ∈ s → is_Some (preds_dict inst !! b)) as Hkeys.
    { intros b Hb. destruct (preds_dict inst !! b) eqn:Hl; [by eexists|].
      destruct Hall. apply Exists_exists. by exists b. }
    split; [done|].
    destruct (para_reparar inst s ([], ∅) reparo_ok_inicial Hkeys)
      as (st & Hst & [Hnd _] & Hel).
    exists st.1. split_and!; [unfold reparar_solucao; by rewrite Hst|done|].
    intros y. rewrite Hel. simpl. rewrite elem_of_nil. naive_solver.
Qed.

(** X2: on any input sequence, with repetitions or not, the repair
    raises [KeyError] exactly when some block of the sequence is unknown
    to the model, and raises nothing else; otherwise it returns the blocks
    of the sequence and their listed predecessors, each exactly once. *)
Theorem reparar_solucao_comportamento {F} (inst : MineLibCPIT F) (s : list Z) :
  (reparar_solucao inst s = Raise KeyError ↔
     ∃ b, b ∈ s ∧ preds_dict inst !! b = None) ∧
  (∀ e, reparar_solucao inst s = Raise e → e = KeyError) ∧
  (∀ r, reparar_solucao inst s = Ok r →
     NoDup r ∧ ∀ y, y ∈ r ↔ emitido inst s y).
Proof.
  destruct (reparar_solucao_casos inst s)
    as [[Hex Hr]|[Hkeys (r & Hr & Hnd & Hel)]]; rewrite Hr.
  - split_and!; [done|by intros e [= <-]|done].
  - split_and!; [|done|by intros r' [= <-]].
    split; [done|]. intros (b & Hb & Hnone). destruct (Hkeys b Hb) as [? ?].
    congruence.
Qed.

Lemma reparar_solucao_comportamento_witness :
  reparar_solucao inst_cadeia [0; 9] = Raise KeyError.
Proof.
  apply (proj2 (proj1 (reparar_solucao_comportamento inst_cadeia [0; 9]))).
  exists 9. split; [set_solver|]. vm_compute. reflexivity.
Defined.

(** X3: on a sequence without repetitions the guard
    [if not self.verificar_factibilidade(s)] changes nothing: checking
    first and repairing only on failure gives what repairing always
    gives, errors included. *)
Theorem reparo_condicional_redundante {F} (inst : MineLibCPIT F) (s : list Z) :
  NoDup s → reparar_se_preciso inst s = reparar_solucao inst s.
Proof.
  intros Hnd. unfold reparar_se_preciso.
  destruct (verificar_factibilidade inst s) as [[|]|e] eqn:Hv; simpl.
  - symmetry. by apply reparar_solucao_factivel.
  - done.
  - apply verificar_laco_Raise in Hv as (-> & Hex).
    destruct (reparar_solucao_casos inst s) as [[_ ->]|[Hkeys _]]; [done|].
    destruct Hex as (b & Hb & Hnone). destruct (Hkeys b Hb) as [? ?]. congruence.
Qed.

Lemma reparo_condicional_redundante_witness :
  reparar_se_preciso inst_cadeia [2; 1; 0] = reparar_solucao inst_cadeia [2; 1; 0].
Proof.
  apply (reparo_condicional_redundante inst_cadeia [2; 1; 0]).
  apply (bool_decide_unpack _). vm_compute. reflexivity.
Defined.

(** With a repeated block the guard does matter. *)
Lemma reparo_condicional_com_repeticao :
  reparar_se_preciso inst_cadeia [0; 0] = Ok [0; 0] ∧
  reparar_solucao inst_cadeia [0; 0] = Ok [0].
Proof. split; vm_compute; reflexivity. Qed.

(** ** Repair on one-level precedence *)

Section Reparo_raso.
Context {F : Type} (inst : MineLibCPIT F).
Hypothesis Hraso : ∀ p b, precede inst p b → preds_dict inst !! p = Some [].

Lemma emitir_sem_preds (st : reparo) (p : Z) :
  preds_dict inst !! p = Some [] →
  verificar_laco inst ∅ st.1 = Ok true →
  verificar_laco inst ∅ (emitir st p).1 = Ok true.
Proof.
  intros Hp Hst. unfold emitir. case_bool_decide; [done|]. simpl.
  eapply verificar_laco_snoc; [done..|]. by intros q ?%elem_of_nil.
Qed.

Lemma injetar_factivel (preds : list Z) (st : reparo) :
  (∀ p, p ∈ preds → preds_dict inst !! p = Some []) →
  verificar_laco inst ∅ st.1 = Ok true →
  verificar_laco inst ∅ (foldl emitir st preds).1 = Ok true.
Proof.
  revert st. induction preds as [|p preds IH]; intros st Hps Hst; simpl; [done|].
  apply IH; [intros q Hq; apply Hps; by right|].
  apply emitir_sem_preds; [apply Hps; by left|done].
Qed.

Lemma reparar_passo_factivel (st st' : reparo) (b : Z) :
  reparo_ok st → verificar_laco inst ∅ st.1 = Ok true →
  reparar_passo inst st b = Ok st' →
  reparo_ok st' ∧ verificar_laco inst ∅ st'.1 = Ok true.
Proof using Hraso.
  intros Hok Hst Hpasso. split; [by eapply reparar_passo_ok|].
  apply bind_Ok in Hpasso as (preds & Hb%item_Ok & [= <-]).
  assert (verificar_laco inst ∅ (foldl emitir st preds).1 = Ok true) as Hinj.
  { apply injetar_factivel; [|done]. intros p Hp. apply (Hraso p b).
    by exists preds. }
  unfold emitir at 1. case_bool_decide; [done|]. simpl.
  eapply verificar_laco_snoc; [done..|].
  intros p Hp. right. apply elem_of_foldl_emitir; auto.
Qed.

Lemma reparar_raso_factivel (s r : list Z) :
  reparar_solucao inst s = Ok r → verificar_factibilidade inst r = Ok true.
Proof using Hraso.
  intros (st & Hst & <-)%fmap_Ok.
  eapply (para_inv _ (λ st, reparo_ok st ∧ verificar_laco inst ∅ st.1 = Ok true))
    in Hst; [apply Hst| |split; [apply reparo_ok_inicial|done]].
  intros st0 b st1 _ [Hok Hv] Hpasso. by eapply reparar_passo_factivel.
Qed.

End Reparo_raso.

(** X4: when no listed predecessor has predecessors of its own, whatever
    the repair returns passes the feasibility check. *)
Theorem reparar_factivel_em_um_nivel {F} (inst : MineLibCPIT F) (s r : list Z) :
  (∀ p b, precede inst p b → preds_dict inst !! p = Some []) →
  reparar_solucao inst s = Ok r →
  verificar_factibilidade inst r = Ok true.
Proof. intros Hraso Hr. by eapply reparar_raso_factivel. Qed.

Lemma inst_leque_um_nivel (p b : Z) :
  precede inst_leque p b → preds_dict inst_leque !! p = Some [].
Proof.
  intros (preds & Hb & Hp).
  assert (b ∈ [0; 1; 2]) as Hin.
  { assert (carregada inst_leque) as Hc
      by (exists df_leque, df_leque; vm_compute; reflexivity).
    apply (carregada_bem_formada _ Hc). by eexists. }
  repeat (apply elem_of_cons in Hin as [->|Hin]);
    [..|by apply elem_of_nil in Hin];
    vm_compute in Hb; injection Hb as <-;
    repeat (apply elem_of_cons in Hp as [->|Hp]);
    try (by apply elem_of_nil in Hp); vm_compute; reflexivity.
Qed.

Lemma reparar_factivel_em_um_nivel_witness :
  verificar_factibilidade inst_leque [0; 2; 1] = Ok true.
Proof.
  apply (reparar_factivel_em_um_nivel inst_leque [2; 1; 0] [0; 2; 1]).
  - exact inst_leque_um_nivel.
  - vm_compute. reflexivity.
Defined.

(** ** What the evaluator counts *)

Section Contagem.
Context {F : Type} `{Numero F}.
Variable inst : MineLibCPIT F.
Variables taxa capacidade : F.

Lemma falta_pred_todos (vis : gset Z) (preds : list Z) :
  falta_pred vis preds = negb (todos_visitados vis preds).
Proof.
  destruct (todos_visitados vis preds) eqn:Ht; simpl.
  - apply (proj2 (falta_pred_false vis preds)).
    by apply (proj1 (todos_visitados_true vis preds)).
  - destruct (falta_pred vis preds) eqn:Hf; [done|].
    pose proof (proj2 (todos_visitados_true vis preds)
                  (proj1 (falta_pred_false vis preds) Hf)). congruence.
Qed.

(** One block: it is skipped and the state stays, or it is counted, the
    period advances by at most one, and only for an ore block. *)
Lemma vpl_passo_casos (st st' : avaliacao) (b : Z) :
  vpl_passo inst taxa capacidade st b = Ok st' →
  ∃ preds, preds_dict inst !! b = Some preds ∧
    (todos_visitados (visitados st) preds = false ∧ st' = st
     ∨ todos_visitados (visitados st) preds = true ∧
       visitados st' = {[b]} ∪ visitados st ∧
       (ano st' = ano st ∨
        ano st' = ano st + 1 ∧ dest_dict inst !! b = Some 1)).
Proof.
  unfold vpl_passo. intros (preds & Hb%item_Ok & Hst)%bind_Ok.
  exists preds. split; [done|].
  destruct (todos_visitados (visitados st) preds); [|left; naive_solver].
  right. split; [done|].
  apply bind_Ok in Hst as (dest & Hd%item_Ok & Hst).
  apply bind_Ok in Hst as (ton & _ & Hst).
  apply bind_Ok in Hst as (val & _ & Hst).
  unfold caixa_e_periodo in Hst.
  destruct (Z.eqb_spec dest 1) as [->|Hne];
    [destruct (n_maior (n_add (ton_acumulada st) ton) capacidade)|];
    apply bind_Ok in Hst as (fator & _ & Hst);
    apply bind_Ok in Hst as (parcela & _ & [= <-]); simpl; auto.
Qed.

Lemma para_vpl_visitados (l : list Z) (st st' : avaliacao) :
  para (vpl_passo inst taxa capacidade) st l = Ok st' →
  visitados st ⊆ visitados st' ∧
  ∀ b, b ∈ visitados st' → b ∈ visitados st ∨ b ∈ l.
Proof.
  revert st. induction l as [|x l IH]; intros st; simpl.
  - intros [= <-]. split; [done|auto].
  - intros (st1 & H1 & Hrest)%bind_Ok.
    destruct (IH _ Hrest) as [Hsub Hel].
    destruct (vpl_passo_casos _ _ _ H1) as (preds & _ & [[_ ->]|(_ & Hv & _)]).
    + split; [done|]. intros b Hb. destruct (Hel b Hb); [auto|]. right. by right.
    + rewrite Hv in Hsub, Hel. split; [set_solver|]. intros b Hb.
      destruct (Hel b Hb) as [[->%elem_of_singleton|]%elem_of_union|].
      * right. by left.
      * by left.
      * right. by right.
Qed.

Lemma para_vpl_factivel (l : list Z) (st st' : avaliacao) :
  verificar_laco inst (visitados st) l = Ok true →
  para (vpl_passo inst taxa capacidade) st l = Ok st' →
  visitados st' = list_to_set l ∪ visitados st.
Proof.
  revert st. induction l as [|x l IH]; intros st; simpl.
  - intros _ [= <-]. set_solver.
  - intros (px & Hx%item_Ok & Hv)%bind_Ok (st1 & H1 & Hrest)%bind_Ok.
    rewrite falta_pred_todos in Hv.
    destruct (vpl_passo_casos _ _ _ H1) as (preds & Hp & [[Ht _]|(Ht & Hvis & _)]);
      assert (px = preds) as -> by congruence; rewrite Ht in Hv; [done|].
    simpl in Hv. rewrite <-Hvis in Hv. rewrite (IH _ Hv Hrest), Hvis. set_solver.
Qed.

Lemma para_vpl_tudo_contado (l : list Z) (st st' : avaliacao) :
  NoDup l → (∀ b, b ∈ l → b ∉ visitados st) →
  para (vpl_passo inst taxa capacidade) st l = Ok st' →
  (∀ b, b ∈ l → b ∈ visitados st') →
  verificar_laco inst (visitados st) l = Ok true.
Proof.
  revert st. induction l as [|x l IH]; intros st Hnd Hdisj; simpl; [done|].
  intros (st1 & H1 & Hrest)%bind_Ok Hall.
  apply NoDup_cons in Hnd as [Hx Hnd].
  destruct (vpl_passo_casos _ _ _ H1) as (preds & Hp & [[Ht ->]|(Ht & Hvis & _)]).
  - exfalso. destruct (proj2 (para_vpl_visitados _ _ _ Hrest) x) as [Hin|Hin].
    + apply Hall. by left.
    + apply (Hdisj x); [by left|done].
    + done.
  - rewrite (proj2 (item_Ok _ _ _) Hp). simpl. rewrite falta_pred_todos, Ht. simpl.
    rewrite <-Hvis. apply IH; [done| |done|].
    + intros b Hb. rewrite Hvis. intros [->%elem_of_singleton|Hin]%elem_of_union;
        [done|]. apply (Hdisj b); [by right|done].
    + intros b Hb. apply Hall. by right.
Qed.

End Contagem.

(** X5: the evaluator counts only blocks of the sequence, and on a
    sequence without repetitions it counts every block exactly when the
    sequence passes the feasibility check: the value of an infeasible
    solution always leaves some block out. *)
Theorem vpl_conta_tudo_sse_factivel {F} `{Numero F} (inst : MineLibCPIT F)
    (taxa capacidade : F) (s : list Z) (st : avaliacao) :
  NoDup s →
  vpl_estado inst taxa capacidade s = Ok st →
  (∀ b, b ∈ visitados st → b ∈ s) ∧
  (verificar_factibilidade inst s = Ok true ↔ ∀ b, b ∈ s → b ∈ visitados st).
Proof.
  intros Hnd Hst. split.
  - intros b Hb. destruct (proj2 (para_vpl_visitados _ _ _ _ _ _ Hst) b Hb)
      as [[]%not_elem_of_empty|]; done.
  - split.
    + intros Hv b Hb.
      rewrite (para_vpl_factivel inst taxa capacidade s avaliacao_inicial st Hv Hst).
      set_solver.
    + intros Hall.
      apply (para_vpl_tudo_contado inst taxa capacidade s avaliacao_inicial st);
        [done| |done..].
      intros b _. simpl. apply not_elem_of_empty.
Qed.

Lemma vpl_conta_tudo_sse_factivel_witness :
  ∃ st, vpl_estado inst_cadeia (15 # 100)%Q 15%Q [1; 2; 0] = Ok st ∧
        (∀ b, b ∈ visitados st → b ∈ [1; 2; 0]) ∧
        (verificar_factibilidade inst_cadeia [1; 2; 0] = Ok true ↔
         ∀ b, b ∈ [1; 2; 0] → b ∈ visitados st).
Proof.
  eexists. split; [vm_compute; reflexivity|].
  apply (vpl_conta_tudo_sse_factivel inst_cadeia (15 # 100)%Q 15%Q [1; 2; 0]).
  - apply (bool_decide_unpack _). vm_compute. reflexivity.
  - vm_compute. reflexivity.
Defined.

(** ** Periods *)

Lemma para_vpl_periodos {F} `{Numero F} (inst : MineLibCPIT F)
    (taxa capacidade : F) (l : list Z) (st st' : avaliacao) :
  para (vpl_passo inst taxa capacidade) st l = Ok st' →
  ano st ≤ ano st' ≤
    ano st + Z.of_nat (length (filter (λ b, dest_dict inst !! b = Some 1) l)).
Proof.
  revert st. induction l as [|x l IH]; intros st; simpl.
  - intros [= <-]. lia.
  - intros (st1 & H1 & Hrest)%bind_Ok. specialize (IH _ Hrest).
    destruct (vpl_passo_casos _ _ _ _ _ _ H1)
      as (preds & _ & [[_ ->]|(_ & _ & [Ha|[Ha Hd]])]).
    + rewrite filter_cons. case_decide; simpl; lia.
    + rewrite filter_cons. case_decide; simpl; lia.
    + rewrite filter_cons, decide_True by done. simpl. lia.
Qed.

(** X6: periods are numbered from 1 and never go back; between two
    points of the scan the period advances by at most the number of ore
    blocks scanned in between, so waste alone never opens a period. *)
Theorem vpl_periodos {F} `{Numero F} (inst : MineLibCPIT F)
    (taxa capacidade : F) (pre suf : list Z) (st' : avaliacao) :
  vpl_estado inst taxa capacidade (pre ++ suf) = Ok st' →
  ∃ st, vpl_estado inst taxa capacidade pre = Ok st ∧
        1 ≤ ano st ∧
        ano st ≤ ano st' ≤
          ano st
          + Z.of_nat (length (filter (λ b, dest_dict inst !! b = Some 1) suf)).
Proof.
  unfold vpl_estado. rewrite para_app. intros (st & Hpre & Hsuf)%bind_Ok.
  exists st. split; [done|]. split; [|by eapply para_vpl_periodos].
  apply para_vpl_periodos in Hpre. simpl in Hpre. lia.
Qed.

Lemma vpl_periodos_witness :
  ∃ st, vpl_estado inst_exemplo (15 # 100)%Q 15%Q [0; 1] = Ok st ∧
        1 ≤ ano st ∧ ano st ≤ 2 ≤ ano st + 2.
Proof.
  refine (vpl_periodos inst_exemplo (15 # 100)%Q 15%Q [0; 1] [2; 3]
            {| ano := 2; ton_acumulada := (0 + 10 + 5)%Q;
               valor_total := (0 + (- (3 # 4) * 10 + 5) / 1
                               + - (3 # 4) * 10 / 1
                               + (- (3 # 4) * 10 + 8) / (1 + (15 # 100))
                               + (- (3 # 4) * 5 + 2) / (1 + (15 # 100)))%Q;
               visitados := {[3]} ∪ ({[2]} ∪ ({[1]} ∪ ({[0]} ∪ ∅))) |} _).
  vm_compute. reflexivity.
Defined.

(** ** Capacity, over the rationals *)

Lemma vpl_passo_capacidade (inst : MineLibCPIT Q) (taxa capacidade : Q)
    (st st' : avaliacao) (b : Z) :
  (∀ ton, dest_dict inst !! b = Some 1 → tonn_dict inst !! b = Some ton →
          (0 <= ton <= capacidade)%Q) →
  (0 <= ton_acumulada st <= capacidade)%Q →
  vpl_passo inst taxa capacidade st b = Ok st' →
  (0 <= ton_acumulada st' <= capacidade)%Q.
Proof.
  intros Hton Hst. unfold vpl_passo. intros (preds & _ & Hpasso)%bind_Ok.
  destruct (todos_visitados (visitados st) preds); [|by injection Hpasso as <-].
  apply bind_Ok in Hpasso as (dest & Hd%item_Ok & Hpasso).
  apply bind_Ok in Hpasso as (ton & Ht%item_Ok & Hpasso).
  apply bind_Ok in Hpasso as (val & _ & Hpasso).
  unfold caixa_e_periodo in Hpasso.
  destruct (Z.eqb_spec dest 1) as [->|Hne].
  - specialize (Hton ton Hd Ht).
    destruct (n_maior (n_add (ton_acumulada st) ton) capacidade) eqn:Hm;
      apply bind_Ok in Hpasso as (fator & _ & Hpasso);
      apply bind_Ok in Hpasso as (parcela & _ & [= <-]); simpl.
    + unfold n_zero. simpl. rewrite Qplus_0_l. exact Hton.
    + simpl in Hm. apply negb_false_iff, Qle_bool_iff in Hm. split; [|done].
      exact (Qplus_le_compat 0 _ 0 _ (proj1 Hst) (proj1 Hton)).
  - apply bind_Ok in Hpasso as (fator & _ & Hpasso).
    by apply bind_Ok in Hpasso as (parcela & _ & [= <-]).
Qed.

(** X7: in exact arithmetic, when no ore block of the sequence weighs
    more than the capacity, the ore tonnage accumulated in the current
    period stays between zero and the capacity all along the scan. *)
Theorem vpl_respeita_capacidade (inst : MineLibCPIT Q) (taxa capacidade : Q)
    (s : list Z) (st : avaliacao) :
  (0 <= capacidade)%Q →
  (∀ b ton, b ∈ s → dest_dict inst !! b = Some 1 →
            tonn_dict inst !! b = Some ton → (0 <= ton <= capacidade)%Q) →
  vpl_estado inst taxa capacidade s = Ok st →
  (0 <= ton_acumulada st <= capacidade)%Q.
Proof.
  intros Hcap Hton Hst.
  eapply (para_inv _ (λ st, (0 <= ton_acumulada st <= capacidade)%Q)) in Hst;
    [exact Hst| |by split].
  intros st0 b st1 Hb Hst0 Hpasso.
  eapply vpl_passo_capacidade; [|done..]. intros ton. by apply Hton.
Qed.

Lemma inst_exemplo_tonelagens (b : Z) (ton : Q) :
  b ∈ [0; 1; 2; 3] → tonn_dict inst_exemplo !! b = Some ton →
  (0 <= ton <= 15)%Q.
Proof.
  intros Hin Ht.
  repeat (apply elem_of_cons in Hin as [->|Hin]);
    [..|by apply elem_of_nil in Hin];
    vm_compute in Ht; injection Ht as <-; split; vm_compute; discriminate.
Qed.

Lemma vpl_respeita_capacidade_witness :
  ∃ st, vpl_estado inst_exemplo (15 # 100)%Q 15%Q [0; 1; 2; 3] = Ok st ∧
        (0 <= ton_acumulada st <= 15)%Q.
Proof.
  eexists. split; [vm_compute; reflexivity|].
  apply (vpl_respeita_capacidade inst_exemplo (15 # 100)%Q 15%Q [0; 1; 2; 3]).
  - vm_compute. discriminate.
  - intros b ton Hb _ Ht. exact (inst_exemplo_tonelagens b ton Hb Ht).
  - vm_compute. reflexivity.
Defined.

(** Without that condition the accumulator can exceed the capacity: a
    single ore block of tonnage 10 under capacity 5. *)
Lemma vpl_excede_capacidade :
  ∃ st, vpl_estado (inst_AB 0 0) (15 # 100)%Q 5%Q [0] = Ok st ∧
        ano st = 2 ∧ (5 < ton_acumulada st)%Q.
Proof. eexists. split_and!; vm_compute; reflexivity. Qed.

(** ** What a successful load establishes *)



Lemma atribuir_obter {F A} (df : DataFrame F) (nome : string)
    (campo : linha F → A) (por : linha F → A → linha F) (padrao : list A) :
  nome ∈ columns df → (∀ r, por r (campo r) = r) →
  atribuir df nome por (obter df nome campo padrao) = df.
Proof.
  intros Hnome Hpor. unfold atribuir, obter.
  rewrite !bool_decide_eq_true_2 by done.
  assert (zip_with por (linhas df) (campo <$> linhas df) = linhas df) as ->.
  { induction (linhas df) as [|r rows IH]; [done|].
    rewrite fmap_cons. simpl. by rewrite Hpor, IH. }
  by destruct df.
Qed.

(** X9: a load that succeeds found every one of the eight columns in
    the table and hands the table back as it was: the three fallback
    assignments at the end of [_preparar_dados] never change anything.
    The ids of the model are the [id] column, row by row. *)
Theorem carga_nao_altera_tabela {F} `{Numero F} (df df' : DataFrame F)
    (inst : MineLibCPIT F) :
  MineLibCPIT_init df = Ok (inst, df') →
  df' = df ∧ ids inst = l_id <$> linhas df ∧
  ∀ c, c ∈ todas_as_colunas → c ∈ columns df.
Proof.
  intros (u & Hval & Hprep)%bind_Ok.
  assert (∀ c, c ∈ colunas_basicas → c ∈ columns df) as Hbas.
  { intros c Hc. unfold _validar_colunas in Hval.
    destruct (decide (c ∈ columns df)) as [|Hnc]; [done|].
    assert (c ∈ filter (λ c, c ∉ columns df) colunas_basicas) as Hin
      by by apply list_elem_of_filter.
    destruct (filter _ colunas_basicas); [by apply elem_of_nil in Hin|done]. }
  unfold _preparar_dados in Hprep.
  apply bind_Ok in Hprep as (c_ids & [_ ->]%coluna_Ok & Hprep).
  apply bind_Ok in Hprep as (c_tonn & [Htonn _]%coluna_Ok & Hprep).
  apply bind_Ok in Hprep as (c_dest & [Hdest _]%coluna_Ok & Hprep).
  apply bind_Ok in Hprep as (c_val & [Hval_ore _]%coluna_Ok & Hprep).
  apply bind_Ok in Hprep as (preds & _ & Hprep).
  apply bind_Ok in Hprep as (succs & _ & [= <- <-]).
  split_and!; [|done|].
  - rewrite (atribuir_obter df "tonn") by (done || by intros []).
    rewrite (atribuir_obter df "val_ore") by (done || by intros []).
    by rewrite (atribuir_obter df "dest") by (done || by intros []).
  - intros c Hc. unfold todas_as_colunas in Hc.
    repeat (apply elem_of_cons in Hc as [->|Hc]);
      [..|by apply elem_of_nil in Hc];
      first [done|apply Hbas; unfold colunas_basicas; set_solver].
Qed.

Lemma carga_nao_altera_tabela_witness :
  df_exemplo = df_exemplo ∧ ids inst_exemplo = l_id <$> linhas df_exemplo ∧
  ∀ c, c ∈ todas_as_colunas → c ∈ columns df_exemplo.
Proof.
  apply (carga_nao_altera_tabela df_exemplo df_exemplo inst_exemplo).
  vm_compute. reflexivity.
Defined.

(** *** Repeated ids *)

Lemma dict_zip_ultimo {A V} (f : A → Z) (g : A → V) (l : list A) (k : Z) :
  dict_zip (f <$> l) (g <$> l) !! k = g <$> last (filter (λ r, f r = k) l).
Proof.
  unfold dict_zip. induction l as [|r l IH] using rev_ind; [done|].
  rewrite !fmap_app. simpl.
  rewrite zip_with_app by by rewrite !length_fmap.
  rewrite foldl_app. simpl. rewrite filter_app.
  destruct (decide (f r = k)) as [Hk|Hk].
  - rewrite Hk, lookup_insert_eq.
    rewrite (filter_cons_True (λ r, f r = k)) by done.
    simpl. rewrite filter_nil. by rewrite last_snoc.
  - rewrite lookup_insert_ne by done.
    rewrite (filter_cons_False (λ r, f r = k)) by done.
    rewrite filter_nil, app_nil_r. exact IH.
Qed.

(** X10: the loader does not reject a table in which an id comes twice:
    [ids] keeps one entry per row, and the tonnage, destination and value
    that the dicts give for an id are those of the last row with that id. *)
Theorem carga_ultima_linha_vence {F} `{Numero F} (df df' : DataFrame F)
    (inst : MineLibCPIT F) (k : Z) :
  MineLibCPIT_init df = Ok (inst, df') →
  ids inst = l_id <$> linhas df ∧
  tonn_dict inst !! k = l_tonn <$> last (filter (λ r, l_id r = k) (linhas df)) ∧
  dest_dict inst !! k = l_dest <$> last (filter (λ r, l_id r = k) (linhas df)) ∧
  val_ore_dict inst !! k
  = l_val_ore <$> last (filter (λ r, l_id r = k) (linhas df)).
Proof.
  intros (_ & _ & Hprep)%bind_Ok. unfold _preparar_dados in Hprep.
  apply bind_Ok in Hprep as (c_ids & [_ ->]%coluna_Ok & Hprep).
  apply bind_Ok in Hprep as (c_tonn & [_ ->]%coluna_Ok & Hprep).
  apply bind_Ok in Hprep as (c_dest & [_ ->]%coluna_Ok & Hprep).
  apply bind_Ok in Hprep as (c_val & [_ ->]%coluna_Ok & Hprep).
  apply bind_Ok in Hprep as (preds & _ & Hprep).
  apply bind_Ok in Hprep as (succs & _ & [= <- _]). simpl.
  split_and!; [done|apply dict_zip_ultimo..].
Qed.

(** Two rows with id 0, of tonnage 1 and 7. *)
Lemma carga_ultima_linha_vence_witness :
  ∃ inst df',
    MineLibCPIT_init
      {| columns := todas_as_colunas;
         linhas := [bloco 0 1%Q 1 1%Q "[]"; bloco 0 7%Q 1 1%Q "[]"] |}
    = Ok (inst, df') ∧
    ids inst = [0; 0] ∧ tonn_dict inst !! 0 = Some 7%Q.
Proof.
  eexists _, _. split; [vm_compute; reflexivity|].
  split; [vm_compute; reflexivity|].
  refine (proj1 (proj2 (carga_ultima_linha_vence
    {| columns := todas_as_colunas;
       linhas := [bloco 0 1%Q 1 1%Q "[]"; bloco 0 7%Q 1 1%Q "[]"] |}
    _ _ 0 _)) ).
  vm_compute. reflexivity.
Defined.

(** *** When a load succeeds *)

Section Carga_sucesso.
Context {F : Type} `{Numero F}.

Lemma validar_colunas_Ok (df : DataFrame F) :
  (∀ c, c ∈ colunas_basicas → c ∈ columns df) → _validar_colunas df = Ok ().
Proof.
  intros Hbas. unfold _validar_colunas.
  destruct (filter (λ c, c ∉ columns df) colunas_basicas) as [|c l] eqn:Hf;
    [done|].
  assert (c ∈ filter (λ c, c ∉ columns df) colunas_basicas) as Hc
    by (rewrite Hf; by left).
  apply list_elem_of_filter in Hc as [Hnc Hc]. destruct Hnc. by apply Hbas.
Qed.

Lemma ler_precedentes_laco (df : DataFrame F) (rows : list (linha F))
    (d : gmap Z (list Z)) :
  "id" ∈ columns df → "precedentes" ∈ columns df →
  (∀ r, r ∈ rows → ∃ l, valor_precedentes (l_precedentes r) = Ok l) →
  ∃ d',
    para (λ d row,
            if bool_decide ("id" ∈ columns df ∧ "precedentes" ∈ columns df) then
              preds ← valor_precedentes (l_precedentes row);
              Ok (<[l_id row := preds]> d)
            else Raise AttributeError) d rows = Ok d' ∧
    (∀ k, k ∉ l_id <$> rows → d' !! k = d !! k) ∧
    (∀ k l, d' !! k = Some l →
       d !! k = Some l ∨
       ∃ r, r ∈ rows ∧ l_id r = k ∧ valor_precedentes (l_precedentes r) = Ok l) ∧
    (NoDup (l_id <$> rows) →
     ∀ r l, r ∈ rows → valor_precedentes (l_precedentes r) = Ok l →
            d' !! l_id r = Some l).
Proof.
  intros Hid Hprec.
  remember (λ (d : gmap Z (list Z)) (row : linha F),
              if bool_decide ("id" ∈ columns df ∧ "precedentes" ∈ columns df) then
                preds ← valor_precedentes (l_precedentes row);
                Ok (<[l_id row := preds]> d)
              else Raise AttributeError) as corpo eqn:Hcorpo.
  revert d. induction rows as [|r0 rows IH]; intros d Hparse; simpl.
  - exists d. split_and!; [done|done|auto|]. by intros _ r l ?%elem_of_nil.
  - destruct (Hparse r0) as [l0 Hl0]; [by left|].
    assert (corpo d r0 = Ok (<[l_id r0 := l0]> d)) as ->.
    { rewrite Hcorpo, bool_decide_eq_true_2 by done. by rewrite Hl0. }
    simpl.
    destruct (IH (<[l_id r0 := l0]> d)) as (d' & -> & Hfora & Horigem & Hnd).
    { intros r Hr. apply Hparse. by right. }
    exists d'. split_and!; [done| | |].
    + intros k Hk. apply not_elem_of_cons in Hk as [Hne Hk]. rewrite (Hfora k Hk). by rewrite lookup_insert_ne.
    + intros k l Hkl. destruct (Horigem k l Hkl) as [Hd|(r & Hr & Hrk & Hrl)].
      * destruct (decide (l_id r0 = k)) as [<-|Hne].
        -- rewrite lookup_insert_eq in Hd. injection Hd as <-.
           right. exists r0. split_and!; [by left|done..].
        -- rewrite lookup_insert_ne in Hd by done. by left.
      * right. exists r. split_and!; [by right|done..].
    + intros [Hr0 Hrows]%NoDup_cons r l Hr Hl.
      apply elem_of_cons in Hr as [->|Hr]; [|by apply Hnd].
      rewrite (Hfora _ Hr0), lookup_insert_eq. congruence.
Qed.

Lemma anexar_sucessor_casos (b : Z) (succs : gmap Z (list Z)) (p : Z) :
  anexar_sucessor b succs p
  = match succs !! p with
    | Some l => Ok (<[p := l ++ [b]]> succs)
    | None => Raise KeyError
    end.
Proof. unfold anexar_sucessor, item. by destruct (succs !! p). Qed.

Lemma anexar_sucessores_erro (b : Z) (preds : list Z) (succs : gmap Z (list Z))
    (e : erro) :
  para (anexar_sucessor b) succs preds = Raise e → e = KeyError.
Proof.
  revert succs. induction preds as [|p preds IH]; intros succs; simpl; [done|].
  rewrite anexar_sucessor_casos. destruct (succs !! p); simpl;
    [apply IH|by intros [= <-]].
Qed.

Lemma calcular_sucessores_erro (ids : list Z) (preds_dict : gmap Z (list Z))
    (e : erro) :
  _calcular_sucessores ids preds_dict = Raise e → e = KeyError.
Proof.
  unfold _calcular_sucessores.
  generalize (foldl (λ d b, <[b := []]> d) (∅ : gmap Z (list Z)) ids).
  induction (chaves ids) as [|b keys IH]; intros succs; simpl; [done|].
  unfold item. destruct (preds_dict !! b) as [preds|]; simpl;
    [|by intros [= <-]].
  destruct (para (anexar_sucessor b) succs preds) as [s1|e1] eqn:Hin; simpl.
  - apply IH.
  - intros [= <-]. by eapply anexar_sucessores_erro.
Qed.

Lemma calcular_sucessores_total (ids : list Z) (preds_dict : gmap Z (list Z)) :
  (∀ b, b ∈ ids → is_Some (preds_dict !! b)) →
  (∀ b preds p, preds_dict !! b = Some preds → p ∈ preds → p ∈ ids) →
  ∃ succs, _calcular_sucessores ids preds_dict = Ok succs.
Proof.
  intros Hdom Hfech. unfold _calcular_sucessores.
  destruct (para_total
    (λ succs b, preds ← item preds_dict b; para (anexar_sucessor b) succs preds)
    (λ succs, ∀ k, k ∈ ids → is_Some (succs !! k)) (chaves ids))
    with (s := foldl (λ d b, <[b := []]> d) (∅ : gmap Z (list Z)) ids)
    as (succs & Hs & _); [| |by exists succs].
  - intros succs b Hb Hinv. rewrite elem_of_chaves in Hb.
    destruct (Hdom b Hb) as [preds Hp]. rewrite (proj2 (item_Ok _ _ _) Hp). simpl.
    apply (para_total (anexar_sucessor b)
             (λ succs, ∀ k, k ∈ ids → is_Some (succs !! k)) preds); [|done].
    intros s p Hpin Hs. destruct (Hs p) as [l Hl]; [by eapply Hfech|].
    rewrite anexar_sucessor_casos, Hl.
    eexists. split; [done|]. intros k Hk.
    destruct (decide (p = k)) as [->|Hne].
    + rewrite lookup_insert_eq. by eexists.
    + rewrite lookup_insert_ne by done. by apply Hs.
  - intros k Hk. rewrite sucessores_vazios, bool_decide_eq_true_2 by done.
    by eexists.
Qed.

End Carga_sucesso.

(** X11: for a table with the eight columns, distinct ids and
    [precedentes] cells that all evaluate, the load succeeds when every
    listed predecessor is the id of some row, and raises [KeyError] (from
    [succs[p]] in [_calcular_sucessores]) when some row lists a
    predecessor that is no id. *)
Theorem carga_depende_dos_predecessores {F} `{Numero F} (df : DataFrame F) :
  (∀ c, c ∈ todas_as_colunas → c ∈ columns df) →
  NoDup (l_id <$> linhas df) →
  (∀ r, r ∈ linhas df → ∃ l, valor_precedentes (l_precedentes r) = Ok l) →
  ((∀ r l p, r ∈ linhas df → valor_precedentes (l_precedentes r) = Ok l →
             p ∈ l → p ∈ l_id <$> linhas df) →
   ∃ inst, MineLibCPIT_init df = Ok (inst, df)) ∧
  ((∃ r l p, r ∈ linhas df ∧ valor_precedentes (l_precedentes r) = Ok l ∧
             p ∈ l ∧ p ∉ l_id <$> linhas df) →
   MineLibCPIT_init df = Raise KeyError).
Proof.
  intros Hcols Hnd Hparse.
  assert (∀ c, c ∈ colunas_basicas → c ∈ columns df) as Hbas.
  { intros c Hc. apply Hcols. unfold colunas_basicas in Hc.
    unfold todas_as_colunas. set_solver. }
  assert ("id" ∈ columns df ∧ "tonn" ∈ columns df ∧ "dest" ∈ columns df ∧
          "val_ore" ∈ columns df ∧ "precedentes" ∈ columns df)
    as (Hid & Htonn & Hdest & Hval & Hprec)
    by (split_and!; apply Hcols; unfold todas_as_colunas; set_solver).
  destruct (ler_precedentes_laco df (linhas df) ∅ Hid Hprec Hparse)
    as (preds & Hpreds & Hfora & Horigem & Hlook).
  assert (∀ b, b ∈ l_id <$> linhas df → is_Some (preds !! b)) as Hdom.
  { intros b (r & -> & Hr)%list_elem_of_fmap. destruct (Hparse r Hr) as [l Hl].
    rewrite (Hlook Hnd r l Hr Hl). by eexists. }
  assert (MineLibCPIT_init df
          = succs ← _calcular_sucessores (l_id <$> linhas df) preds;
            Ok ({| ids := l_id <$> linhas df;
                   tonn_dict := dict_zip (l_id <$> linhas df) (l_tonn <$> linhas df);
                   dest_dict := dict_zip (l_id <$> linhas df) (l_dest <$> linhas df);
                   val_ore_dict :=
                     dict_zip (l_id <$> linhas df) (l_val_ore <$> linhas df);
                   preds_dict := preds; succs_dict := succs |}, df)) as ->.
  { unfold MineLibCPIT_init. rewrite (validar_colunas_Ok df Hbas). simpl.
    unfold _preparar_dados, coluna. rewrite !bool_decide_eq_true_2 by done.
    simpl. unfold ler_precedentes. rewrite Hpreds. simpl.
    destruct (_calcular_sucessores (l_id <$> linhas df) preds); simpl; [|done].
    rewrite (atribuir_obter df "tonn") by (done || by intros []).
    rewrite (atribuir_obter df "val_ore") by (done || by intros []).
    by rewrite (atribuir_obter df "dest") by (done || by intros []). }
  split.
  - intros Hfech.
    destruct (calcular_sucessores_total (l_id <$> linhas df) preds Hdom)
      as [succs ->]; [|by eexists].
    intros b l p Hb Hp.
    destruct (Horigem b l Hb) as [Hd|(r & Hr & _ & Hl)]; [done|].
    by eapply Hfech.
  - intros (r & l & p & Hr & Hl & Hp & Hnid).
    destruct (_calcular_sucessores (l_id <$> linhas df) preds) as [succs|e]
      eqn:Hs; simpl.
    + exfalso. apply Hnid.
      destruct (calcular_sucessores_spec _ _ _ Hs) as (_ & Hcl & _).
      apply (Hcl (l_id r) l p); [|by apply Hlook|done].
      apply elem_of_chaves, list_elem_of_fmap. by exists r.
    + by rewrite (calcular_sucessores_erro _ _ _ Hs).
Qed.

(** A row that lists block 5, which no row has. *)
Lemma carga_depende_dos_predecessores_witness :
  (∃ inst, MineLibCPIT_init df_exemplo = Ok (inst, df_exemplo)) ∧
  MineLibCPIT_init
    {| columns := todas_as_colunas;
       linhas := [bloco 0 1%Q 1 1%Q "[]"; bloco 1 1%Q 1 1%Q "[5]"] |}
  = Raise KeyError.
Proof.
  assert (∀ (l : list (linha Q)) r,
            Forall (λ r, ∃ p, valor_precedentes (l_precedentes r) = Ok p) l →
            r ∈ l → ∃ p, valor_precedentes (l_precedentes r) = Ok p) as Hpar
    by (intros l r Hall Hr; exact (proj1 (Forall_forall _ l) Hall r Hr)).
  split.
  - refine (proj1 (carga_depende_dos_predecessores df_exemplo _ _ _) _).
    + intros c Hc. exact Hc.
    + apply (bool_decide_unpack _). vm_compute. reflexivity.
    + intros r. apply Hpar. repeat constructor; eexists; vm_compute; reflexivity.
    + intros r l p Hr Hl Hp. simpl in Hr.
      repeat (apply elem_of_cons in Hr as [->|Hr]);
        [..|by apply elem_of_nil in Hr];
        vm_compute in Hl; injection Hl as <-;
        repeat (apply elem_of_cons in Hp as [->|Hp]);
        try (by apply elem_of_nil in Hp); vm_compute; set_solver.
  - refine (proj2 (carga_depende_dos_predecessores
                     {| columns := todas_as_colunas;
                        linhas := [bloco 0 1%Q 1 1%Q "[]";
                                   bloco 1 1%Q 1 1%Q "[5]"] |} _ _ _) _).
    + intros c Hc. exact Hc.
    + apply (bool_decide_unpack _). vm_compute. reflexivity.
    + intros r. apply Hpar. repeat constructor; eexists; vm_compute; reflexivity.
    + exists (bloco 1 1%Q 1 1%Q "[5]"), [5], 5. split_and!.
      * set_solver.
      * vm_compute. reflexivity.
      * set_solver.
      * simpl. set_solver.
Defined.

(** ** The elite and the log of [executar] *)

Lemma compreensao_lookup {A B} (f : A → result B) (l : list A) (ys : list B)
    (i : nat) (x : A) (y : B) :
  compreensao f l = Ok ys → l !! i = Some x → ys !! i = Some y → f x = Ok y.
Proof.
  revert ys i. induction l as [|a l IH]; intros ys i; simpl; [done|].
  intros (b & Hb & (bs & Hbs & [= <-])%bind_Ok)%bind_Ok.
  destruct i as [|i]; simpl; [congruence|]. by eapply IH.
Qed.

Lemma compreensao_elem_of {A B} (f : A → result B) (l : list A) (ys : list B)
    (y : B) :
  compreensao f l = Ok ys → y ∈ ys → ∃ x, x ∈ l ∧ f x = Ok y.
Proof.
  revert ys. induction l as [|a l IH]; intros ys; simpl.
  - intros [= <-] Hy. by apply elem_of_nil in Hy.
  - intros (b & Hb & (bs & Hbs & [= <-])%bind_Ok)%bind_Ok.
    intros [->|Hy]%elem_of_cons.
    + exists a. split; [left|done].
    + destruct (IH _ Hbs Hy) as (x & Hx & Hfx). exists x. split; [by right|done].
Qed.

Section Elite.
Context {G F : Type} `{Numero F} `{Aleatorio G F}.
Variable inst : MineLibCPIT F.

Lemma argmax_passo_numero (i im : nat) (m y : F) :
  n_e_nan m = false → n_e_nan y = false →
  argmax_passo (i, im, m) y
  = if n_maior y m then (S i, S i, y) else (S i, im, m).
Proof. unfold argmax_passo. by intros -> ->. Qed.

(** Without a NaN the scan of [np.argmax] and the scan of [max] keep the
    same best value; the best position holds it. *)
Lemma argmax_laco (pre rest : list F) (i im : nat) (m : F) :
  S i = length pre → pre !! im = Some m →
  n_e_nan m = false → Forall (λ y, n_e_nan y = false) rest →
  let '(_, im', m') := foldl argmax_passo (i, im, m) rest in
  (pre ++ rest) !! im' = Some m' ∧
  m' = foldl (λ m y, if n_maior y m then y else m) m rest.
Proof.
  revert pre i im m.
  induction rest as [|y rest IH]; intros pre i im m Hi Him Hm Hrest.
  - simpl. by rewrite app_nil_r.
  - apply Forall_cons in Hrest as [Hy Hrest].
    replace (pre ++ y :: rest) with ((pre ++ [y]) ++ rest)
      by by rewrite <-app_assoc.
    cbn [foldl]. rewrite argmax_passo_numero by done.
    destruct (n_maior y m).
    + apply IH; [rewrite length_app; simpl; lia| |done|done].
      rewrite Hi. by rewrite lookup_app_r, Nat.sub_diag by lia.
    + apply IH; [rewrite length_app; simpl; lia| |done|done].
      by apply lookup_app_l_Some.
Qed.

Lemma argmax_py_max (l : list F) (i : nat) (m : F) :
  Forall (λ y, n_e_nan y = false) l →
  argmax l = Ok i → py_max l = Ok m → l !! i = Some m.
Proof.
  destruct l as [|x l]; [done|]. unfold argmax, py_max.
  intros [Hx Hl]%Forall_cons [= <-] [= <-].
  pose proof (argmax_laco [x] l O O x eq_refl eq_refl Hx Hl) as Hlaco.
  destruct (foldl _ (O, O, x) l) as [[i im] m]. simpl.
  destruct Hlaco as [Hlaco ->]. exact Hlaco.
Qed.

(** The log of a generation does not depend on the position
    [np.argmax] picks. *)
Lemma geracao_historico (slv : CPITSolverCompleto F) (pop : list (list Z))
    (el el' : elite) (g g' : G) :
  geracao inst slv pop (el, g) = Ok (el', g') →
  e_historico el' = e_historico el ++ [e_vpl el'] ∧
  (e_vpl el' = e_vpl el ∨ n_maior (e_vpl el') (e_vpl el) = true).
Proof.
  unfold geracao.
  intros ([nova g1] & Hnova & (fitness & Hfit & (m & Hm & (el1 & Hel1 & [= <- _])
    %bind_Ok)%bind_Ok)%bind_Ok)%bind_Ok.
  simpl.
  destruct (n_maior m (e_vpl el)) eqn:Hmaior.
  - apply bind_Ok in Hel1 as (i & Hi & (s & Hs & [= <-])%bind_Ok). simpl.
    split; [done|by right].
  - injection Hel1 as <-. split; [done|by left].
Qed.

Lemma geracoes_historico (n : nat) (slv : CPITSolverCompleto F)
    (pop : list (list Z)) (el el' : elite) (g g' : G) :
  geracoes inst n slv pop (el, g) = Ok (el', g') →
  ∃ h, e_historico el' = e_historico el ++ h ∧ length h = n ∧
       nao_decrescente (e_vpl el :: h) ∧
       last (e_vpl el :: h) = Some (e_vpl el').
Proof.
  revert el g. induction n as [|n IH]; intros el g; simpl.
  - intros [= <- _]. exists []. rewrite app_nil_r.
    split_and!; [done..| |done]. by intros [|i] x y.
  - intros ([el1 g1] & H1 & Hrest)%bind_Ok.
    destruct (geracao_historico _ _ _ _ _ _ H1) as (Hh1 & Hv1).
    destruct (IH _ _ Hrest) as (h & Hh & Hlen & Hnd & Hlast).
    exists (e_vpl el1 :: h). split_and!.
    + rewrite Hh, Hh1. by rewrite <-app_assoc.
    + simpl. by rewrite Hlen.
    + intros [|i] x y Hx Hy; simpl in *; [|by eapply Hnd].
      injection Hx as <-. by injection Hy as <-.
    + by rewrite last_cons_cons.
Qed.

Lemma executar_historico (slv slv' : CPITSolverCompleto F) (g g' : G) :
  executar inst slv g = Ok (slv', g') →
  ∃ el0 el h,
    melhor_vpl slv' = Some (e_vpl el) ∧
    historico slv' = historico slv ++ h ∧
    length h = Z.to_nat (num_geracoes slv) ∧
    nao_decrescente (e_vpl el0 :: h) ∧
    last (e_vpl el0 :: h) = Some (e_vpl el).
Proof.
  unfold executar.
  intros ([[pop el0] g0] & Hini & ([el g1] & Hger & [= <- _])%bind_Ok)%bind_Ok.
  destruct (geracoes_historico _ _ _ _ _ _ _ Hger) as (h & Hh & Hlen & Hnd & Hl).
  unfold executar_inicio in Hini.
  apply bind_Ok in Hini as ([pop' g0'] & _ & Hini).
  apply bind_Ok in Hini as (fitness & Hfit & Hini).
  apply bind_Ok in Hini as (i & Hi & Hini).
  apply bind_Ok in Hini as (s & Hs & Hini).
  apply bind_Ok in Hini as (m & Hm & [= -> <- ->]).
  eexists _, el, h. simpl. split_and!; [done|exact Hh|done|exact Hnd|exact Hl].
Qed.

(** The evaluator, with its default rate and capacity, gives NaN to no
    sequence. *)
Hypothesis sem_nan : ∀ s v,
  calcular_vpl inst taxa_padrao capacidade_padrao s = Ok v → n_e_nan v = false.

Lemma avaliar_sem_nan (pop : list (list Z)) (fitness : list F) :
  avaliar inst pop = Ok fitness → Forall (λ y, n_e_nan y = false) fitness.
Proof using sem_nan.
  intros Hfit. apply Forall_forall. intros y Hy.
  destruct (compreensao_elem_of _ _ _ _ Hfit Hy) as (s & _ & Hs).
  by eapply sem_nan.
Qed.

Lemma melhor_da_populacao (pop : list (list Z)) (fitness : list F) (i : nat)
    (s : list Z) (m : F) :
  avaliar inst pop = Ok fitness → argmax fitness = Ok i →
  posicao pop i = Ok s → py_max fitness = Ok m →
  calcular_vpl inst taxa_padrao capacidade_padrao s = Ok m.
Proof using sem_nan.
  intros Hfit Hi Hs%posicao_Ok Hm.
  eapply compreensao_lookup; [exact Hfit|exact Hs|].
  apply argmax_py_max; [by eapply avaliar_sem_nan|done..].
Qed.

Lemma geracao_elite (slv : CPITSolverCompleto F) (pop : list (list Z))
    (el el' : elite) (g g' : G) :
  geracao inst slv pop (el, g) = Ok (el', g') →
  elite_coerente_em inst el → elite_coerente_em inst el'.
Proof using sem_nan.
  unfold geracao.
  intros ([nova g1] & Hnova & (fitness & Hfit & (m & Hm & (el1 & Hel1 & [= <- _])
    %bind_Ok)%bind_Ok)%bind_Ok)%bind_Ok.
  unfold elite_coerente_em. simpl.
  destruct (n_maior m (e_vpl el)) eqn:Hmaior.
  - apply bind_Ok in Hel1 as (i & Hi & (s & Hs & [= <-])%bind_Ok). simpl.
    intros _. by eapply melhor_da_populacao.
  - by injection Hel1 as <-.
Qed.

Lemma geracoes_elite (n : nat) (slv : CPITSolverCompleto F) (pop : list (list Z))
    (el el' : elite) (g g' : G) :
  geracoes inst n slv pop (el, g) = Ok (el', g') →
  elite_coerente_em inst el → elite_coerente_em inst el'.
Proof using sem_nan.
  revert el g. induction n as [|n IH]; intros el g; simpl.
  - by intros [= <- _].
  - intros ([el1 g1] & H1 & Hrest)%bind_Ok Hc.
    eapply IH; [exact Hrest|]. by eapply geracao_elite.
Qed.

Lemma executar_elite (slv slv' : CPITSolverCompleto F) (g g' : G) :
  executar inst slv g = Ok (slv', g') →
  ∃ el,
    melhor_solucao slv' = Some (e_solucao el) ∧
    melhor_vpl slv' = Some (e_vpl el) ∧
    elite_coerente_em inst el.
Proof using sem_nan.
  unfold executar.
  intros ([[pop el0] g0] & Hini & ([el g1] & Hger & [= <- _])%bind_Ok)%bind_Ok.
  unfold executar_inicio in Hini.
  apply bind_Ok in Hini as ([pop' g0'] & _ & Hini).
  apply bind_Ok in Hini as (fitness & Hfit & Hini).
  apply bind_Ok in Hini as (i & Hi & Hini).
  apply bind_Ok in Hini as (s & Hs & Hini).
  apply bind_Ok in Hini as (m & Hm & [= -> <- ->]).
  exists el. simpl. split_and!; [done|done|].
  eapply geracoes_elite; [exact Hger|]. by eapply melhor_da_populacao.
Qed.

End Elite.

(** With a NaN among the values [np.argmax] and [max] part: the first
    picks the position of the NaN, the second a value that is a number. *)
Lemma argmax_primeiro_nan :
  argmax [Some 1%Q; None; Some 2%Q] = Ok 1%nat ∧
  py_max [Some 1%Q; None; Some 2%Q] = Ok (Some 2%Q) ∧
  argmax [None; Some 2%Q] = Ok 0%nat ∧
  py_max [None; Some 2%Q] = Ok None.
Proof. split_and!; vm_compute; reflexivity. Qed.

(** X12: when the evaluator, with its default rate and capacity, gives
    NaN to no sequence, the pair that [executar] returns is coherent: the
    elite value is the value the evaluator gives to the elite sequence. *)
Theorem elite_e_seu_valor {G F} `{Numero F} `{Aleatorio G F}
    (inst : MineLibCPIT F) (slv slv' : CPITSolverCompleto F) (g g' : G) :
  (∀ s v, calcular_vpl inst taxa_padrao capacidade_padrao s = Ok v →
          n_e_nan v = false) →
  executar inst slv g = Ok (slv', g') →
  ∃ s v, melhor_solucao slv' = Some s ∧ melhor_vpl slv' = Some v ∧
         calcular_vpl inst taxa_padrao capacidade_padrao s = Ok v.
Proof.
  intros Hnan (el & Hs & Hv & Hc)%(executar_elite inst Hnan).
  by exists (e_solucao el), (e_vpl el).
Qed.

Lemma elite_e_seu_valor_witness :
  ∃ slv' (g' : Z) s v,
    corrida inst_cadeia 4 3 (1 # 2)%Q 42 0 = Ok (slv', g') ∧
    melhor_solucao slv' = Some s ∧ melhor_vpl slv' = Some v ∧
    calcular_vpl inst_cadeia taxa_padrao capacidade_padrao s = Ok v.
Proof.
  assert (∃ slv' (g' : Z),
            corrida inst_cadeia 4 3 (1 # 2)%Q 42 0 = Ok (slv', g'))
    as (slv' & g' & Hrun) by (eexists _, _; vm_compute; reflexivity).
  assert (∀ (s : list Z) (v : Q),
            calcular_vpl inst_cadeia taxa_padrao capacidade_padrao s = Ok v →
            n_e_nan v = false) as Hnan by (intros s v _; reflexivity).
  destruct (elite_e_seu_valor (G:=Z) inst_cadeia _ _ _ _ Hnan Hrun)
    as (s & v & Hs & Hv & Hval).
  exists slv', g', s, v. split; [exact Hrun|]. split; [exact Hs|].
  split; [exact Hv|exact Hval].
Defined.

(** X13: [executar] appends to the log one reading per generation, and
    nothing else; each reading is the elite value after that generation,
    equal to the reading before it or greater, and the last one is the
    elite value returned. *)
Theorem historico_uma_leitura_por_geracao {G F} `{Numero F} `{Aleatorio G F}
    (inst : MineLibCPIT F) (slv slv' : CPITSolverCompleto F) (g g' : G) :
  executar inst slv g = Ok (slv', g') →
  ∃ h, historico slv' = historico slv ++ h ∧
       length h = Z.to_nat (num_geracoes slv) ∧
       nao_decrescente h ∧
       (h = [] ∨ ∃ v, last h = Some v ∧ melhor_vpl slv' = Some v).
Proof.
  intros (el0 & el & h & Hv & Hh & Hlen & Hnd & Hlast)%executar_historico.
  exists h. split_and!; [done..| |].
  - intros i x y Hx Hy. by apply (Hnd (S i) x y).
  - destruct h as [|v0 h]; [by left|right].
    exists (e_vpl el). split; [|done]. by rewrite last_cons_cons in Hlast.
Qed.

Lemma historico_uma_leitura_por_geracao_witness :
  ∃ slv' (g' : Z) h,
    corrida inst_cadeia 4 3 (1 # 2)%Q 42 0 = Ok (slv', g') ∧
    historico slv' = [] ++ h ∧ length h = 3%nat ∧ nao_decrescente h.
Proof.
  assert (∃ slv' (g' : Z),
            corrida inst_cadeia 4 3 (1 # 2)%Q 42 0 = Ok (slv', g'))
    as (slv' & g' & Hrun) by (eexists _, _; vm_compute; reflexivity).
  destruct (historico_uma_leitura_por_geracao (G:=Z) inst_cadeia _ _ _ _ Hrun)
    as (h & Hh & Hlen & Hnd & _).
  exists slv', g', h. split; [exact Hrun|]. split; [exact Hh|].
  split; [exact Hlen|exact Hnd].
Defined.

(** ** Populations below two *)

Lemma gerar_populacao_length {G F} `{Aleatorio G F} (inst : MineLibCPIT F)
    (n : nat) (g g' : G) (pop : list (list Z)) :
  gerar_populacao inst n g = Ok (pop, g') → length pop = n.
Proof.
  revert g g' pop. induction n as [|n IH]; intros g g' pop; simpl.
  - by intros [= <- _].
  - intros ([s g1] & _ & ([pop' g2] & Hpop & [= <- _])%bind_Ok)%bind_Ok.
    simpl. f_equal. by eapply IH.
Qed.

(** X14: [executar] returns nothing when the population has fewer than
    two members and a generation is asked for, or when it has none: with
    no member the first [np.argmax] raises [ValueError]; with one member
    the first sampling of two parents does. *)
Theorem executar_populacao_minima {G F} `{Numero F} `{Aleatorio G F}
    (inst : MineLibCPIT F) (slv : CPITSolverCompleto F) (g : G) :
  pop_size slv < 2 →
  (pop_size slv ≤ 0 → executar inst slv g = Raise ValueError) ∧
  (0 < num_geracoes slv → ∃ e, executar inst slv g = Raise e).
Proof.
  intros Hpop. assert (pop_size slv ≤ 0 → executar inst slv g = Raise ValueError)
    as Hzero.
  { intros Hle. unfold executar, executar_inicio, gerar_populacao_inicial.
    by replace (Z.to_nat (pop_size slv)) with O by lia. }
  split; [done|]. intros Hnum.
  destruct (decide (pop_size slv ≤ 0)) as [|Hum]; [eexists; by apply Hzero|].
  destruct (executar inst slv g) as [[slv' g']|e] eqn:Hexec; [exfalso|by eexists].
  unfold executar in Hexec.
  apply bind_Ok in Hexec as ([[pop el0] g0] & Hini & Hexec).
  apply bind_Ok in Hexec as ([el g1] & Hger & _).
  unfold executar_inicio, gerar_populacao_inicial in Hini.
  apply bind_Ok in Hini as ([pop' g0'] & Hlen%gerar_populacao_length & Hini).
  apply bind_Ok in Hini as (fitness & _ & Hini).
  apply bind_Ok in Hini as (i & _ & Hini).
  apply bind_Ok in Hini as (s & _ & Hini).
  apply bind_Ok in Hini as (m & _ & [= -> _ _]).
  destruct (Z.to_nat (num_geracoes slv)) as [|n] eqn:Hn; [lia|].
  simpl in Hger. apply bind_Ok in Hger as ([el1 g2] & Hg & _).
  unfold geracao in Hg. apply bind_Ok in Hg as ([nova g3] & Hnova & _).
  replace (Z.to_nat (pop_size slv)) with 1%nat in * by lia.
  simpl in Hnova. unfold gerar_filho in Hnova.
  by rewrite sample2_Raise in Hnova by lia.
Qed.

Lemma executar_populacao_minima_witness :
  executar (G:=Z) inst_cadeia
    {| pop_size := 0; num_geracoes := 3; taxa_mutacao := (1 # 2)%Q;
       melhor_solucao := None; melhor_vpl := None; historico := [] |} 42
  = Raise ValueError ∧
  ∃ e, executar (G:=Z) inst_cadeia
         {| pop_size := 1; num_geracoes := 3; taxa_mutacao := (1 # 2)%Q;
            melhor_solucao := None; melhor_vpl := None; historico := [] |} 42
       = Raise e.
Proof.
  split.
  - refine (proj1 (executar_populacao_minima (G:=Z) inst_cadeia _ 42 _) _);
      simpl; lia.
  - refine (proj2 (executar_populacao_minima (G:=Z) inst_cadeia _ 42 _) _);
      simpl; lia.
Defined.

(** ** What the baseline leaves out *)

Lemma factivel_ancestrais {F} (inst : MineLibCPIT F) (o : list Z) (x y : Z) :
  verificar_factibilidade inst o = Ok true →
  tc (precede inst) x y →
  ∀ i, o !! i = Some y → ∃ j, (j < i)%nat ∧ o !! j = Some x.
Proof.
  intros Ho Hxy. induction Hxy as [x y (preds & Hy & Hx)|x y z (preds & Hy & Hx) _ IH];
    intros i Hi.
  - by eapply verificar_factibilidade_posicoes.
  - destruct (IH i Hi) as (j & Hj & Hoj).
    destruct (verificar_factibilidade_posicoes inst o Ho j y preds x Hoj Hy Hx)
      as (k & Hk & Hok).
    exists k. split; [lia|done].
Qed.

Lemma factivel_sem_ciclo {F} (inst : MineLibCPIT F) (o : list Z) (c b : Z) :
  verificar_factibilidade inst o = Ok true → NoDup o →
  tc (precede inst) c c → rtc (precede inst) c b → b ∉ o.
Proof.
  intros Ho Hnd Hcc Hcb Hb.
  assert (tc (precede inst) c b) as Htc by by eapply tc_rtc_r.
  apply list_elem_of_lookup in Hb as [i Hi].
  destruct (factivel_ancestrais inst o c b Ho Htc i Hi) as (j & Hj & Hoj).
  destruct (factivel_ancestrais inst o c c Ho Hcc j Hoj) as (k & Hk & Hok).
  pose proof (NoDup_lookup o j k c Hnd Hoj Hok). lia.
Qed.

(** X15: the baseline never places a block that lies on a cycle of the
    precedence graph, nor a block that has such a block among its direct
    or indirect predecessors: with a cycle, the sequence returned is a
    strict part of the ids. *)
Theorem baseline_exclui_ciclos {G F} `{Numero F} `{Aleatorio G F}
    (inst : MineLibCPIT F) (g g' : G) (o : list Z) (v : F) :
  carregada inst →
  baseline_toposort inst g = Ok (o, v, g') →
  ∀ c b, tc (precede inst) c c → rtc (precede inst) c b →
         b ∈ ids inst ∧ b ∉ o.
Proof.
  intros Hbf%carregada_bem_formada Hbase%baseline_toposort_Ok c b Hcc Hcb.
  destruct (toposort_ordem_spec inst Hbf g)
    as (st & g1 & Hord & (Hnd & _ & _ & _ & Hfact) & _).
  assert (o = ordem st) as -> by congruence.
  split; [|by eapply factivel_sem_ciclo].
  assert (tc (precede inst) c b) as Htc by by eapply tc_rtc_r.
  assert (∀ x y, tc (precede inst) x y → y ∈ ids inst) as Hids.
  { induction 1 as [x y (preds & Hy & _)|x y z _ _ IH]; [|done].
    apply Hbf. by eexists. }
  by eapply Hids.
Qed.

Lemma inst_ciclo_tem_ciclo : tc (precede inst_ciclo) 1 1.
Proof.
  apply (tc_l _ 1 2 1); [|apply tc_once].
  - exists [1]. split; [vm_compute; reflexivity|set_solver].
  - exists [2]. split; [vm_compute; reflexivity|set_solver].
Qed.

Lemma baseline_exclui_ciclos_witness :
  (∃ v (g' : Z), baseline_toposort inst_ciclo 7 = Ok ([0], v, g')) ∧
  (2 ∈ ids inst_ciclo ∧ 2 ∉ [0]).
Proof.
  assert (carregada inst_ciclo) as Hc
    by (exists df_ciclo, df_ciclo; vm_compute; reflexivity).
  assert (∃ v (g' : Z), baseline_toposort inst_ciclo 7 = Ok ([0], v, g'))
    as (v & g' & Hrun) by (eexists _, _; vm_compute; reflexivity).
  split; [by exists v, g'|].
  apply (baseline_exclui_ciclos (G:=Z) inst_ciclo 7 g' [0] v Hc Hrun 1 2).
  - exact inst_ciclo_tem_ciclo.
  - apply rtc_once. exists [1]. split; [vm_compute; reflexivity|set_solver].
Defined.

(** X16: the baseline stops only when nothing more can be placed: every
    id it leaves out has a listed predecessor that it leaves out too. *)
Theorem baseline_maximal {G F} `{Numero F} `{Aleatorio G F}
    (inst : MineLibCPIT F) (g g' : G) (o : list Z) (v : F) :
  carregada inst →
  baseline_toposort inst g = Ok (o, v, g') →
  ∀ u, u ∈ ids inst → u ∉ o → ∃ p, precede inst p u ∧ p ∉ o.
Proof.
  intros Hbf%carregada_bem_formada Hbase%baseline_toposort_Ok u Hu Hno.
  destruct (toposort_ordem_spec inst Hbf g) as (st & g1 & Hord & Hst & Hfim).
  assert (o = ordem st) as -> by congruence.
  destruct Hfim as [Hlivres|Hlen];
    [|destruct Hno; by apply (ordem_completa inst st Hst Hlen)].
  destruct Hst as (Hnd & Hvis & Hids & Hrest & Hfact).
  destruct (Hrest u Hu) as (preds & Hpreds & Hru).
  destruct (decide (list_to_set preds ∖ list_to_set (ordem st) = (∅ : gset Z)))
    as [Hvazio|Hnv].
  - exfalso. eapply (filter_nil_not_elem_of _ _ u Hlivres);
      [|by apply elem_of_chaves].
    split; [by rewrite Hru, Hvazio|]. by rewrite Hvis, elem_of_list_to_set.
  - apply set_choose_L in Hnv as [p Hp].
    apply elem_of_difference in Hp as [Hp Hpo].
    rewrite elem_of_list_to_set in Hp, Hpo.
    exists p. split; [by exists preds|done].
Qed.

Lemma baseline_maximal_witness :
  ∃ p, precede inst_ciclo p 2 ∧ p ∉ [0].
Proof.
  assert (carregada inst_ciclo) as Hc
    by (exists df_ciclo, df_ciclo; vm_compute; reflexivity).
  assert (∃ v (g' : Z), baseline_toposort inst_ciclo 7 = Ok ([0], v, g'))
    as (v & g' & Hrun) by (eexists _, _; vm_compute; reflexivity).
  apply (baseline_maximal (G:=Z) inst_ciclo 7 g' [0] v Hc Hrun 2).
  - simpl. set_solver.
  - set_solver.
Defined.

(** ** The list text written by [merge_precedences.py] and read by the
    loader *)

Lemma digito_char_spec (d : Z) :
  0 ≤ d ≤ 9 →
  digito (digito_char d) = Some d ∧
  Ascii.eqb (digito_char d) "]" = false ∧
  Ascii.eqb (digito_char d) "," = false ∧
  Ascii.eqb (digito_char d) "-" = false.
Proof.
  intros Hd.
  assert (d = 0 ∨ d = 1 ∨ d = 2 ∨ d = 3 ∨ d = 4 ∨ d = 5 ∨ d = 6 ∨ d = 7 ∨
          d = 8 ∨ d = 9) as Hcasos by lia.
  repeat (destruct Hcasos as [->|Hcasos]); try subst d; by vm_compute.
Qed.

(** Reading one more digit of a number already begun. *)
Lemma ler_lista_digito (d : Z) (cs : list ascii) (itens : list Z) (neg : bool)
    (num : option Z) :
  0 ≤ d ≤ 9 → (∀ n, num = Some n → 0 < n) →
  ler_lista (digito_char d :: cs) itens neg num
  = ler_lista cs itens neg (Some (10 * default 0 num + d)).
Proof.
  intros Hd Hnum. destruct (digito_char_spec d Hd) as (Hdig & H1 & H2 & H3).
  simpl. rewrite H1, H2, H3, Hdig. destruct num as [n|]; simpl; [|done].
  specialize (Hnum n eq_refl).
  by rewrite (proj2 (Z.eqb_neq n 0)) by lia.
Qed.

Lemma ler_lista_digitos (ds : list Z) (n : Z) (cs : list ascii) (itens : list Z)
    (neg : bool) :
  0 < n → Forall (λ d, 0 ≤ d ≤ 9) ds →
  ler_lista ((digito_char <$> ds) ++ cs) itens neg (Some n)
  = ler_lista cs itens neg (Some (foldl (λ a d, 10 * a + d) n ds)).
Proof.
  intros Hn Hds. revert n Hn. induction Hds as [|d ds Hd _ IH]; intros n Hn;
    [done|].
  rewrite fmap_cons. simpl app.
  rewrite ler_lista_digito; [|done|by intros ? [= <-]]. simpl.
  apply IH. lia.
Qed.

Lemma ler_lista_digitos_aux (comb : nat) (n : Z) (acc : list Z)
    (cs : list ascii) (itens : list Z) (neg : bool) :
  0 < n < 2 ^ Z.of_nat comb → Forall (λ d, 0 ≤ d ≤ 9) acc →
  ler_lista ((digito_char <$> digitos_aux comb n acc) ++ cs) itens neg None
  = ler_lista cs itens neg (Some (foldl (λ a d, 10 * a + d) n acc)).
Proof.
  revert n acc. induction comb as [|comb IH]; intros n acc Hn Hacc.
  { simpl in Hn. lia. }
  simpl digitos_aux. destruct (Z.ltb_spec n 10) as [Hlt|Hge].
  - rewrite fmap_cons. simpl app.
    rewrite ler_lista_digito; [|lia|done]. simpl.
    replace (0 + n) with n by lia. apply ler_lista_digitos; [lia|done].
  - rewrite IH.
    + simpl. f_equal. f_equal. f_equal. pose proof (Z.div_mod n 10). lia.
    + rewrite Nat2Z.inj_succ, Z.pow_succ_r in Hn by lia. split.
      * apply Z.div_str_pos. lia.
      * apply Z.div_lt_upper_bound; lia.
    + constructor; [|done]. pose proof (Z.mod_pos_bound n 10). lia.
Qed.

(** Reading the text of an integer leaves the reader with its sign and
    its absolute value. *)
Lemma ler_lista_str_int (z : Z) (cs : list ascii) (itens : list Z) :
  ∃ neg n, com_sinal neg n = z ∧
    ler_lista (str_int z ++ cs) itens false None
    = ler_lista cs itens neg (Some n).
Proof.
  assert (∀ n, 0 < n → n < 2 ^ Z.of_nat (S (Z.to_nat (Z.log2 n)))) as Hfuel.
  { intros n Hn. rewrite Nat2Z.inj_succ, Z2Nat.id by apply Z.log2_nonneg.
    by apply Z.log2_spec. }
  unfold str_int. destruct (Z.ltb_spec z 0) as [Hneg|Hpos].
  - exists true, (- z). split; [simpl; lia|]. simpl.
    unfold digitos. by rewrite ler_lista_digitos_aux by (auto with lia).
  - exists false, z. split; [done|].
    destruct (decide (z = 0)) as [->|Hnz]; [done|].
    unfold digitos. by rewrite ler_lista_digitos_aux by (auto with lia).
Qed.

Lemma ler_lista_virgula (cs : list ascii) (itens : list Z) (neg : bool) (n : Z) :
  ler_lista (","%char :: cs) itens neg (Some n)
  = ler_lista cs (itens ++ [com_sinal neg n]) false None.
Proof. done. Qed.

Lemma ler_lista_juntar (v : Z) (vs itens : list Z) :
  ler_lista (juntar (str_int <$> v :: vs) ++ ["]"%char]) itens false None
  = Ok (itens ++ v :: vs).
Proof.
  revert v itens. induction vs as [|w vs IH]; intros v itens.
  - simpl juntar. destruct (ler_lista_str_int v ["]"%char] itens)
      as (neg & n & <- & ->). done.
  - change (juntar (str_int <$> v :: w :: vs))
      with (str_int v ++ ","%char :: juntar (str_int <$> w :: vs)).
    rewrite <-app_assoc.
    destruct (ler_lista_str_int v
                ((","%char :: juntar (str_int <$> w :: vs)) ++ ["]"%char]) itens)
      as (neg & n & <- & ->).
    rewrite <-app_comm_cons, ler_lista_virgula, IH. by rewrite <-app_assoc.
Qed.

Lemma py_eval_formatar_lista (vals : list Z) :
  py_eval (formatar_lista vals) = Ok vals.
Proof.
  unfold py_eval, formatar_lista. rewrite list_ascii_of_string_of_list_ascii.
  simpl. destruct vals as [|v vs]; [done|]. apply ler_lista_juntar.
Qed.

(** X17: what [merge_precedences.py] writes for a list of integers is
    read back by the loader as that list: [eval] of
    ["[" + ",".join(map(str, vals)) + "]"] is [vals]. *)
Theorem formatar_lista_ida_e_volta (vals : list Z) :
  py_eval (formatar_lista vals) = Ok vals.
Proof. apply py_eval_formatar_lista. Qed.

Lemma recolher_sem_sentinela (int_de_texto : string → option Z)
    (celulas : list valor_prec) (vals : list Z) :
  -1 ∉ vals → -1 ∉ foldl (recolher int_de_texto) vals celulas.
Proof.
  revert vals. induction celulas as [|v celulas IH]; intros vals Hvals; [done|].
  simpl. apply IH. unfold recolher.
  destruct v; try done; destruct (py_int _ _) as [iv|]; try done;
    destruct (Z.eqb_spec iv (-1)); try done;
    rewrite elem_of_app, list_elem_of_singleton; naive_solver.
Qed.

Lemma recolher_omap (int_de_texto : string → option Z)
    (celulas : list valor_prec) (vals : list Z) :
  foldl (recolher int_de_texto) vals celulas
  = vals ++ filter (λ iv, iv ≠ -1) (omap (py_int int_de_texto) celulas).
Proof.
  revert vals. induction celulas as [|v celulas IH]; intros vals.
  - simpl. by rewrite app_nil_r.
  - cbn [foldl]. rewrite IH.
    change (omap (py_int int_de_texto) (v :: celulas))
      with (match py_int int_de_texto v with
            | Some y => y :: omap (py_int int_de_texto) celulas
            | None => omap (py_int int_de_texto) celulas
            end).
    assert (recolher int_de_texto vals v
            = match py_int int_de_texto v with
              | Some iv => if iv =? -1 then vals else vals ++ [iv]
              | None => vals
              end) as -> by by destruct v.
    destruct (py_int int_de_texto v) as [iv|]; [|done].
    destruct (Z.eqb_spec iv (-1)) as [Heq|Hne].
    + by rewrite filter_cons_False by naive_solver.
    + rewrite filter_cons_True by done. by rewrite <-app_assoc.
Qed.

(** X18: whatever the cells of the [prec] columns of a row hold, the
    text that [make_preced_list] builds from them is read by the loader
    without error, as the list of the integer values of the cells in
    column order, missing and unconvertible cells left out, and the
    sentinel -1 never in it. *)
Theorem ramo_prec_cols_legivel (int_de_texto : string → option Z)
    (celulas : list valor_prec) :
  py_eval (ramo_prec_cols int_de_texto celulas)
  = Ok (valores_prec int_de_texto celulas) ∧
  valores_prec int_de_texto celulas
  = filter (λ iv, iv ≠ -1) (omap (py_int int_de_texto) celulas) ∧
  -1 ∉ valores_prec int_de_texto celulas.
Proof.
  split_and!.
  - unfold ramo_prec_cols.
    destruct (valores_prec int_de_texto celulas) as [|v vs]; [done|].
    apply py_eval_formatar_lista.
  - unfold valores_prec. by rewrite recolher_omap.
  - apply recolher_sem_sentinela, not_elem_of_nil.
Qed.

(** ** Errors of the evaluator *)

Section Avaliacao_erros.
Context {F : Type} `{Numero F}.
Variable inst : MineLibCPIT F.
Hypothesis Hbf : bem_formada inst.
Variables taxa capacidade : F.
Hypothesis Hreg : desconto_regular taxa.

Lemma vpl_passo_total (st : avaliacao) (b : Z) :
  b ∈ ids inst → 1 ≤ ano st →
  ∃ st', vpl_passo inst taxa capacidade st b = Ok st' ∧ 1 ≤ ano st'.
Proof using Hbf Hreg.
  intros Hb Hano. unfold vpl_passo.
  destruct (proj1 (bf_preds inst Hbf b) Hb) as [preds ->%item_Ok]. simpl.
  destruct (todos_visitados (visitados st) preds); [|by exists st].
  destruct (proj1 (bf_dest inst Hbf b) Hb) as [dest ->%item_Ok]. simpl.
  destruct (proj1 (bf_tonn inst Hbf b) Hb) as [ton ->%item_Ok]. simpl.
  destruct (proj1 (bf_val_ore inst Hbf b) Hb) as [val ->%item_Ok]. simpl.
  assert (1 ≤ (caixa_e_periodo capacidade st dest ton val).1.2) as Hano'.
  { unfold caixa_e_periodo. repeat case_match; simpl; lia. }
  destruct (caixa_e_periodo capacidade st dest ton val) as [[cash ano'] ton'].
  simpl in Hano'. destruct (Hreg (ano' - 1)) as (fator & -> & Hz); [lia|].
  simpl. unfold n_div. rewrite Hz. simpl. eexists. split; [done|]. simpl. lia.
Qed.

Lemma para_vpl_desconhecido (l : list Z) (st : avaliacao) :
  1 ≤ ano st → (∃ b, b ∈ l ∧ b ∉ ids inst) →
  para (vpl_passo inst taxa capacidade) st l = Raise KeyError.
Proof using Hbf Hreg.
  revert st. induction l as [|x l IH]; intros st Hano (b & Hb & Hnb);
    [by apply elem_of_nil in Hb|].
  simpl. destruct (decide (x ∈ ids inst)) as [Hx|Hx].
  - destruct (vpl_passo_total st x Hx Hano) as (st' & -> & Hano'). simpl.
    apply IH; [done|]. exists b. split; [|done].
    apply elem_of_cons in Hb as [->|Hb]; done.
  - unfold vpl_passo, item.
    destruct (preds_dict inst !! x) eqn:Hl; [|done].
    destruct Hx. apply Hbf. by eexists.
Qed.

End Avaliacao_erros.

(** X19: on a loaded model, with discount factors that exist, the
    evaluator returns a value for every sequence of ids, feasible or not,
    repeated or not, and raises [KeyError] exactly when the sequence holds
    a block that is no id, wherever it stands. *)
Theorem calcular_vpl_erros {F} `{Numero F} (inst : MineLibCPIT F)
    (taxa capacidade : F) (s : list Z) :
  carregada inst →
  desconto_regular taxa →
  ((∀ b, b ∈ s → b ∈ ids inst) →
   ∃ v, calcular_vpl inst taxa capacidade s = Ok v) ∧
  (calcular_vpl inst taxa capacidade s = Raise KeyError ↔
   ∃ b, b ∈ s ∧ b ∉ ids inst).
Proof.
  intros Hbf%carregada_bem_formada Hreg.
  assert ((∀ b, b ∈ s → b ∈ ids inst) →
          ∃ v, calcular_vpl inst taxa capacidade s = Ok v) as Htotal.
  { intros Hs. destruct (vpl_estado_total inst Hbf taxa capacidade s Hreg Hs)
      as [st Hst].
    exists (valor_total st). unfold calcular_vpl. by rewrite Hst. }
  split; [done|]. split.
  - intros Hraise.
    destruct (decide (Exists (λ b, b ∉ ids inst) s)) as [Hex|Hall].
    + by apply Exists_exists in Hex.
    + destruct Htotal as [v Hv]; [|congruence].
      intros b Hb. destruct (decide (b ∈ ids inst)) as [|Hnb]; [done|].
      destruct Hall. apply Exists_exists. by exists b.
  - intros Hex. unfold calcular_vpl, vpl_estado.
    rewrite (para_vpl_desconhecido inst Hbf taxa capacidade Hreg); [done| |done].
    simpl. lia.
Qed.

Lemma calcular_vpl_erros_witness :
  (∃ v, calcular_vpl inst_exemplo (15 # 100)%Q 15%Q [3; 0; 0] = Ok v) ∧
  calcular_vpl inst_exemplo (15 # 100)%Q 15%Q [0; 9] = Raise KeyError.
Proof.
  assert (carregada inst_exemplo) as Hc
    by (exists df_exemplo, df_exemplo; vm_compute; reflexivity).
  assert (desconto_regular (15 # 100)%Q) as Hreg
    by (apply desconto_regular_Q; vm_compute; discriminate).
  split.
  - apply (proj1 (calcular_vpl_erros inst_exemplo (15 # 100)%Q 15%Q [3; 0; 0]
                    Hc Hreg)).
    intros b Hb. simpl. set_solver.
  - apply (proj2 (calcular_vpl_erros inst_exemplo (15 # 100)%Q 15%Q [0; 9]
                    Hc Hreg)).
    exists 9. split; [set_solver|]. simpl. set_solver.
Defined.
